(** * Invoice line-item pipeline: candidates, de-duplication, reconciliation

    A shallow embedding of the decision-making core of the invoice
    extraction service (ocr_cells.py, text_based_extraction.py,
    candidates.py, dedupe.py, reconcile.py, and the page loop of app.py)
    and the properties of it that the specification states.

    Conventions of the embedding.
    - A Python [str] is a list of Unicode code points ([text]).
    - A Python [float] is modelled by the rational number it holds ([Q]):
      [float(s)] is the decimal value that [s] spells, [round(x, 2)] is
      the nearest hundredth (ties to even), arithmetic and comparisons
      are exact, and a division by zero raises [ZeroDivisionError] as it
      does in Python.  Binary rounding is not modelled, so a result can
      differ from CPython's where a computation lands within a rounding
      error of a threshold; no input evaluated in this file does.
    - Pixel coordinates, page numbers and ids are integers ([Z]).
    - A candidate dict is a record; a missing amount or box is [None].
    - Exceptions are values of [result]; a function that cannot raise
      returns its value directly.  Debug printing is left out.
    - What the code takes from outside this repository is a parameter:
      the Unicode character database consulted by [str] methods and [re]
      for code points above 127 ([UnicodeDB]), the OCR engine, rapidfuzz's
      [token_set_ratio], and the PuLP/CBC solver.  Python's [re] itself is
      modelled by a backtracking matcher for the operators that the
      patterns of the sources use. *)

From Stdlib Require Import ZArith NArith QArith Qabs Qround Lia Lqa List Bool.
From Stdlib Require Import Strings.String Strings.Ascii.
From stdpp Require Import base gmap list.

Local Open Scope Z_scope.

(* ===================================================================== *)
(** * Text *)
(* ===================================================================== *)

Abbreviation text := (list N).

(** Code points of an ASCII literal. *)
Fixpoint cp (s : string) : text :=
  match s with
  | EmptyString => []
  | String a s' => N_of_ascii a :: cp s'
  end.

Definition RUPEE : N := 8377%N.   (* U+20B9 *)
Definition EURO : N := 8364%N.    (* U+20AC *)
Definition POUND : N := 163%N.    (* U+00A3 *)
Definition YEN : N := 165%N.      (* U+00A5 *)

(** The Unicode character database, for code points above 127. *)
Class UnicodeDB := {
  uc_isalnum : N -> bool;   (* str.isalnum() *)
  uc_isspace : N -> bool;   (* str.isspace() *)
  uc_lower : N -> text;     (* str.lower() of the one-character string *)
  uc_fold : N -> N          (* the code point re.IGNORECASE compares, e.g.
                               U+017F (long s) is compared as "s" *)
}.

(** A database in which no code point above 127 is a letter, a digit, a
    space or cased.  It agrees with Unicode on ASCII text and on the four
    currency signs above, which is all the closed examples below use. *)
Definition caseless_db : UnicodeDB :=
  {| uc_isalnum := fun _ => false;
     uc_isspace := fun _ => false;
     uc_lower := fun c => [c];
     uc_fold := fun c => c |}.

Definition is_ascii (c : N) : bool := (c <? 128)%N.
Definition is_digit (c : N) : bool := ((48 <=? c) && (c <=? 57))%N.
Definition is_upper_ascii (c : N) : bool := ((65 <=? c) && (c <=? 90))%N.
Definition is_lower_ascii (c : N) : bool := ((97 <=? c) && (c <=? 122))%N.
Definition ascii_lower (c : N) : N := if is_upper_ascii c then (c + 32)%N else c.

(** Python's ASCII white space: TAB..CR, FS..US and the space. *)
Definition ascii_isspace (c : N) : bool :=
  (((9 <=? c) && (c <=? 13)) || ((28 <=? c) && (c <=? 32)))%N.

Section Text.
Context {db : UnicodeDB}.

Definition isspace (c : N) : bool :=
  if is_ascii c then ascii_isspace c else uc_isspace c.

(** [\w] of a str pattern: alphanumeric or underscore. *)
Definition is_word (c : N) : bool :=
  if is_ascii c
  then is_digit c || is_upper_ascii c || is_lower_ascii c || (c =? 95)%N
  else uc_isalnum c.

Definition lower_char (c : N) : text :=
  if is_ascii c then [ascii_lower c] else uc_lower c.

(** [s.lower()] *)
Definition lower (s : text) : text := flat_map lower_char s.

(** The code point compared under [re.IGNORECASE]. *)
Definition fold_case (c : N) : N :=
  if is_ascii c then ascii_lower c else uc_fold c.

Fixpoint lstrip (s : text) : text :=
  match s with
  | c :: s' => if isspace c then lstrip s' else s
  | [] => []
  end.

(** [s.strip()] *)
Definition strip (s : text) : text := rev (lstrip (rev (lstrip s))).

(** [s.split()]: maximal runs of non-space characters. *)
Fixpoint split_ws (cur : text) (s : text) : list text :=
  match s with
  | [] => match cur with [] => [] | _ => [rev cur] end
  | c :: s' =>
      if isspace c
      then match cur with [] => split_ws [] s' | _ => rev cur :: split_ws [] s' end
      else split_ws (c :: cur) s'
  end.
Definition split (s : text) : list text := split_ws [] s.

(** [sep.join(parts)] *)
Fixpoint join (sep : text) (parts : list text) : text :=
  match parts with
  | [] => []
  | [p] => p
  | p :: ps => p ++ sep ++ join sep ps
  end.

Definition text_eqb (a b : text) : bool := bool_decide (a = b).

(** [needle in hay] *)
Fixpoint is_prefix (needle hay : text) : bool :=
  match needle, hay with
  | [], _ => true
  | n :: ns, h :: hs => (n =? h)%N && is_prefix ns hs
  | _ :: _, [] => false
  end.
Fixpoint contains (needle hay : text) : bool :=
  is_prefix needle hay ||
  match hay with
  | [] => false
  | _ :: hs => contains needle hs
  end.

(* ===================================================================== *)
(** * Regular expressions, as Python's [re] matches them *)
(* ===================================================================== *)

(** The fragment of [re] syntax the sources use.  Matching is the
    backtracking search of [re]: alternatives are tried in priority
    order (greedy repetitions try one more iteration first) and the first
    complete match wins. *)
Inductive regex :=
| Chr (p : N -> bool)                 (* one character of a class *)
| Seq (r1 r2 : regex)
| Opt (r : regex)                     (* r?  *)
| Star (r : regex)                    (* r*  *)
| Rep (r : regex) (lo hi : nat)       (* r{lo,hi} *)
| WordB.                              (* \b *)

Definition Plus (r : regex) : regex := Seq r (Star r).

Definition is_word_opt (c : option N) : bool :=
  match c with Some c => is_word c | None => false end.

Section Matcher.
Context {A : Type}.

(** [rmatch r prev s k]: match [r] at a position where [prev] is the
    character before it and [s] the text from it on; [k] continues after
    the match and may reject it, which makes the matcher backtrack.  An
    iteration of [r*] that consumes nothing ends the repetition. *)
Fixpoint rmatch (r : regex) (prev : option N) (s : text)
    (k : option N -> text -> option A) {struct r} : option A :=
  match r with
  | Chr p =>
      match s with
      | c :: s' => if p c then k (Some c) s' else None
      | [] => None
      end
  | Seq r1 r2 => rmatch r1 prev s (fun prev' s' => rmatch r2 prev' s' k)
  | Opt r1 =>
      match rmatch r1 prev s k with
      | Some a => Some a
      | None => k prev s
      end
  | Star r1 =>
      (fix loop (n : nat) (prev : option N) (s : text) {struct n} : option A :=
         match n with
         | O => k prev s
         | S n' =>
             match rmatch r1 prev s
                     (fun prev' s' =>
                        if (length s' <? length s)%nat then loop n' prev' s' else None) with
             | Some a => Some a
             | None => k prev s
             end
         end) (length s) prev s
  | Rep r1 lo hi =>
      (fix loop (lo hi : nat) (prev : option N) (s : text) {struct hi} : option A :=
         match hi with
         | O => match lo with O => k prev s | S _ => None end
         | S hi' =>
             match lo with
             | S lo' => rmatch r1 prev s (fun prev' s' => loop lo' hi' prev' s')
             | O =>
                 match rmatch r1 prev s (fun prev' s' => loop O hi' prev' s') with
                 | Some a => Some a
                 | None => k prev s
                 end
             end
         end) lo hi prev s
  | WordB =>
      if xorb (is_word_opt prev) (is_word_opt (head s)) then k prev s else None
  end.

End Matcher.

(** The text left after the match of [r] at this position, if any. *)
Definition match_at (r : regex) (prev : option N) (s : text) : option text :=
  rmatch r prev s (fun _ s' => Some s').

Definition matched (s rest : text) : text := take (length s - length rest)%nat s.

(** [re.search(r, s)]: the left-most match; returns the matched text. *)
Fixpoint search_from (r : regex) (prev : option N) (s : text) : option text :=
  match match_at r prev s with
  | Some rest => Some (matched s rest)
  | None =>
      match s with
      | [] => None
      | c :: s' => search_from r (Some c) s'
      end
  end.
Definition re_search (r : regex) (s : text) : option text := search_from r None s.

(** [re.findall(r, s)] for a pattern without groups: the non-overlapping
    matches from left to right.  [skip] counts the characters of the
    current match still to step over.  (The one pattern it is used with
    matches no empty string; an empty match is recorded and the scan moves
    on by one character.) *)
Fixpoint findall_from (r : regex) (prev : option N) (s : text) (skip : nat) : list text :=
  match s with
  | [] =>
      match skip, match_at r prev [] with
      | O, Some _ => [[]]
      | _, _ => []
      end
  | c :: s' =>
      match skip with
      | S n => findall_from r (Some c) s' n
      | O =>
          match match_at r prev s with
          | Some rest =>
              let m := matched s rest in
              m :: findall_from r (Some c) s' (length m - 1)%nat
          | None => findall_from r (Some c) s' O
          end
      end
  end.
Definition re_findall (r : regex) (s : text) : list text := findall_from r None s O.

(** [re.sub(r, '', s)] for a pattern that is one character class. *)
Definition re_sub_class (p : N -> bool) (s : text) : text :=
  List.filter (fun c => negb (p c)) s.

End Text.

(* ===================================================================== *)
(** * ocr_cells.py: amounts *)
(* ===================================================================== *)

Definition Qltb (a b : Q) : bool := negb (Qle_bool b a).

Definition digits_value (ds : text) : N :=
  fold_left (fun acc d => (acc * 10 + (d - 48))%N) ds 0%N.

Fixpoint span_digits (s : text) : text * text :=
  match s with
  | c :: s' =>
      if is_digit c then let '(ds, rest) := span_digits s' in (c :: ds, rest)
      else ([], s)
  | [] => ([], [])
  end.

(** [float(s)] on decimal numerals: an optional minus sign, digits and an
    optional fraction, valued exactly.  Any other string is a
    [ValueError] here; Python's further forms (exponent, infinity,
    underscores, surrounding blanks) cannot reach this call, whose
    argument is a match of the amount pattern with the commas removed. *)
Definition py_float (s : text) : option Q :=
  let '(neg, body) :=
    match s with
    | 45%N :: b => (true, b)
    | _ => (false, s)
    end in
  let '(ip, rest) := span_digits body in
  let mk (n : N) (k : nat) : option Q :=
    let q := Qred (Z.of_N n # Z.to_pos (10 ^ Z.of_nat k)) in
    Some (if neg then Qopp q else q) in
  match rest with
  | [] =>
      match ip with
      | [] => None
      | _ => Some (let q := Z.of_N (digits_value ip) # 1 in if neg then Qopp q else q)
      end
  | 46%N :: fp =>
      let '(fd, rest') := span_digits fp in
      match rest', (ip ++ fd) with
      | [], _ :: _ =>
          match fd with
          | [] => mk (digits_value ip) 0%nat
          | _ => mk (digits_value (ip ++ fd)) (length fd)
          end
      | _, _ => None
      end
  | _ => None
  end.

Section Amounts.
Context {db : UnicodeDB}.

Definition chr_is (c : N) : regex := Chr (fun x => (x =? c)%N).
Definition chr_ci (c : N) : regex := Chr (fun x => (fold_case x =? c)%N).
Definition digit : regex := Chr is_digit.

Definition mem_text (c : N) (s : text) : bool := existsb (fun x => (x =? c)%N) s.

(** [r'\bDr\b'] and [r'\bCr\b'], with [re.IGNORECASE]. *)
Definition debit_re : regex := Seq WordB (Seq (chr_ci 100) (Seq (chr_ci 114) WordB)).
Definition credit_re : regex := Seq WordB (Seq (chr_ci 99) (Seq (chr_ci 114) WordB)).

(** The class [[₹$€£¥INR USD EUR GBP JPY Rs\s]], with [re.IGNORECASE]:
    the five currency signs, the space, the letters of the currency
    codes in either case, and white space. *)
Definition currency_class (c : N) : bool :=
  mem_text c [RUPEE; 36%N; EURO; POUND; YEN; 32%N]
  || mem_text (fold_case c) (cp "inrusdeurgbpjpyrs")
  || isspace c.

(** [r'\(([0-9,\.]+)\)'] *)
Definition paren_re : regex :=
  Seq (chr_is 40)
      (Seq (Plus (Chr (fun c => is_digit c || (c =? 44)%N || (c =? 46)%N)))
           (chr_is 41)).

(** Group 1 of a match of [paren_re]: the match without its two
    parentheses. *)
Definition paren_group1 (m : text) : text := removelast (tl m).

(** [r'-?[0-9]{1,3}(?:,?[0-9]{3})*(?:\.[0-9]+)?'] *)
Definition amount_re : regex :=
  Seq (Opt (chr_is 45))
      (Seq (Rep digit 1 3)
           (Seq (Star (Seq (Opt (chr_is 44)) (Rep digit 3 3)))
                (Opt (Seq (chr_is 46) (Plus digit))))).

Definition remove_commas (s : text) : text :=
  List.filter (fun c => negb (c =? 44)%N) s.

Definition extract_amount_from_cell_text (txt : text) : option Q :=
  match txt with
  | [] => None
  | _ =>
      let is_debit := bool_decide (is_Some (re_search debit_re txt)) in
      let is_credit := bool_decide (is_Some (re_search credit_re txt)) in
      let cleaned := re_sub_class currency_class txt in
      let '(is_negative, cleaned) :=
        match re_search paren_re cleaned with
        | Some m => (true, paren_group1 m)
        | None => (false, cleaned)
        end in
      let matches := re_findall amount_re cleaned in
      match last matches with
      | None => None
      | Some amount_str =>
          let amount_str := remove_commas amount_str in
          match py_float amount_str with
          | Some amount =>
              let amount := if is_negative then Qopp (Qabs amount) else amount in
              let amount := if is_debit && Qltb 0 amount then Qopp amount else amount in
              Some amount
          | None => None
          end
      end
  end.

End Amounts.

(* ===================================================================== *)
(** * Candidates *)
(* ===================================================================== *)

(** [(x1, y1, x2, y2)] *)
Definition BBox : Type := Z * Z * Z * Z.
Definition bx1 (b : BBox) : Z := let '(x1, _, _, _) := b in x1.
Definition by1 (b : BBox) : Z := let '(_, y1, _, _) := b in y1.
Definition bx2 (b : BBox) : Z := let '(_, _, x2, _) := b in x2.
Definition by2 (b : BBox) : Z := let '(_, _, _, y2) := b in y2.

(** The candidate dict.  [merged_ids] is the key that only merged
    representatives carry. *)
Record Candidate := mkCandidate {
  id : Z;
  page : Z;
  bbox : option BBox;
  raw_cells : list text;
  desc : text;
  amount : option Q;
  conf : Q;
  merged_ids : option (list Z)
}.

Definition set_desc (v : text) (c : Candidate) : Candidate :=
  mkCandidate (id c) (page c) (bbox c) (raw_cells c) v (amount c) (conf c) (merged_ids c).
Definition set_bbox (v : option BBox) (c : Candidate) : Candidate :=
  mkCandidate (id c) (page c) v (raw_cells c) (desc c) (amount c) (conf c) (merged_ids c).
Definition set_raw_cells (v : list text) (c : Candidate) : Candidate :=
  mkCandidate (id c) (page c) (bbox c) v (desc c) (amount c) (conf c) (merged_ids c).
Definition set_conf (v : Q) (c : Candidate) : Candidate :=
  mkCandidate (id c) (page c) (bbox c) (raw_cells c) (desc c) (amount c) v (merged_ids c).
Definition set_merged_ids (v : option (list Z)) (c : Candidate) : Candidate :=
  mkCandidate (id c) (page c) (bbox c) (raw_cells c) (desc c) (amount c) (conf c) v.

(* ===================================================================== *)
(** * candidates.py: wrapped rows *)
(* ===================================================================== *)

Definition _is_wrapped_row (parent candidate : Candidate) : bool :=
  match amount candidate with
  | Some _ => false
  | None =>
      if bool_decide (desc candidate = []) || (length (desc candidate) <? 3)%nat then false
      else if negb (page parent =? page candidate) then false
      else
        match bbox parent, bbox candidate with
        | Some parent_bbox, Some candidate_bbox =>
            let parent_bottom := by2 parent_bbox in
            let candidate_top := by1 candidate_bbox in
            let vertical_gap := candidate_top - parent_bottom in
            if (vertical_gap <? -5) || (vertical_gap >? 10) then false
            else
              let parent_left := bx1 parent_bbox in
              let candidate_left := bx1 candidate_bbox in
              let horizontal_offset := Z.abs (candidate_left - parent_left) in
              if horizontal_offset >? 20 then false else true
        | _, _ => false
        end
  end.

Definition avg2 (a b : Q) : Q := ((a + b) / 2)%Q.

Definition _merge_two_candidates (parent wrapped : Candidate) : Candidate :=
  let merged := parent in
  let merged :=
    match desc wrapped with
    | [] => merged
    | _ =>
        match desc merged with
        | [] => set_desc (desc wrapped) merged
        | _ => set_desc (desc merged ++ cp " " ++ desc wrapped) merged
        end
    end in
  let merged :=
    match bbox parent, bbox wrapped with
    | Some pb, Some wb =>
        set_bbox (Some (Z.min (bx1 pb) (bx1 wb), by1 pb, Z.max (bx2 pb) (bx2 wb), by2 wb)) merged
    | _, _ => merged
    end in
  let merged := set_raw_cells (raw_cells parent ++ raw_cells wrapped) merged in
  if Qltb 0 (conf parent) && Qltb 0 (conf wrapped)
  then set_conf (avg2 (conf parent) (conf wrapped)) merged
  else merged.

(** The look-ahead [while] of [merge_wrapped_rows]: [rest] is
    [candidates[j:]]. *)
Fixpoint look_ahead (merged_candidate : Candidate) (j : nat) (rest : list Candidate)
    (skip_next : gset nat) : Candidate * gset nat :=
  match rest with
  | [] => (merged_candidate, skip_next)
  | next_candidate :: rest' =>
      if _is_wrapped_row merged_candidate next_candidate
      then look_ahead (_merge_two_candidates merged_candidate next_candidate)
                      (S j) rest' ({[ j ]} ∪ skip_next)
      else (merged_candidate, skip_next)
  end.

(** The [for i, candidate in enumerate(candidates)] loop, at index [i]
    with [cs = candidates[i:]]. *)
Fixpoint merge_loop (i : nat) (cs : list Candidate) (skip_next : gset nat)
    (merged : list Candidate) : list Candidate :=
  match cs with
  | [] => merged
  | candidate :: rest =>
      if bool_decide (i ∈ skip_next) then merge_loop (S i) rest skip_next merged
      else
        let '(merged_candidate, skip_next) := look_ahead candidate (S i) rest skip_next in
        merge_loop (S i) rest skip_next (merged ++ [merged_candidate])
  end.

Definition merge_wrapped_rows (candidates : list Candidate) : list Candidate :=
  merge_loop 0 candidates ∅ [].


Definition ex_c1 : Candidate :=
  mkCandidate 1 1 (Some (10, 10, 390, 30)) [cp "Item 1"] (cp "Item 1") (Some 100%Q) 92%Q None.
Definition ex_c2 : Candidate :=
  mkCandidate 2 1 (Some (10, 32, 390, 45)) [cp "continued"] (cp "continued") None 88%Q None.
Definition ex_c3 : Candidate :=
  mkCandidate 3 1 (Some (10, 47, 390, 60)) [cp "more text"] (cp "more text") None 40%Q None.
Definition ex_c4 : Candidate :=
  mkCandidate 4 1 (Some (10, 80, 390, 100)) [cp "Item 2"] (cp "Item 2") (Some 50%Q) 90%Q None.

(* ===================================================================== *)
(** * Errors *)
(* ===================================================================== *)

Inductive exn := ZeroDivisionError | TypeError | IndexError | ValueError.

Inductive result (A : Type) :=
| Ok (a : A)
| Raise (e : exn).
Arguments Ok {A} a.
Arguments Raise {A} e.

Definition rbind {A B : Type} (m : result A) (f : A -> result B) : result B :=
  match m with
  | Ok a => f a
  | Raise e => Raise e
  end.

#[global] Instance result_ret : MRet result := fun A a => Ok a.
#[global] Instance result_bind : MBind result := fun A B f m => rbind m f.

(* ===================================================================== *)
(** * Sorting *)
(* ===================================================================== *)

(** [sorted(l, key=key)] and [l.sort(key=key)] are stable; so is this
    insertion sort, which therefore computes the same list. *)
Section Sort.
Context {A K : Type} (key : A -> K) (leb : K -> K -> bool).

Fixpoint insert_sorted (x : A) (l : list A) : list A :=
  match l with
  | [] => [x]
  | y :: l' => if leb (key x) (key y) then x :: l else y :: insert_sorted x l'
  end.

Definition sorted_by (l : list A) : list A := foldr insert_sorted [] l.

End Sort.

(* ===================================================================== *)
(** * text_based_extraction.py *)
(* ===================================================================== *)

(** An OCR token: [{text, conf, left, top, width, height}]. *)
Record Token := mkToken {
  t_text : text;
  t_conf : Z;
  t_left : Z;
  t_top : Z;
  t_width : Z;
  t_height : Z
}.

Definition sum_Z (l : list Z) : Z := foldr Z.add 0 l.
Definition sum_Q (l : list Q) : Q := foldr Qplus 0%Q l.
Definition Q_of_nat (n : nat) : Q := inject_Z (Z.of_nat n).

(** [min(...)] and [max(...)] of a non-empty sequence. *)
Definition min_list (x : Z) (l : list Z) : Z := fold_left Z.min l x.
Definition max_list (x : Z) (l : list Z) : Z := fold_left Z.max l x.

(** The loop of [cluster_tokens_into_rows] over [sorted_tokens[1:]]. *)
Fixpoint cluster_loop (y_threshold : Z) (toks : list Token) (current_row : list Token)
    (current_y : Z) (rows : list (list Token)) : list (list Token) :=
  match toks with
  | [] =>
      match current_row with
      | [] => rows
      | _ => rows ++ [sorted_by t_left Z.leb current_row]
      end
  | token :: toks' =>
      let token_y := t_top token in
      if Z.abs (token_y - current_y) <=? y_threshold
      then cluster_loop y_threshold toks' (current_row ++ [token]) current_y rows
      else cluster_loop y_threshold toks' [token] token_y
                        (rows ++ [sorted_by t_left Z.leb current_row])
  end.

Definition cluster_tokens_into_rows (tokens : list Token) (y_threshold : Z)
    : list (list Token) :=
  match sorted_by t_top Z.leb tokens with
  | [] => []
  | t0 :: rest => cluster_loop y_threshold rest [t0] (t_top t0) []
  end.

(** An entry of [amount_candidates]. *)
Record AmountCandidate := mkAmountCandidate {
  ac_amount : Q;
  ac_conf : Z;
  ac_text : text
}.

(** What [extract_line_item_from_row] returns: a candidate dict that has
    no ['id'] and no ['page'] yet. *)
Record LineItem := mkLineItem {
  li_desc : text;
  li_amount : Q;
  li_conf : Q;
  li_bbox : BBox;
  li_raw_cells : list text
}.

Section TextBased.
Context {db : UnicodeDB}.

(** The first loop of [extract_line_item_from_row]: the description
    tokens and the amount candidates of a row, left to right. *)
Fixpoint classify_tokens (row_tokens : list Token)
    (desc_tokens : list text) (amount_candidates : list AmountCandidate)
    : list text * list AmountCandidate :=
  match row_tokens with
  | [] => (desc_tokens, amount_candidates)
  | token :: rest =>
      let txt := strip (t_text token) in
      match txt with
      | [] => classify_tokens rest desc_tokens amount_candidates
      | _ =>
          match extract_amount_from_cell_text txt with
          | Some amount =>
              classify_tokens rest desc_tokens
                (amount_candidates ++ [mkAmountCandidate amount (t_conf token) txt])
          | None =>
              classify_tokens rest (desc_tokens ++ [txt]) amount_candidates
          end
      end
  end.

(** The choice of [best_amount]. *)
Definition choose_amount (amount_candidates : list AmountCandidate) : option Q :=
  let non_zero_amounts :=
    List.filter (fun a => Qltb (1 # 100) (ac_amount a)) amount_candidates in
  match last non_zero_amounts with
  | Some a => Some (ac_amount a)
  | None => ac_amount <$> last amount_candidates
  end.

Definition extract_line_item_from_row (row_tokens : list Token) : option LineItem :=
  match row_tokens with
  | [] => None
  | t0 :: ts =>
      let '(desc_tokens, amount_candidates) := classify_tokens row_tokens [] [] in
      match amount_candidates with
      | [] => None
      | _ =>
          match choose_amount amount_candidates with
          | None => None
          | Some best_amount =>
              let avg_conf :=
                (inject_Z (sum_Z (t_conf <$> row_tokens)) / Q_of_nat (length row_tokens))%Q in
              let description := strip (join (cp " ") desc_tokens) in
              let x1 := min_list (t_left t0) (t_left <$> ts) in
              let y1 := min_list (t_top t0) (t_top <$> ts) in
              let x2 := max_list (t_left t0 + t_width t0)
                                 ((fun t => t_left t + t_width t) <$> ts) in
              let y2 := max_list (t_top t0 + t_height t0)
                                 ((fun t => t_top t + t_height t) <$> ts) in
              Some (mkLineItem description best_amount avg_conf (x1, y1, x2, y2)
                               (t_text <$> row_tokens))
          end
      end
  end.

Definition total_keywords : list text :=
  [cp "total"; cp "subtotal"; cp "grand total"; cp "amount due";
   cp "balance"; cp "net amount"; cp "sum"; cp "category total"].

(** The loop of [extract_candidates_text_based] over the rows, with the
    local [candidate_id]. *)
Fixpoint candidates_of_rows (page_no : Z) (rows : list (list Token))
    (candidate_id : Z) (candidates : list Candidate) : list Candidate :=
  match rows with
  | [] => candidates
  | row :: rows' =>
      match extract_line_item_from_row row with
      | None => candidates_of_rows page_no rows' candidate_id candidates
      | Some candidate =>
          if (length (li_desc candidate) <? 3)%nat
          then candidates_of_rows page_no rows' candidate_id candidates
          else if negb (Qeq_bool (li_amount candidate) 0)
                  && Qltb 999999999 (Qabs (li_amount candidate))
          then candidates_of_rows page_no rows' candidate_id candidates
          else
            let desc_lower := lower (li_desc candidate) in
            if existsb (fun keyword => contains keyword desc_lower) total_keywords
            then candidates_of_rows page_no rows' candidate_id candidates
            else
              candidates_of_rows page_no rows' (candidate_id + 1)
                (candidates ++
                 [mkCandidate candidate_id page_no (Some (li_bbox candidate))
                    (li_raw_cells candidate) (li_desc candidate)
                    (Some (li_amount candidate)) (li_conf candidate) None])
      end
  end.

(** [extract_candidates_text_based], on the tokens that
    [ocr_image_to_tokens] returned for the page image. *)
Definition extract_candidates_text_based (tokens : list Token) (page_no : Z)
    : list Candidate :=
  match tokens with
  | [] => []
  | _ =>
      let tokens := List.filter (fun t => 30 <=? t_conf t) tokens in
      let rows := cluster_tokens_into_rows tokens 20 in
      candidates_of_rows page_no rows 1 []
  end.

(** Step 3 of [extract_bill_data] (app.py): the pages in order, numbered
    from 1, each page's candidates appended to [all_candidates]. *)
Fixpoint extract_pages (page_no : Z) (pages : list (list Token))
    (all_candidates : list Candidate) : list Candidate :=
  match pages with
  | [] => all_candidates
  | tokens :: pages' =>
      extract_pages (page_no + 1) pages'
        (all_candidates ++ extract_candidates_text_based tokens page_no)
  end.

Definition all_candidates_of_run (pages : list (list Token)) : list Candidate :=
  extract_pages 1 pages [].

End TextBased.

Definition ex_tok (s : string) (left top : Z) : Token :=
  mkToken (cp s) 95 left top 60 20.
Definition ex_page : list Token :=
  [ex_tok "Widget" 10 100; ex_tok "250.00" 300 100].
Definition ex_row_small : list Token :=
  [ex_tok "Widget" 10 100; ex_tok "100.00" 300 100; ex_tok "0.005" 400 100].
Definition ex_row_plain : list Token :=
  [ex_tok "Widget" 10 100; ex_tok "2" 200 100; ex_tok "100.00" 300 100; ex_tok "0.00" 400 100].

(* ===================================================================== *)
(** * candidates.py: table-based assembly *)
(* ===================================================================== *)

(** What [ocr_image_to_tokens] returns. *)
Record OcrResult := mkOcrResult {
  ocr_text : text;
  ocr_tokens : list Token;
  ocr_avg_conf : Q
}.

(** An entry of [numeric_cells]. *)
Record NumericCell := mkNumericCell {
  nc_col_idx : nat;
  nc_amount : Q;
  nc_text : text
}.

Section TableBased.
Context {db : UnicodeDB}.

(** The table image is given by its height and width (three channels),
    and the OCR engine by its answer on the crop
    [table_roi_bgr[row_start:row_end, col_start:col_end]]; [None] stands
    for an exception raised by the engine. *)
Variable shape : Z * Z.
Variable ocr_image_to_tokens : Z * Z -> Z * Z -> option OcrResult.

(** The loop over the columns of one row. *)
Fixpoint cells_loop (row : Z * Z) (col_idx : nat) (cols : list (Z * Z))
    (cell_texts : list text) (cell_confidences : list Q)
    (numeric_cells : list NumericCell)
    : list text * list Q * list NumericCell :=
  match cols with
  | [] => (cell_texts, cell_confidences, numeric_cells)
  | (col_start, col_end) :: cols' =>
      let continue_with ts cfs ncs := cells_loop row (S col_idx) cols' ts cfs ncs in
      if (col_start <? 0) || (col_end >? snd shape)
      then continue_with cell_texts cell_confidences numeric_cells
      else if col_end - col_start <? 5
      then continue_with cell_texts cell_confidences numeric_cells
      else if (snd row - fst row) * (col_end - col_start) * 3 =? 0
      then continue_with (cell_texts ++ [[]]) cell_confidences numeric_cells
      else
        match ocr_image_to_tokens row (col_start, col_end) with
        | Some ocr_result =>
            let cell_text := strip (ocr_text ocr_result) in
            let cell_conf := ocr_avg_conf ocr_result in
            match extract_amount_from_cell_text cell_text with
            | Some amount =>
                continue_with (cell_texts ++ [cell_text])
                  (cell_confidences ++ [cell_conf])
                  (numeric_cells ++ [mkNumericCell col_idx amount cell_text])
            | None =>
                continue_with (cell_texts ++ [cell_text])
                  (cell_confidences ++ [cell_conf]) numeric_cells
            end
        | None => continue_with (cell_texts ++ [[]]) cell_confidences numeric_cells
        end
  end.

(** [max(numeric_cells, key=lambda x: x['col_idx'])]: the first entry of
    greatest key. *)
Definition rightmost_numeric (numeric_cells : list NumericCell) : option NumericCell :=
  match numeric_cells with
  | [] => None
  | nc :: ncs =>
      Some (fold_left (fun best x =>
                         if (nc_col_idx best <? nc_col_idx x)%nat then x else best)
                      ncs nc)
  end.

(** The description loop: the texts before the first numeric column. *)
Fixpoint desc_parts_loop (col_idx : nat) (cell_texts : list text)
    (numeric_cells : list NumericCell) (desc_parts : list text) : list text :=
  match cell_texts with
  | [] => desc_parts
  | txt :: rest =>
      if existsb (fun nc => (nc_col_idx nc =? col_idx)%nat) numeric_cells
      then desc_parts
      else
        match txt with
        | [] => desc_parts_loop (S col_idx) rest numeric_cells desc_parts
        | _ => desc_parts_loop (S col_idx) rest numeric_cells (desc_parts ++ [txt])
        end
  end.

(** The loop over the rows.  [counter] is the module's global
    [_candidate_id_counter]; [cols] is the local that the first valid row
    replaces by the whole width when it is empty. *)
Fixpoint rows_loop (page_no : Z) (rows : list (Z * Z)) (cols : list (Z * Z))
    (counter : Z) (candidates : list Candidate) : list Candidate * Z :=
  match rows with
  | [] => (candidates, counter)
  | (row_start, row_end) :: rows' =>
      if (row_start <? 0) || (row_end >? fst shape)
      then rows_loop page_no rows' cols counter candidates
      else if row_end - row_start <? 5
      then rows_loop page_no rows' cols counter candidates
      else
        let counter := counter + 1 in
        let cand_id := counter in
        let cols := match cols with [] => [(0, snd shape)] | _ => cols end in
        let '(cell_texts, cell_confidences, numeric_cells) :=
          cells_loop (row_start, row_end) 0 cols [] [] [] in
        let cand_conf :=
          match cell_confidences with
          | [] => 0%Q
          | _ => (sum_Q cell_confidences / Q_of_nat (length cell_confidences))%Q
          end in
        let cand_amount := nc_amount <$> rightmost_numeric numeric_cells in
        let cand_desc :=
          strip (join (cp " ") (desc_parts_loop 0 cell_texts numeric_cells [])) in
        let col_start := from_option fst 0 (head cols) in
        let col_end := from_option snd (snd shape) (last cols) in
        let candidate :=
          mkCandidate cand_id page_no (Some (col_start, row_start, col_end, row_end))
                      cell_texts cand_desc cand_amount cand_conf None in
        if negb (bool_decide (cand_desc = [])) || bool_decide (is_Some cand_amount)
        then rows_loop page_no rows' cols counter (candidates ++ [candidate])
        else rows_loop page_no rows' cols counter candidates
  end.

(** [assemble_candidates_from_table], threading the global counter. *)
Definition assemble_candidates_from_table (rows cols : list (Z * Z)) (page_no : Z)
    (counter : Z) : result (list Candidate) * Z :=
  if fst shape * snd shape * 3 =? 0 then (Raise ValueError, counter)
  else
    match rows with
    | [] => (Ok [], counter)
    | _ =>
        let '(candidates, counter) := rows_loop page_no rows cols counter [] in
        (Ok candidates, counter)
    end.

End TableBased.
(* ===================================================================== *)
(** * dedupe.py *)
(* ===================================================================== *)

(** [round(x, 2)]: to the nearest hundredth, ties to the even one. *)
Definition py_round2 (x : Q) : Q :=
  let scaled := (x * 100)%Q in
  let n := Qfloor scaled in
  let r :=
    match (scaled - inject_Z n ?= 1 # 2)%Q with
    | Lt => n
    | Gt => n + 1
    | Eq => if Z.even n then n else n + 1
    end in
  Qred (r # 100).

(** [max(a, b)] *)
Definition py_max (a b : Q) : Q := if Qltb a b then b else a.

Fixpoint rmapM {A B : Type} (f : A -> result B) (l : list A) : result (list B) :=
  match l with
  | [] => Ok []
  | x :: l' => y ← f x; ys ← rmapM f l'; Ok (y :: ys)
  end.

Section Dedupe.
Context {db : UnicodeDB}.

Definition INVOICE_STOPWORDS : list text :=
  [cp "qty"; cp "nos"; cp "no"; cp "pcs"; cp "pc"; cp "each"; cp "pack"; cp "pkt";
   cp "box"; cp "unit"; cp "units"; cp "item"; cp "items"; cp "ea"; cp "per";
   cp "total"; cp "amt"; cp "amount"; cp "rate"; cp "price"; cp "value";
   cp "description"; cp "desc"].

(** [re.sub(r'\s+', ' ', s)] *)
Fixpoint collapse_ws (in_run : bool) (s : text) : text :=
  match s with
  | [] => []
  | c :: s' =>
      if isspace c
      then if in_run then collapse_ws true s' else 32%N :: collapse_ws true s'
      else c :: collapse_ws false s'
  end.

Definition canonicalize_description (txt : text) : text :=
  match txt with
  | [] => []
  | _ =>
      let txt := lower txt in
      (* re.sub(r'[^\w\s]', ' ', text) *)
      let txt := (fun c => if is_word c || isspace c then c else 32%N) <$> txt in
      let tokens := split txt in
      let filtered_tokens :=
        List.filter (fun t => negb (existsb (text_eqb t) INVOICE_STOPWORDS)) tokens in
      let result := join (cp " ") filtered_tokens in
      let result := collapse_ws false result in
      strip result
  end.

(** rapidfuzz's [fuzz.token_set_ratio], a score from 0 to 100. *)
Variable token_set_ratio : text -> text -> Q.

(** [bbox[1] if len(bbox) >= 2 else 0], for the value under ['bbox']. *)
Definition y_of (c : Candidate) : result Z :=
  match bbox c with
  | Some b => Ok (by1 b)
  | None => Raise TypeError
  end.

(** The body of the inner loop of [deduplicate_candidates] for an
    unprocessed [other]: whether [j] joins the group of [candidate]. *)
Definition joins_group (ratio_thresh : Q) (candidate other : Candidate) : result bool :=
  let ratio :=
    token_set_ratio (canonicalize_description (desc candidate))
                    (canonicalize_description (desc other)) in
  if Qle_bool ratio_thresh ratio then
    match amount candidate, amount other with
    | Some candidate_amt, Some other_amt =>
        let m := py_max candidate_amt other_amt in
        if Qeq_bool m 0 then Raise ZeroDivisionError
        else
          let diff_pct := (Qabs (candidate_amt - other_amt) / m * 100)%Q in
          if Qltb 5 diff_pct then Ok false
          else if Qltb (Qabs (py_round2 candidate_amt - py_round2 other_amt)) (1 # 100)
          then
            if page candidate =? page other
            then
              y1 ← y_of candidate;
              y2 ← y_of other;
              Ok (Z.abs (y1 - y2) <? 50)
            else Ok true
          else Ok false
    | None, None => Ok true
    | _, _ => Ok false
    end
  else Ok false.

(** [for j in range(i + 1, len(candidates))], with [others = candidates[j:]]. *)
Fixpoint scan_others (ratio_thresh : Q) (candidate : Candidate) (j : nat)
    (others : list Candidate) (group : list nat) (processed : gset nat)
    : result (list nat * gset nat) :=
  match others with
  | [] => Ok (group, processed)
  | other :: rest =>
      if bool_decide (j ∈ processed)
      then scan_others ratio_thresh candidate (S j) rest group processed
      else
        b ← joins_group ratio_thresh candidate other;
        if b : bool
        then scan_others ratio_thresh candidate (S j) rest (group ++ [j]) ({[ j ]} ∪ processed)
        else scan_others ratio_thresh candidate (S j) rest group processed
  end.

(** [for i, candidate in enumerate(candidates)], with [cs = candidates[i:]]. *)
Fixpoint group_loop (ratio_thresh : Q) (i : nat) (cs : list Candidate)
    (processed : gset nat) (groups : list (list nat)) : result (list (list nat)) :=
  match cs with
  | [] => Ok groups
  | candidate :: rest =>
      if bool_decide (i ∈ processed)
      then group_loop ratio_thresh (S i) rest processed groups
      else
        '(group, processed) ← scan_others ratio_thresh candidate (S i) rest [i] ({[ i ]} ∪ processed);
        group_loop ratio_thresh (S i) rest processed (groups ++ [group])
  end.

Definition build_groups (candidates : list Candidate) (ratio_thresh : Q)
    : result (list (list nat)) :=
  group_loop ratio_thresh 0 candidates ∅ [].

Definition at_index (candidates : list Candidate) (idx : nat) : result Candidate :=
  match candidates !! idx with
  | Some c => Ok c
  | None => Raise IndexError
  end.

(** [max(group_candidates, key=lambda c: c.get('conf', 0))] *)
Definition max_conf (c0 : Candidate) (cs : list Candidate) : Candidate :=
  fold_left (fun best c => if Qltb (conf best) (conf c) then c else best) cs c0.

(** One iteration of the loop that fills [deduped]. *)
Definition resolve_group (candidates : list Candidate) (group : list nat)
    : result Candidate :=
  match group with
  | [idx] => at_index candidates idx
  | _ =>
      group_candidates ← rmapM (at_index candidates) group;
      match group_candidates with
      | [] => Raise ValueError
      | c0 :: cs =>
          let representative := max_conf c0 cs in
          let merged := set_merged_ids (Some (id <$> group_candidates)) representative in
          let confs := conf <$> group_candidates in
          Ok (set_conf (sum_Q confs / Q_of_nat (length confs))%Q merged)
      end
  end.

Definition lex_leb (a b : Z * Z) : bool :=
  (fst a <? fst b) || ((fst a =? fst b) && (snd a <=? snd b)).

Definition deduplicate_candidates (candidates : list Candidate) (ratio_thresh : Q)
    : result (list Candidate) :=
  match candidates with
  | [] => Ok []
  | _ =>
      groups ← build_groups candidates ratio_thresh;
      deduped ← rmapM (resolve_group candidates) groups;
      if existsb (fun c => bool_decide (bbox c = None)) deduped
      then Raise TypeError
      else Ok (sorted_by (fun c => (page c, from_option by1 0 (bbox c))) lex_leb deduped)
  end.

End Dedupe.

(** A stand-in for rapidfuzz on descriptions that are equal or unrelated:
    identical non-empty strings score 100, as they do in rapidfuzz, and
    any other pair scores 0. *)
Definition exact_ratio (a b : text) : Q :=
  match a with
  | [] => 0%Q
  | _ => if text_eqb a b then 100%Q else 0%Q
  end.

Definition ex_z1 : Candidate :=
  mkCandidate 1 1 (Some (10, 10, 200, 30)) [] (cp "Widget") (Some 0%Q) 92%Q None.
Definition ex_z2 : Candidate :=
  mkCandidate 2 1 (Some (10, 50, 200, 70)) [] (cp "Widget") (Some 0%Q) 88%Q None.

Definition ex_d3 : Candidate :=
  mkCandidate 1 1 (Some (10, 10, 200, 30)) [] (cp "Widget Type A") (Some (1234.5)%Q) 92%Q None.
Definition ex_d4 : Candidate :=
  mkCandidate 4 2 (Some (10, 10, 200, 30)) [] (cp "Widget Type A") (Some (1234.5)%Q) 95%Q None.
(* ===================================================================== *)
(** * reconcile.py *)
(* ===================================================================== *)

(** ** The linear program handed to PuLP *)

(** The variables: a binary [x_<id>] per candidate id, and the two
    continuous parts, bounded below by 0, of the deviation. *)
Inductive LpVar :=
| x_var (cand_id : Z)
| z_plus
| z_minus.

#[global] Instance LpVar_eq_dec : EqDecision LpVar.
Proof. solve_decision. Defined.

(** An affine expression: its terms and its constant. *)
Definition LinExpr : Type := list (Q * LpVar) * Q.

Inductive Sense := LpLE | LpEQ.

(** [lhs <= rhs] or [lhs == rhs] (the names of the constraints are not
    modelled). *)
Record LpConstraint := mkConstraint {
  con_lhs : LinExpr;
  con_sense : Sense;
  con_rhs : LinExpr
}.

Record LpProblem := mkProblem {
  objective : LinExpr;
  constraints : list LpConstraint
}.

(** [pulp.LpStatus] *)
Inductive LpStatus := NotSolved | Optimal | Infeasible | Unbounded | Undefined.

(** [varValue], per variable, after [prob.solve]. *)
Definition Valuation : Type := LpVar -> option Q.

Definition value_of (v : Valuation) (x : LpVar) : Q := default 0%Q (v x).

Definition eval (v : Valuation) (e : LinExpr) : Q :=
  (sum_Q ((fun t => fst t * value_of v (snd t)) <$> fst e) + snd e)%Q.

Definition holds (v : Valuation) (c : LpConstraint) : Prop :=
  match con_sense c with
  | LpLE => (eval v (con_lhs c) <= eval v (con_rhs c))%Q
  | LpEQ => (eval v (con_lhs c) == eval v (con_rhs c))%Q
  end.

Definition in_bounds (v : Valuation) (x : LpVar) : Prop :=
  match x with
  | x_var _ => (value_of v x == 0 \/ value_of v x == 1)%Q
  | _ => (0 <= value_of v x)%Q
  end.

(** The valuation satisfies the program: every variable within its
    category and bounds, every constraint true. *)
Definition lp_feasible (p : LpProblem) (v : Valuation) : Prop :=
  (forall x, in_bounds v x) /\ Forall (holds v) (constraints p).

(** What is assumed of [prob.solve]: an answer ['Optimal'] comes with a
    valuation that satisfies the program. *)
Definition solver_sound (solve : LpProblem -> LpStatus * Valuation) : Prop :=
  forall p v, solve p = (Optimal, v) -> lp_feasible p v.

(** ** The reconciler *)

Inductive Status := ok | no_valid_amounts | infeasible.

Record ReconcileResult := mkResult {
  selected_ids : list Z;
  selected_total : Q;
  deviation : Q;
  status : Status
}.

Definition lin_var (x : LpVar) : Q * LpVar := (1%Q, x).

Section Reconcile.

(** [prob.solve(pulp.PULP_CBC_CMD(msg=False))] *)
Variable solve : LpProblem -> LpStatus * Valuation.

(** The dict [x_vars]. *)
Definition make_x_vars (candidates : list Candidate) : gmap Z LpVar :=
  fold_left (fun x_vars candidate => <[ id candidate := x_var (id candidate) ]> x_vars)
            candidates ∅.

(** [x_vars[cand_id]] of a key that is present. *)
Definition x_at (x_vars : gmap Z LpVar) (cand_id : Z) : LpVar :=
  default (x_var cand_id) (x_vars !! cand_id).

(** The constraints of the duplicate groups. *)
Definition group_constraints (x_vars : gmap Z LpVar) (duplicate_groups : list (list Z))
    : list LpConstraint :=
  flat_map
    (fun group_ids =>
       let group_vars := omap (fun cand_id => x_vars !! cand_id) group_ids in
       match group_vars with
       | [] => []
       | _ => [mkConstraint (lin_var <$> group_vars, 0%Q) LpLE ([], 1%Q)]
       end)
    duplicate_groups.

(** The loop that collects the selected candidates. *)
Fixpoint collect_selected (x_vars : gmap Z LpVar) (v : Valuation)
    (candidates : list Candidate) (selected_ids : list Z) (selected_total : Q)
    : list Z * Q :=
  match candidates with
  | [] => (selected_ids, selected_total)
  | candidate :: rest =>
      let cand_id := id candidate in
      let chosen :=
        match v (x_at x_vars cand_id) with
        | Some val => negb (Qeq_bool val 0) && Qltb (1 # 2) val
        | None => false
        end in
      if chosen
      then collect_selected x_vars v rest (selected_ids ++ [cand_id])
             (selected_total + default 0%Q (amount candidate))%Q
      else collect_selected x_vars v rest selected_ids selected_total
  end.

(** The program that [ilp_reconcile] builds for the candidates that have
    an amount: the objective, the two constraints of the target when
    there is one, and the constraints of the duplicate groups. *)
Definition reconcile_problem (candidates : list Candidate) (reported_total : option Q)
    (duplicate_groups : option (list (list Z))) (tolerance : Q) : LpProblem :=
  let x_vars := make_x_vars candidates in
  let objective_terms :=
    (fun c => (conf c, x_at x_vars (id c))) <$> candidates in
  let '(objective_terms, total_constraints) :=
    match reported_total with
    | None => (objective_terms, [])
    | Some target =>
        let penalty := 10%Q in
        let selected_total_expr :=
          (fun c => (default 0%Q (amount c), x_at x_vars (id c))) <$> candidates in
        (objective_terms ++ [((- penalty)%Q, z_plus); ((- penalty)%Q, z_minus)],
         [mkConstraint (selected_total_expr, (- target)%Q) LpEQ
                       ([(1%Q, z_plus); ((- 1)%Q, z_minus)], 0%Q);
          mkConstraint ([(1%Q, z_plus); (1%Q, z_minus)], 0%Q) LpLE
                       ([], tolerance)])
    end in
  let dup_constraints :=
    match duplicate_groups with
    | Some (g :: gs) => group_constraints x_vars (g :: gs)
    | _ => []
    end in
  mkProblem (objective_terms, 0%Q) (total_constraints ++ dup_constraints).

(** [0.0 if reported_total is None else abs(reported_total)] *)
Definition abs_target (reported_total : option Q) : Q :=
  match reported_total with
  | None => 0%Q
  | Some t => Qabs t
  end.

Definition ilp_reconcile (candidates : list Candidate) (reported_total : option Q)
    (duplicate_groups : option (list (list Z))) (tolerance : Q) : ReconcileResult :=
  match candidates with
  | [] => mkResult [] 0%Q 0%Q ok
  | _ =>
      let valid_candidates :=
        List.filter (fun c => bool_decide (is_Some (amount c))) candidates in
      match valid_candidates with
      | [] => mkResult [] 0%Q (abs_target reported_total) no_valid_amounts
      | _ =>
          let candidates := valid_candidates in
          let x_vars := make_x_vars candidates in
          let prob := reconcile_problem candidates reported_total duplicate_groups tolerance in
          let '(lp_status, v) := solve prob in
          match lp_status with
          | Optimal =>
              let '(selected_ids, selected_total) :=
                collect_selected x_vars v candidates [] 0%Q in
              let deviation :=
                match reported_total with
                | None => 0%Q
                | Some target => Qabs (selected_total - target)
                end in
              mkResult selected_ids (py_round2 selected_total) (py_round2 deviation) ok
          | _ => mkResult [] 0%Q (abs_target reported_total) infeasible
          end
      end
  end.

End Reconcile.

(** ** Duplicate groups *)

Section DuplicateGroups.
Context {db : UnicodeDB}.

(** The key [(desc, amount_rounded)] of a candidate that has an amount. *)
Definition group_key (candidate : Candidate) : option (text * Q) :=
  let d := lower (strip (desc candidate)) in
  match amount candidate with
  | None => None
  | Some a => Some (d, py_round2 a)
  end.

Definition key_eqb (k1 k2 : text * Q) : bool :=
  text_eqb (fst k1) (fst k2) && Qeq_bool (snd k1) (snd k2).

(** [key_to_ids[key].append(cand_id)], creating the entry at the end of
    the dict when the key is new. *)
Fixpoint append_id (key : text * Q) (cand_id : Z) (key_to_ids : list (text * Q * list Z))
    : list (text * Q * list Z) :=
  match key_to_ids with
  | [] => [(key, [cand_id])]
  | (k, ids) :: rest =>
      if key_eqb k key then (k, ids ++ [cand_id]) :: rest
      else (k, ids) :: append_id key cand_id rest
  end.

Fixpoint fill_key_to_ids (candidates : list Candidate)
    (key_to_ids : list (text * Q * list Z)) : list (text * Q * list Z) :=
  match candidates with
  | [] => key_to_ids
  | candidate :: rest =>
      match group_key candidate with
      | None => fill_key_to_ids rest key_to_ids
      | Some key => fill_key_to_ids rest (append_id key (id candidate) key_to_ids)
      end
  end.

Definition make_duplicate_groups_from_candidates (candidates : list Candidate)
    : list (list Z) :=
  match candidates with
  | [] => []
  | _ =>
      let key_to_ids := fill_key_to_ids candidates [] in
      snd <$> List.filter (fun e => (1 <? length (snd e))%nat) key_to_ids
  end.

End DuplicateGroups.

Definition ex_g1 : Candidate :=
  mkCandidate 1 1 (Some (10, 10, 200, 30)) [] (cp "Item A") (Some 100%Q) 92%Q None.
Definition ex_g2 : Candidate :=
  mkCandidate 2 1 (Some (10, 50, 200, 70)) [] (cp "Item A") (Some 100%Q) 88%Q None.
Definition ex_g3 : Candidate :=
  mkCandidate 3 1 (Some (10, 90, 200, 110)) [] (cp "Item B") (Some 200%Q) 90%Q None.

Definition ex_g5 : Candidate :=
  mkCandidate 5 1 (Some (10, 170, 200, 190)) [] (cp "Item A") None 90%Q None.
(* ===================================================================== *)
(** * A reference solver *)
(* ===================================================================== *)

(** An exhaustive solver for small programs, used to run the reconciler
    in the examples: it tries every 0/1 choice of the binary variables,
    with the deviation parts set from the residual of each equality, keeps
    the valuations that satisfy the program and returns the first of
    greatest objective. *)

Definition expr_vars (e : LinExpr) : list LpVar := snd <$> fst e.

Definition problem_vars (p : LpProblem) : list LpVar :=
  expr_vars (objective p)
  ++ flat_map (fun c => expr_vars (con_lhs c) ++ expr_vars (con_rhs c)) (constraints p).

Definition binary_ids (p : LpProblem) : list Z :=
  remove_dups (omap (fun x => match x with x_var i => Some i | _ => None end)
                    (problem_vars p)).

Fixpoint sublists (l : list Z) : list (list Z) :=
  match l with
  | [] => [[]]
  | x :: l' => let r := sublists l' in (cons x <$> r) ++ r
  end.

Definition valuation_of (chosen : list Z) (zp zm : Q) : Valuation :=
  fun x =>
    match x with
    | x_var i => Some (if bool_decide (i ∈ chosen) then 1%Q else 0%Q)
    | z_plus => Some zp
    | z_minus => Some zm
    end.

Definition holdsb (v : Valuation) (c : LpConstraint) : bool :=
  match con_sense c with
  | LpLE => Qle_bool (eval v (con_lhs c)) (eval v (con_rhs c))
  | LpEQ => Qeq_bool (eval v (con_lhs c)) (eval v (con_rhs c))
  end.

(** The deviation parts to try for a choice: none, and the positive and
    negative parts of the residual of each equality. *)
Definition deviation_guesses (p : LpProblem) (chosen : list Z) : list (Q * Q) :=
  let v0 := valuation_of chosen 0%Q 0%Q in
  (0%Q, 0%Q) ::
  ((fun c =>
      let d := (eval v0 (con_lhs c) - eval v0 (con_rhs c))%Q in
      if Qltb 0 d then (d, 0%Q) else (0%Q, (- d)%Q))
   <$> List.filter (fun c => match con_sense c with LpEQ => true | LpLE => false end)
                   (constraints p)).

Definition feasible_points (p : LpProblem) : list (list Z * Q * Q) :=
  flat_map
    (fun chosen =>
       omap (fun z : Q * Q =>
               let v := valuation_of chosen (fst z) (snd z) in
               if Qle_bool 0 (fst z) && Qle_bool 0 (snd z)
                  && forallb (holdsb v) (constraints p)
               then Some (chosen, fst z, snd z) else None)
            (deviation_guesses p chosen))
    (sublists (binary_ids p)).

Definition point_valuation (pt : list Z * Q * Q) : Valuation :=
  valuation_of pt.1.1 pt.1.2 pt.2.

Definition best_point (p : LpProblem) (pts : list (list Z * Q * Q))
    : option (list Z * Q * Q) :=
  match pts with
  | [] => None
  | pt :: pts' =>
      Some (fold_left
              (fun best x =>
                 if Qltb (eval (point_valuation best) (objective p))
                         (eval (point_valuation x) (objective p))
                 then x else best)
              pts' pt)
  end.

Definition exhaustive_solve (p : LpProblem) : LpStatus * Valuation :=
  match best_point p (feasible_points p) with
  | Some pt => (Optimal, point_valuation pt)
  | None => (Infeasible, fun _ => None)
  end.

Definition ex_r1 : Candidate :=
  mkCandidate 1 1 (Some (10, 10, 200, 30)) [] (cp "Item A") (Some 100%Q) 95%Q None.
Definition ex_r2 : Candidate :=
  mkCandidate 2 1 (Some (10, 50, 200, 70)) [] (cp "Widget X") (Some 200%Q) 85%Q None.
Definition ex_r3 : Candidate :=
  mkCandidate 3 1 (Some (10, 90, 200, 110)) [] (cp "Widget X") (Some 200%Q) 92%Q None.
Definition ex_r4 : Candidate :=
  mkCandidate 4 1 (Some (10, 130, 200, 150)) [] (cp "Item D") (Some 50%Q) 70%Q None.

(* ===================================================================== *)
(** * The statements of the specification *)
(* ===================================================================== *)

Definition Qmean (l : list Q) : Q := (sum_Q l / Q_of_nat (length l))%Q.

Section Statements.
Context {db : UnicodeDB}.

(** ** Text-based rows *)

(** The value of a token that parses as an amount. *)
Definition token_amount (t : Token) : option Q :=
  extract_amount_from_cell_text (strip (t_text t)).

(** The values of the numeric tokens of a row, left to right. *)
Definition row_amounts (row : list Token) : list Q := omap token_amount row.

(** The right-most value that satisfies [keep], else the last value. *)
Definition rightmost (keep : Q -> bool) (amounts : list Q) : option Q :=
  match last (List.filter keep amounts) with
  | Some a => Some a
  | None => last amounts
  end.

Definition nonzero (a : Q) : bool := negb (Qeq_bool a 0).
Definition above_cent (a : Q) : bool := Qltb (1 # 100) (Qabs a).

Definition amount_is (item : LineItem) (expected : option Q) : Prop :=
  exists a, expected = Some a /\ (li_amount item == a)%Q.

(** The rule of the specification: the right-most non-zero value, else
    the last one. *)
Definition rightmost_nonzero_rule (row : list Token) : Prop :=
  row_amounts row <> [] ->
  exists item, extract_line_item_from_row row = Some item
               /\ amount_is item (rightmost nonzero (row_amounts row)).

End Statements.

Definition ex_row_cent : list Token :=
  [ex_tok "Widget" 10 100; ex_tok "100.00" 300 100; ex_tok "0.01" 400 100].

(** ** Wrapped rows *)

(** The conditions under which [b] is a wrapped continuation of [a]. *)
Definition wrap_eligible (a b : Candidate) : Prop :=
  amount b = None
  /\ (3 <= length (desc b))%nat
  /\ page a = page b
  /\ exists pa pb, bbox a = Some pa /\ bbox b = Some pb
       /\ -5 <= by1 pb - by2 pa <= 10
       /\ Z.abs (bx1 pb - bx1 pa) <= 20.

(** The two-way average that one merge applies to the running confidence. *)
Definition conf_step (acc w : Q) : Q :=
  if Qltb 0 acc && Qltb 0 w then avg2 acc w else acc.

(** The rule of the specification: a parent and the rows it absorbs end
    with the arithmetic mean of all their confidences. *)
Definition chain_mean_rule (p : Candidate) (ws : list Candidate) : Prop :=
  forall m, merge_wrapped_rows (p :: ws) = [m] ->
            (conf m == Qmean (conf <$> p :: ws))%Q.

Definition ex_c12 : Candidate :=
  Eval vm_compute in default ex_c1 (head (merge_wrapped_rows [ex_c1; ex_c2])).

(** ** Candidate ids *)

(** Strictly increasing, in list order. *)
Inductive increasing : list Z -> Prop :=
| increasing_nil : increasing []
| increasing_cons x l : Forall (fun y => x < y) l -> increasing l -> increasing (x :: l).

(** ** Duplicate groups *)

#[global] Instance Q_eq_dec : EqDecision Q.
Proof. solve_decision. Defined.

Section GroupStatements.
Context {db : UnicodeDB}.





(** The entry of a key in the dict. *)
Fixpoint get (k : text * Q) (d : list (text * Q * list Z)) : option (list Z) :=
  match d with
  | [] => None
  | (k', ids) :: d' => if decide (k' = k) then Some ids else get k d'
  end.



End GroupStatements.

(** ** De-duplication *)

Section DedupeStatements.
Context {db : UnicodeDB}.
Variable token_set_ratio : text -> text -> Q.

Definition similar (ratio_thresh : Q) (a b : Candidate) : Prop :=
  (ratio_thresh <= token_set_ratio (canonicalize_description (desc a))
                                   (canonicalize_description (desc b)))%Q.








End DedupeStatements.

(* ===================================================================== *)
(** * Tactics *)
(* ===================================================================== *)

(** Evaluation that does not depend on the Unicode database: compute,
    then split on whatever the database was asked. *)
Ltac split_stuck :=
  repeat (reflexivity ||
          match goal with
          | |- context [match ?f ?x with _ => _ end] => destruct (f x)
          | |- context [if ?f ?x then _ else _] => destruct (f x)
          | |- context [match ?p with xH => _ | _ => _ end] => is_var p; destruct p
          end).

Ltac eval_any_db db :=
  destruct db as [db_isalnum db_isspace db_lower db_fold];
  vm_compute; split_stuck.

(* ===================================================================== *)
(** * ocr_cells.py: the rest *)
(* ===================================================================== *)

Section OcrCells.
Context {db : UnicodeDB}.

(** The token loop of [ocr_image_to_tokens] over the boxes that Tesseract
    returned ([ocr_data], one [Token] per index): boxes whose stripped
    text is empty or whose confidence is negative are skipped. *)
Fixpoint tokens_loop (ocr_data : list Token) (tokens : list Token) (confidences : list Z)
    : list Token * list Z :=
  match ocr_data with
  | [] => (tokens, confidences)
  | box :: rest =>
      let txt := strip (t_text box) in
      let cnf := t_conf box in
      if bool_decide (txt = []) || (cnf <? 0)
      then tokens_loop rest tokens confidences
      else
        tokens_loop rest
          (tokens ++ [mkToken txt cnf (t_left box) (t_top box) (t_width box) (t_height box)])
          (confidences ++ [cnf])
  end.

(** [ocr_image_to_tokens], from the boxes and the full text that the
    engine returned for the image. *)
Definition ocr_result_of (full_text : text) (ocr_data : list Token) : OcrResult :=
  let '(tokens, confidences) := tokens_loop ocr_data [] [] in
  let avg_conf :=
    match confidences with
    | [] => 0%Q
    | _ => (inject_Z (sum_Z confidences) / Q_of_nat (length confidences))%Q
    end in
  mkOcrResult (strip full_text) tokens avg_conf.

(** The loop of [extract_best_numeric_in_row]. *)
Fixpoint best_numeric_loop (tokens : list Token) (last_amount : option Q) : option Q :=
  match tokens with
  | [] => last_amount
  | token :: rest =>
      match extract_amount_from_cell_text (t_text token) with
      | Some amount => best_numeric_loop rest (Some amount)
      | None => best_numeric_loop rest last_amount
      end
  end.

Definition extract_best_numeric_in_row (tokens : list Token) : option Q :=
  match tokens with
  | [] => None
  | _ => best_numeric_loop tokens None
  end.

End OcrCells.

(* ===================================================================== *)
(** * text_based_extraction.py: the reported total *)
(* ===================================================================== *)

Section ReportedTotal.
Context {db : UnicodeDB}.

Definition reported_total_keywords : list text :=
  [cp "total"; cp "grand total"; cp "amount due"; cp "net amount";
   cp "balance due"; cp "final amount"; cp "invoice total"].

(** [for j in range(i, min(i + 5, len(tokens)))], on [tokens[i:]] with
    [n] iterations left. *)
Fixpoint nearby_amount (n : nat) (tokens : list Token) : option Q :=
  match n, tokens with
  | S n', token :: rest =>
      match extract_amount_from_cell_text (t_text token) with
      | Some amount =>
          if Qltb 0 amount then Some amount else nearby_amount n' rest
      | None => nearby_amount n' rest
      end
  | _, _ => None
  end.

Definition has_total_keyword (token : Token) : bool :=
  let text_lower := strip (lower (t_text token)) in
  existsb (fun kw => contains kw text_lower) reported_total_keywords.

(** [for i, token in enumerate(tokens)], on [tokens[i:]]. *)
Fixpoint reported_total_loop (tokens : list Token) : option Q :=
  match tokens with
  | [] => None
  | token :: rest =>
      if has_total_keyword token
      then
        match nearby_amount 5 tokens with
        | Some amount => Some amount
        | None => reported_total_loop rest
        end
      else reported_total_loop rest
  end.

(** [extract_reported_total_text_based], on the tokens of the page. *)
Definition extract_reported_total_text_based (tokens : list Token) : option Q :=
  match tokens with
  | [] => None
  | _ => reported_total_loop tokens
  end.

End ReportedTotal.

(* ===================================================================== *)
(** * table_detect.py: segments of a projection *)
(* ===================================================================== *)

(** The loop of [_find_segments_from_projection] at index [i], over
    [above_threshold[i:]]; it returns the segments and the two loop
    variables [in_segment] and [start]. *)
Fixpoint segments_loop (above_threshold : list bool) (i : Z) (in_segment : bool)
    (start : Z) (min_width : Z) (segments : list (Z * Z)) : list (Z * Z) * bool * Z :=
  match above_threshold with
  | [] => (segments, in_segment, start)
  | above :: rest =>
      if above && negb in_segment
      then segments_loop rest (i + 1) true i min_width segments
      else if negb above && in_segment
      then
        let end_ := i in
        let segments :=
          if min_width <=? end_ - start then segments ++ [(start, end_)] else segments in
        segments_loop rest (i + 1) false start min_width segments
      else segments_loop rest (i + 1) in_segment start min_width segments
  end.

(** [proj > threshold], for the threshold [np.max(proj) * threshold_frac]. *)
Definition above_threshold_of (proj : list Z) (threshold_frac : Q) : list bool :=
  match proj with
  | [] => []
  | p0 :: ps =>
      let max_val := max_list p0 ps in
      let threshold := (inject_Z max_val * threshold_frac)%Q in
      (fun p => Qltb threshold (inject_Z p)) <$> proj
  end.

(** [_find_segments_from_projection], on the projection as the counts
    that [segment_table_into_rows_and_cols] passes. *)
Definition _find_segments_from_projection (proj : list Z) (min_width : Z)
    (threshold_frac : Q) : list (Z * Z) :=
  match proj with
  | [] => []
  | p0 :: ps =>
      let max_val := max_list p0 ps in
      if max_val =? 0 then []
      else
        let above_threshold := above_threshold_of proj threshold_frac in
        let '(segments, in_segment, start) :=
          segments_loop above_threshold 0 false 0 min_width [] in
        if in_segment
        then
          let end_ := Z.of_nat (length above_threshold) in
          if min_width <=? end_ - start then segments ++ [(start, end_)] else segments
        else segments
  end.

(* ===================================================================== *)
(** * dedupe.py: repeated headers and footers *)
(* ===================================================================== *)

Inductive RegionType := header | footer.

(** An entry of [repeated_regions]. *)
Record Region := mkRegion {
  r_page : Z;
  r_bbox : BBox;
  r_type : RegionType
}.

Definition _bbox_intersects_region (bbox region_bbox : BBox) : bool :=
  let '(x1, y1, x2, y2) := bbox in
  let '(rx1, ry1, rx2, ry2) := region_bbox in
  let no_overlap := (x2 <? rx1) || (x1 >? rx2) || (y2 <? ry1) || (y1 >? ry2) in
  negb no_overlap.

(** The inner loop over the regions, with its [break]. *)
Fixpoint intersects_repeated (page_no : Z) (box : BBox) (repeated_regions : list Region)
    : bool :=
  match repeated_regions with
  | [] => false
  | region :: rest =>
      if (r_page region =? page_no) && _bbox_intersects_region box (r_bbox region)
      then true
      else intersects_repeated page_no box rest
  end.

(** The loop over the candidates. *)
Fixpoint filter_loop (repeated_regions : list Region) (candidates : list Candidate)
    (remaining filtered : list Candidate) : list Candidate * list Candidate :=
  match candidates with
  | [] => (remaining, filtered)
  | candidate :: rest =>
      let page_no := page candidate in
      match bbox candidate with
      | None => filter_loop repeated_regions rest (remaining ++ [candidate]) filtered
      | Some box =>
          if intersects_repeated page_no box repeated_regions
          then filter_loop repeated_regions rest remaining (filtered ++ [candidate])
          else filter_loop repeated_regions rest (remaining ++ [candidate]) filtered
      end
  end.

Section HeaderFooter.

(** A page image, and [_detect_repeated_regions] on the pages with its
    two strip fractions: the detection is OpenCV and numpy work on the
    pixels. *)
Variable Image : Type.
Variable _detect_repeated_regions : list Image -> Q -> Q -> list Region.

Definition repeated_header_footer_filter (candidates : list Candidate)
    (pages_images : list Image) : list Candidate * list Candidate :=
  match candidates, pages_images with
  | [], _ | _, [] | _, [_] => (candidates, [])
  | _, _ =>
      let header_frac := (15 # 100)%Q in
      let footer_frac := (15 # 100)%Q in
      match _detect_repeated_regions pages_images header_frac footer_frac with
      | [] => (candidates, [])
      | repeated_regions => filter_loop repeated_regions candidates [] []
      end
  end.

End HeaderFooter.

(* ===================================================================== *)
(** * app.py: the target handed to the reconciler *)
(* ===================================================================== *)

(** [sum(c.get('amount', 0.0) or 0.0 for c in deduped_candidates)] *)
Definition candidates_sum (candidates : list Candidate) : Q :=
  fold_left (fun acc c => (acc + default 0%Q (amount c))%Q) candidates 0%Q.


(** The decision of step 8: the target to use, if any, and the
    tolerance. *)
Definition choose_target (reported_total : option Q) (deduped_candidates : list Candidate)
    : option Q * Q :=
  let s := candidates_sum deduped_candidates in
  let tolerance := 5%Q in
  match reported_total with
  | Some r =>
      if negb (Qeq_bool r 0) && Qltb 0 s
      then
        let deviation_ratio := (Qabs (r - s) / r)%Q in
        if Qle_bool deviation_ratio (2 # 100) then (Some r, tolerance)
        else if Qltb (5 # 10) deviation_ratio then (None, tolerance)
        else (Some r, py_max tolerance (Qabs (r - s)))
      else (None, tolerance)
  | None => (None, tolerance)
  end.

Section Pipeline.
Context {db : UnicodeDB}.
Variable solve : LpProblem -> LpStatus * Valuation.


End Pipeline.

(* ===================================================================== *)
(** * app.py: the response *)
(* ===================================================================== *)

(** An entry of ['bill_items'].  The candidates of this pipeline carry
    neither ['quantity'] nor ['rate'], so both fields are [None]; they
    carry ['conf'], so the key ['confidence'] is always set. *)
Record BillItem := mkBillItem {
  item_name : text;
  item_amount : option Q;
  item_rate : option Q;
  item_quantity : option Z;
  confidence : Q
}.

Record Response := mkResponse {
  pagewise_line_items : list (Z * list BillItem);
  total_item_count : nat;
  reconciled_amount : Q
}.

Section BuildResponse.
Context {db : UnicodeDB}.

Definition bill_item (candidate : Candidate) : BillItem :=
  mkBillItem (strip (desc candidate)) (py_round2 <$> amount candidate) None None
             (py_round2 (conf candidate)).

(** [pagewise_items[page].append(item)], the entry created at the end of
    the dict when the page is new.  The key is the page number; the code
    writes it as a string and reads it back with [int] to sort. *)
Fixpoint append_item (page_no : Z) (item : BillItem)
    (pagewise_items : list (Z * list BillItem)) : list (Z * list BillItem) :=
  match pagewise_items with
  | [] => [(page_no, [item])]
  | (p, items) :: rest =>
      if p =? page_no then (p, items ++ [item]) :: rest
      else (p, items) :: append_item page_no item rest
  end.

Definition build_response (candidates : list Candidate) (reconcile_result : ReconcileResult)
    (reported_total : option Q) : Response :=
  let selected_candidates :=
    List.filter (fun c => bool_decide (id c ∈ selected_ids reconcile_result)) candidates in
  let pagewise_items :=
    fold_left (fun d candidate => append_item (page candidate) (bill_item candidate) d)
              selected_candidates [] in
  let pagewise_list := sorted_by fst Z.leb pagewise_items in
  mkResponse pagewise_list (length selected_candidates)
             (py_round2 (selected_total reconcile_result)).

End BuildResponse.

(* ===================================================================== *)
(** * Vocabulary of the further properties *)
(* ===================================================================== *)

(** Every element is related to all the later ones. *)
Inductive ordered {A : Type} (R : A -> A -> Prop) : list A -> Prop :=
| ordered_nil : ordered R []
| ordered_cons x l : Forall (R x) l -> ordered R l -> ordered R (x :: l).

Section ExtraStatements.
Context {db : UnicodeDB}.

(** The amounts that the tokens of a row parse to, the texts taken as
    they are. *)
Definition parsed_amounts (tokens : list Token) : list Q :=
  omap (fun t => extract_amount_from_cell_text (t_text t)) tokens.

(** What a candidate of the text mode looks like. *)
Definition text_candidate (page_no : Z) (c : Candidate) : Prop :=
  page c = page_no
  /\ is_Some (amount c)
  /\ is_Some (bbox c)
  /\ (3 <= length (desc c))%nat
  /\ merged_ids c = None
  /\ (30 <= conf c)%Q.

End ExtraStatements.

(** [out] is [cs] with each run of absorbed rows folded into the
    candidate before it; the absorbed rows have no amount. *)
Inductive merged_from : list Candidate -> list Candidate -> Prop :=
| merged_nil : merged_from [] []
| merged_cons c ws rest out :
    Forall (fun w => amount w = None) ws ->
    merged_from rest out ->
    merged_from (c :: ws ++ rest) (fold_left _merge_two_candidates ws c :: out).

Definition has_amount (c : Candidate) : bool := bool_decide (is_Some (amount c)).

Definition conf_within (lo hi : Q) (c : Candidate) : Prop :=
  (lo <= conf c <= hi)%Q.

(** The two rectangles, borders included, share the point [(x, y)]. *)
Definition common_point (a b : BBox) (x y : Z) : Prop :=
  bx1 a <= x <= bx2 a /\ by1 a <= y <= by2 a
  /\ bx1 b <= x <= bx2 b /\ by1 b <= y <= by2 b.

Definition well_formed (b : BBox) : Prop := bx1 b <= bx2 b /\ by1 b <= by2 b.

(** The candidate lies on a repeated region of its page. *)
Definition on_repeated_region (repeated_regions : list Region) (c : Candidate) : Prop :=
  exists box region,
    bbox c = Some box /\ region ∈ repeated_regions
    /\ r_page region = page c
    /\ _bbox_intersects_region box (r_bbox region) = true.

(** The test that the filter loop applies to a candidate. *)
Definition hits (repeated_regions : list Region) (c : Candidate) : bool :=
  match bbox c with
  | Some box => intersects_repeated (page c) box repeated_regions
  | None => false
  end.

(** The sum of the amounts of the candidates whose id is selected. *)

(** A table image of 200 by 400 pixels whose cells read "Widget" left of
    pixel 200 and "250.00" right of it. *)
Definition ex_shape : Z * Z := (200, 400).
Definition ex_ocr (row col : Z * Z) : option OcrResult :=
  if col.1 <? 200 then Some (mkOcrResult (cp "Widget") [] 90%Q)
  else Some (mkOcrResult (cp "250.00") [] 92%Q).
Definition ex_rows : list (Z * Z) := [(5, 35); (45, 75)].
Definition ex_cols : list (Z * Z) := [(5, 200); (295, 390)].

Definition ex_table1 : list Candidate * Z :=
  Eval vm_compute in
    @rows_loop caseless_db ex_shape ex_ocr 1 ex_rows ex_cols 0 [].
Definition ex_table2 : list Candidate * Z :=
  Eval vm_compute in
    @rows_loop caseless_db ex_shape ex_ocr 2 ex_rows ex_cols ex_table1.2 [].

(** What a candidate of the table mode looks like: on the page asked for,
    with some content, and boxed by one of the rows that fit the image
    and are at least 5 pixels high. *)
Definition table_candidate (shape : Z * Z) (rows : list (Z * Z)) (page_no : Z)
    (c : Candidate) : Prop :=
  page c = page_no
  /\ merged_ids c = None
  /\ (desc c <> [] \/ is_Some (amount c))
  /\ exists row x1 x2,
       row ∈ rows /\ 0 <= row.1 /\ row.2 <= shape.1 /\ 5 <= row.2 - row.1
       /\ bbox c = Some (x1, row.1, x2, row.2).

(** [o] carries the id, page, box, description and amount of [c]. *)
Definition same_item_fields (o c : Candidate) : Prop :=
  id o = id c /\ page o = page c /\ bbox o = bbox c
  /\ desc o = desc c /\ amount o = amount c.

(** [o] is [c] itself, or a merged record that lists the id of [c]. *)
Definition accounts_for (o c : Candidate) : Prop :=
  o = c \/ exists ids, merged_ids o = Some ids /\ id c ∈ ids.

(** The sort key of [deduplicate_candidates]. *)
Definition page_top (c : Candidate) : Z * Z := (page c, from_option by1 0 (bbox c)).

(** The boxes of a small page as the engine returns them: a word with
    blanks around it, an empty box with the confidence -1, an amount. *)
Definition ex_boxes : list Token :=
  [mkToken (cp " Widget ") 95 10 100 60 20; mkToken (cp "") (-1) 0 0 0 0;
   mkToken (cp "250.00") 90 300 100 60 20].

(** The tokens of a total line. *)
Definition ex_total_tokens : list Token :=
  [ex_tok "Total" 10 500; ex_tok "Rs" 200 500; ex_tok "350.00" 300 500].

(** The result of deduplicating the same item seen on two pages. *)
Definition ex_deduped : list Candidate :=
  Eval vm_compute in
    match @deduplicate_candidates caseless_db exact_ratio [ex_d3; ex_d4] 88 with
    | Ok out => out
    | Raise _ => []
    end.

(** The test of the collecting loop of [ilp_reconcile] on the value of a
    variable: [var.varValue is not None and var.varValue > 0.5]. *)
Definition chosen (v : Valuation) (x : LpVar) : bool :=
  match v x with
  | Some val => negb (Qeq_bool val 0) && Qltb (1 # 2) val
  | None => false
  end.

(** [c.get('amount', 0.0) or 0.0] *)
Definition amount_or_zero (c : Candidate) : Q := default 0%Q (amount c).

Definition selection_amount (candidates : list Candidate) (ids : list Z) : Q :=
  sum_Q (amount_or_zero
         <$> List.filter (fun c => bool_decide (id c ∈ ids)) candidates).

Definition total_amount (candidates : list Candidate) : Q :=
  sum_Q (amount_or_zero <$> candidates).

Definition nonneg_amounts (candidates : list Candidate) : Prop :=
  Forall (fun c => (0 <= amount_or_zero c)%Q) candidates.

(** The items under a page in the dict of [build_response]. *)
Fixpoint page_items (p : Z) (d : list (Z * list BillItem)) : list BillItem :=
  match d with
  | [] => []
  | (p', items) :: d' => if p' =? p then items else page_items p d'
  end.

(** The number of items of all the pages. *)
Definition items_total (d : list (Z * list BillItem)) : nat :=
  foldr (fun e n => (length e.2 + n)%nat) 0%nat d.

(** Position [i] is marked. *)
Definition above_at (above : list bool) (i : Z) : bool :=
  (0 <=? i) && default false (above !! Z.to_nat i).

(** [seg.1, seg.2) is a run of marked positions that cannot be extended
    on either side. *)
Definition maximal_run (above : list bool) (seg : Z * Z) : Prop :=
  0 <= seg.1 < seg.2 /\ seg.2 <= Z.of_nat (length above)
  /\ (forall k, seg.1 <= k < seg.2 -> above_at above k = true)
  /\ above_at above (seg.1 - 1) = false
  /\ above_at above seg.2 = false.

(** The state of the loop of [_find_segments_from_projection] before
    index [i]. *)
Record segments_inv (above : list bool) (min_width i : Z) (in_segment : bool)
    (start : Z) (segments : list (Z * Z)) : Prop := {
  si_recorded :
    Forall (fun seg => maximal_run above seg /\ min_width <= seg.2 - seg.1 /\ seg.2 < i)
           segments;
  si_ordered : ordered (fun a b : Z * Z => a.2 < b.1) segments;
  si_open :
    in_segment = true ->
    0 <= start < i /\ (forall k, start <= k < i -> above_at above k = true)
    /\ above_at above (start - 1) = false
    /\ Forall (fun seg : Z * Z => seg.2 < start) segments;
  si_closed : in_segment = false -> above_at above (i - 1) = false;
  si_complete :
    forall seg, maximal_run above seg -> min_width <= seg.2 - seg.1 -> seg.2 < i ->
                seg ∈ segments
}.

(** A header strip found on page 1. *)
Definition ex_regions : list Region := [mkRegion 1 (0, 0, 300, 40) header].

(** The counts of a projection with one run of three positions. *)
Definition ex_proj : list Z := [0; 5; 5; 5; 0].

(* ===================================================================== *)
(** * The examples of the sources, on the model *)
(* ===================================================================== *)

Section SourceExamples.
Context {db : UnicodeDB}.

(** The docstring of [extract_amount_from_cell_text]. *)
Example amount_docstring_total :
  extract_amount_from_cell_text (cp "Total Amount: " ++ RUPEE :: cp "1,234.50")
  = Some (2469 # 2)%Q.
Proof. eval_any_db db. Qed.

Example amount_docstring_credit :
  extract_amount_from_cell_text (cp "$500.75 Cr") = Some (2003 # 4)%Q.
Proof. eval_any_db db. Qed.

(** [test_canonicalize] of dedupe.py. *)
Example canonicalize_widget :
  canonicalize_description (cp "Widget (Qty: 10 pcs)") = cp "widget 10".
Proof. eval_any_db db. Qed.

Example canonicalize_service :
  canonicalize_description (cp "SERVICE CHARGES - TOTAL AMT") = cp "service charges".
Proof. eval_any_db db. Qed.

Example canonicalize_cable :
  canonicalize_description (cp "Cable, Connector - 2.5mm (each)")
  = cp "cable connector 2 5mm".
Proof. eval_any_db db. Qed.

(** The docstring of [make_duplicate_groups_from_candidates]. *)
Example duplicate_groups_docstring :
  make_duplicate_groups_from_candidates [ex_g1; ex_g2; ex_g3] = [[1; 2]].
Proof. eval_any_db db. Qed.

End SourceExamples.

(** The demonstration of [merge_wrapped_rows]: the row without amount
    under the first item is folded into it. *)
Example merge_demo :
  (fun c => (id c, desc c, bbox c)) <$> merge_wrapped_rows [ex_c1; ex_c2; ex_c4]
  = [(1, cp "Item 1 continued", Some (10, 10, 390, 45));
     (4, cp "Item 2", Some (10, 80, 390, 100))].
Proof. vm_compute. reflexivity. Qed.

(** Test case 3 of reconcile.py, with the reference solver: of the two
    duplicates the one of higher confidence is kept. *)
Example reconcile_demo_duplicates :
  ilp_reconcile exhaustive_solve [ex_r1; ex_r2; ex_r3; ex_r4] (Some 350%Q)
                (Some [[2; 3]]) 1%Q
  = mkResult [1; 3; 4] 350%Q 0%Q ok.
Proof. vm_compute. reflexivity. Qed.

(** The end-to-end scenario of the specification. *)
Example reconcile_scenario :
  ilp_reconcile exhaustive_solve
    [mkCandidate 1 1 None [] [] (Some 100%Q) 95%Q None;
     mkCandidate 2 1 None [] [] (Some 200%Q) 85%Q None;
     mkCandidate 3 1 None [] [] (Some 150%Q) 90%Q None;
     mkCandidate 4 1 None [] [] (Some 50%Q) 70%Q None]
    (Some 450%Q) None 1%Q
  = mkResult [1; 2; 3] 450%Q 0%Q ok.
Proof. vm_compute. reflexivity. Qed.

(** [float] on the numerals that the amount pattern can produce. *)
Example py_float_forms :
  py_float (cp "1200.00") = Some 1200%Q
  /\ py_float (cp "-4.56") = Some (-114 # 25)%Q
  /\ py_float (cp "12.") = Some 12%Q
  /\ py_float (cp ".5") = Some (1 # 2)%Q
  /\ py_float (cp "1.2.3") = None
  /\ py_float (cp "") = None.
Proof. vm_compute. repeat split. Qed.

(* ===================================================================== *)
(** * Properties: amounts *)
(* ===================================================================== *)

Section AmountFacts.
Context {db : UnicodeDB}.

Lemma amount_parenthesised :
  extract_amount_from_cell_text (cp "(1,200.00)") = Some (-1200 # 1)%Q.
Proof. eval_any_db db. Qed.

Lemma amount_rupee :
  extract_amount_from_cell_text (RUPEE :: cp "1,234.50") = Some (2469 # 2)%Q.
Proof. eval_any_db db. Qed.

Lemma amount_credit :
  extract_amount_from_cell_text (cp "500.75 Cr") = Some (2003 # 4)%Q.
Proof. eval_any_db db. Qed.

Lemma amount_no_number :
  extract_amount_from_cell_text (cp "No amount here") = None.
Proof. eval_any_db db. Qed.

(** ** A text without a digit has no amount *)

Lemma match_at_amount_no_digit prev s :
  Forall (fun c => is_digit c = false) s -> match_at amount_re prev s = None.
Proof.
  intros H. unfold match_at, amount_re, digit, chr_is.
  destruct s as [|c s]; [reflexivity |].
  apply Forall_cons in H as [Hc Hs].
  cbn [rmatch]. rewrite Hc.
  destruct (c =? 45)%N; [| reflexivity].
  destruct s as [|c' s]; [reflexivity |].
  apply Forall_cons in Hs as [Hc' Hs]. rewrite Hc'. reflexivity.
Qed.

Lemma findall_amount_no_digit s : forall prev,
  Forall (fun c => is_digit c = false) s -> findall_from amount_re prev s 0 = [].
Proof.
  induction s as [|c s IH]; intros prev H; cbn [findall_from].
  - by rewrite match_at_amount_no_digit.
  - rewrite match_at_amount_no_digit by exact H.
    apply Forall_cons in H as [_ H]. by apply IH.
Qed.

Lemma search_from_Forall (P : N -> Prop) r s : forall prev m,
  Forall P s -> search_from r prev s = Some m -> Forall P m.
Proof.
  induction s as [|c s IH]; intros prev m H; cbn [search_from].
  - destruct (match_at r prev []); [| discriminate].
    intros [= <-]. unfold matched. by apply Forall_take.
  - destruct (match_at r prev (c :: s)).
    + intros [= <-]. unfold matched. by apply Forall_take.
    + apply Forall_cons in H as [_ H]. by apply IH.
Qed.

Lemma Forall_list_filter (P : N -> Prop) (p : N -> bool) s :
  Forall P s -> Forall P (List.filter p s).
Proof.
  induction 1 as [|c s Hc _ IH]; simpl; [constructor |].
  destruct (p c); [by constructor | exact IH].
Qed.

(** A text in which no character is an ASCII digit is unparsable: the
    function returns [None]. *)
Lemma extract_amount_no_digit txt :
  Forall (fun c => is_digit c = false) txt -> extract_amount_from_cell_text txt = None.
Proof.
  intros H. unfold extract_amount_from_cell_text.
  destruct txt as [|c0 txt0]; [reflexivity |].
  set (txt := c0 :: txt0) in *.
  assert (Hclean : Forall (fun c => is_digit c = false) (re_sub_class currency_class txt))
    by (by apply Forall_list_filter).
  destruct (re_search paren_re (re_sub_class currency_class txt)) as [m|] eqn:Hs.
  - apply (search_from_Forall _ _ _ _ _ Hclean) in Hs.
    unfold re_findall. rewrite findall_amount_no_digit; [reflexivity |].
    unfold paren_group1. rewrite removelast_firstn_len.
    apply Forall_take. destruct m; [constructor | by apply Forall_cons in Hs as [_ Hs]].
  - unfold re_findall. by rewrite findall_amount_no_digit.
Qed.

(** The amount pattern splits a run of four digits: its first group takes
    three of them and the repetition has no three digits left to take. *)
Lemma findall_four_digits :
  re_findall amount_re (cp "1234.56") = [cp "123"; cp "4.56"].
Proof. eval_any_db db. Qed.

(** C3.  The table of the specification, on the code: the parenthesised,
    the rupee and the credit entries parse to -1200, 1234.5 and 500.75
    and a text without a number to [None], but "1234.56 Dr" parses to
    -4.56 (-114/25), which is not the -1234.56 that the table expects. *)
Theorem extract_amount_table :
  extract_amount_from_cell_text (cp "(1,200.00)") = Some (-1200 # 1)%Q
  /\ extract_amount_from_cell_text (RUPEE :: cp "1,234.50") = Some (2469 # 2)%Q
  /\ extract_amount_from_cell_text (cp "500.75 Cr") = Some (2003 # 4)%Q
  /\ extract_amount_from_cell_text (cp "No amount here") = None
  /\ extract_amount_from_cell_text (cp "1234.56 Dr") = Some (-114 # 25)%Q
  /\ ~ (-114 # 25 == -123456 # 100)%Q.
Proof.
  split; [apply amount_parenthesised |].
  split; [apply amount_rupee |].
  split; [apply amount_credit |].
  split; [apply amount_no_number |].
  split; [eval_any_db db | discriminate].
Qed.

End AmountFacts.

(* ===================================================================== *)
(** * Properties: text-based rows *)
(* ===================================================================== *)

Section RowFacts.
Context {db : UnicodeDB}.

Lemma classify_tokens_amounts row : forall ds acs,
  ac_amount <$> (classify_tokens row ds acs).2 = (ac_amount <$> acs) ++ row_amounts row.
Proof.
  induction row as [|t row IH]; intros ds acs; simpl.
  - by rewrite app_nil_r.
  - unfold row_amounts; simpl. unfold token_amount at 1.
    destruct (strip (t_text t)) as [|c s] eqn:Hs.
    + rewrite IH. reflexivity.
    + destruct (extract_amount_from_cell_text (c :: s)) as [a|] eqn:Ha.
      * rewrite IH, fmap_app, <- app_assoc. reflexivity.
      * rewrite IH. reflexivity.
Qed.

Lemma last_fmap {A B : Type} (f : A -> B) (l : list A) :
  last (f <$> l) = f <$> last l.
Proof.
  induction l as [|x [|y l] IH]; try reflexivity.
  exact IH.
Qed.

Lemma filter_fmap {A B : Type} (f : A -> B) (p : B -> bool) (l : list A) :
  List.filter p (f <$> l) = f <$> List.filter (fun x => p (f x)) l.
Proof.
  induction l as [|x l IH]; csimpl; [reflexivity |].
  destruct (p (f x)); csimpl; by rewrite IH.
Qed.

(** The code's choice, on the values alone. *)
Lemma choose_amount_rightmost acs :
  choose_amount acs = rightmost (Qltb (1 # 100)) (ac_amount <$> acs).
Proof.
  unfold choose_amount, rightmost.
  rewrite filter_fmap, !last_fmap.
  destruct (last (List.filter _ acs)); reflexivity.
Qed.

Lemma last_is_Some {A : Type} (l : list A) : l <> [] -> is_Some (last l).
Proof.
  induction l as [|x [|y l] IH]; intros H; [done | by eexists |].
  apply IH. discriminate.
Qed.

(** What [extract_line_item_from_row] returns on a row that has a numeric
    token: a candidate whose amount is the right-most value above 0.01,
    or the last value when there is none. *)
Lemma extract_line_item_amount row :
  row_amounts row <> [] ->
  exists item, extract_line_item_from_row row = Some item
               /\ Some (li_amount item) = rightmost (Qltb (1 # 100)) (row_amounts row).
Proof.
  intros Hne. unfold extract_line_item_from_row.
  destruct row as [|t0 ts]; [done |].
  pose proof (classify_tokens_amounts (t0 :: ts) [] []) as Hc.
  destruct (classify_tokens (t0 :: ts) [] []) as [ds acs].
  change (ac_amount <$> acs = row_amounts (t0 :: ts)) in Hc.
  destruct acs as [|ac acs]; [exfalso; apply Hne; symmetry; exact Hc |].
  rewrite choose_amount_rightmost, Hc.
  unfold rightmost.
  destruct (last (List.filter _ (row_amounts (t0 :: ts)))) as [a|] eqn:Hl.
  - eexists; split; reflexivity.
  - destruct (last_is_Some (row_amounts (t0 :: ts)) Hne) as [a Ha].
    rewrite Ha. eexists; split; reflexivity.
Qed.

Lemma filter_ext_Forall {A : Type} (p q : A -> bool) (l : list A) :
  Forall (fun x => p x = q x) l -> List.filter p l = List.filter q l.
Proof.
  induction 1 as [|x l Hx _ IH]; simpl; [reflexivity |].
  rewrite Hx, IH. reflexivity.
Qed.

Lemma above_cent_nonneg a : (0 <= a)%Q -> above_cent a = Qltb (1 # 100) a.
Proof.
  intros H. unfold above_cent, Qltb. f_equal.
  destruct (Qle_bool (Qabs a) (1 # 100)) eqn:E1, (Qle_bool a (1 # 100)) eqn:E2;
    try reflexivity.
  - apply Qle_bool_iff in E1. rewrite Qabs_pos in E1 by exact H.
    apply Qle_bool_iff in E1. congruence.
  - apply Qle_bool_iff in E2. rewrite <- (Qabs_pos a) in E2 by exact H.
    apply Qle_bool_iff in E2. congruence.
Qed.

(** C9, as amended.  For a row with at least one numeric token, none of
    them negative, the candidate is produced and its amount is the value
    of the right-most numeric token whose magnitude exceeds 0.01, or of
    the last numeric token when no magnitude does. *)
Theorem text_row_amount_choice row :
  row_amounts row <> [] ->
  Forall (fun a => (0 <= a)%Q) (row_amounts row) ->
  exists item, extract_line_item_from_row row = Some item
               /\ Some (li_amount item) = rightmost above_cent (row_amounts row).
Proof.
  intros Hne Hpos.
  destruct (extract_line_item_amount row Hne) as (item & Hitem & Ham).
  exists item. split; [exact Hitem |].
  rewrite Ham. unfold rightmost.
  rewrite (filter_ext_Forall above_cent (Qltb (1 # 100))); [reflexivity |].
  eapply Forall_impl; [exact Hpos |]. intros a Ha. by apply above_cent_nonneg.
Qed.

End RowFacts.

Lemma text_row_amount_choice_witness :
  exists item, @extract_line_item_from_row caseless_db ex_row_plain = Some item
               /\ Some (li_amount item) = @rightmost above_cent (@row_amounts caseless_db ex_row_plain).
Proof.
  apply (@text_row_amount_choice caseless_db ex_row_plain).
  - vm_compute. discriminate.
  - vm_compute. repeat constructor; discriminate.
Defined.

(** C9, as the specification states it, fails on a row whose last numeric
    token is one cent: the code keeps 100.00, the rule asks for 0.01. *)
Lemma rightmost_nonzero_rule_fails : ~ @rightmost_nonzero_rule caseless_db ex_row_cent.
Proof.
  intros H. destruct H as (item & Hitem & a & Ha & Heq).
  - vm_compute. discriminate.
  - vm_compute in Hitem. vm_compute in Ha.
    injection Hitem as <-. injection Ha as <-.
    vm_compute in Heq. discriminate.
Qed.

(* ===================================================================== *)
(** * Properties: wrapped rows *)
(* ===================================================================== *)

Lemma _is_wrapped_row_spec a b : _is_wrapped_row a b = true <-> wrap_eligible a b.
Proof.
  unfold _is_wrapped_row, wrap_eligible.
  destruct (amount b) as [q|]; [split; [discriminate | intros [H _]; discriminate] |].
  destruct (desc b) as [|c0 d] eqn:Hd.
  { simpl. split; [discriminate | intros (_ & H & _); simpl in H; lia]. }
  rewrite bool_decide_eq_false_2 by discriminate. rewrite orb_false_l.
  destruct (length (c0 :: d) <? 3)%nat eqn:Hlen.
  { apply Nat.ltb_lt in Hlen. split; [discriminate | intros (_ & H & _); lia]. }
  apply Nat.ltb_ge in Hlen.
  destruct (page a =? page b) eqn:Hp; simpl.
  2:{ apply Z.eqb_neq in Hp. split; [discriminate | intros (_ & _ & H & _); done]. }
  apply Z.eqb_eq in Hp.
  destruct (bbox a) as [pa|], (bbox b) as [pb|];
    try (split; [discriminate | intros (_ & _ & _ & ? & ? & ? & ? & _); discriminate]).
  destruct (by1 pb - by2 pa <? -5) eqn:H1; simpl.
  { apply Z.ltb_lt in H1. split; [discriminate |].
    intros (_ & _ & _ & ? & ? & [= <-] & [= <-] & ? & _). lia. }
  apply Z.ltb_ge in H1.
  destruct (by1 pb - by2 pa >? 10) eqn:H2.
  { apply Z.gtb_lt in H2. split; [discriminate |].
    intros (_ & _ & _ & ? & ? & [= <-] & [= <-] & ? & _). lia. }
  rewrite Z.gtb_ltb in H2. apply Z.ltb_ge in H2.
  destruct (Z.abs (bx1 pb - bx1 pa) >? 20) eqn:H3.
  { apply Z.gtb_lt in H3. split; [discriminate |].
    intros (_ & _ & _ & ? & ? & [= <-] & [= <-] & _ & ?). lia. }
  rewrite Z.gtb_ltb in H3. apply Z.ltb_ge in H3.
  split; [intros _ | reflexivity].
  repeat split; try done. exists pa, pb. repeat split; try done; lia.
Qed.

Lemma merge_loop_app cs : forall i skip merged,
  merge_loop i cs skip merged = merged ++ merge_loop i cs skip [].
Proof.
  induction cs as [|c cs IH]; intros i skip merged; simpl.
  - by rewrite app_nil_r.
  - destruct (bool_decide (i ∈ skip)); [apply IH |].
    destruct (look_ahead c (S i) cs skip) as [m skip'].
    rewrite (IH _ _ (merged ++ [m])), (IH _ _ ([] ++ [m])).
    by rewrite <- app_assoc.
Qed.

(** The look-ahead absorbs a prefix of the rows that follow, and marks
    exactly their indices. *)
Lemma look_ahead_spec rest : forall m j skip,
  exists k, (k <= length rest)%nat
    /\ (look_ahead m j rest skip).1 = fold_left _merge_two_candidates (take k rest) m
    /\ (forall x, x ∈ (look_ahead m j rest skip).2 <-> x ∈ skip \/ (j <= x < j + k)%nat)
    /\ (forall nxt, rest !! k = Some nxt ->
          _is_wrapped_row (look_ahead m j rest skip).1 nxt = false).
Proof.
  induction rest as [|n rest IH]; intros m j skip; simpl.
  - exists 0%nat. split; [lia |]. split; [reflexivity |]. split; [| done].
    intros x. split; [by left | intros [?|?]; [done | lia]].
  - destruct (_is_wrapped_row m n) eqn:Hw.
    + destruct (IH (_merge_two_candidates m n) (S j) ({[ j ]} ∪ skip))
        as (k & Hk & Hm & Hs & Hn).
      exists (S k). split; [simpl; lia |]. split; [exact Hm |]. split.
      * intros x. rewrite Hs, elem_of_union, elem_of_singleton. split.
        -- intros [[-> | Hx] | Hx]; [right; lia | by left | right; lia].
        -- intros [Hx | Hx]; [left; by right |].
           destruct (decide (x = j)) as [-> | Hne]; [left; by left | right; lia].
      * intros nxt Hnxt. apply Hn. exact Hnxt.
    + exists 0%nat. split; [lia |]. split; [reflexivity |]. split.
      * intros x. simpl. split; [by left | intros [?|?]; [done | lia]].
      * intros nxt [= <-]. exact Hw.
Qed.

(** Marked rows are stepped over. *)
Lemma merge_loop_skip k : forall i cs skip merged,
  (forall x, (i <= x < i + k)%nat -> x ∈ skip) ->
  merge_loop i cs skip merged = merge_loop (i + k) (drop k cs) skip merged.
Proof.
  induction k as [|k IH]; intros i cs skip merged Hin.
  - by rewrite Nat.add_0_r, drop_0.
  - destruct cs as [|c cs]; [reflexivity |]. simpl.
    rewrite bool_decide_eq_true_2 by (apply Hin; lia).
    rewrite IH by (intros x Hx; apply Hin; lia).
    f_equal. lia.
Qed.

Lemma merge_loop_length c cs i skip :
  i ∉ skip -> (1 <= length (merge_loop i (c :: cs) skip []))%nat.
Proof.
  intros Hi. simpl. rewrite bool_decide_eq_false_2 by exact Hi.
  destruct (look_ahead c (S i) cs skip) as [m skip'].
  rewrite merge_loop_app. rewrite length_app. simpl. lia.
Qed.

(** C7.  A list in which no candidate meets the wrapped-row conditions
    with respect to its predecessor comes back unchanged: the same
    candidates, in the same order, with the same ids. *)
Theorem merge_wrapped_rows_unchanged (cs : list Candidate) :
  (forall i a b, cs !! i = Some a -> cs !! S i = Some b -> ~ wrap_eligible a b) ->
  merge_wrapped_rows cs = cs.
Proof.
  unfold merge_wrapped_rows.
  assert (Hgen : forall (cs : list Candidate) (skip : gset nat) (i : nat),
             skip = ∅ ->
             (forall i a b, cs !! i = Some a -> cs !! S i = Some b -> ~ wrap_eligible a b) ->
             merge_loop i cs skip [] = cs).
  { clear cs. induction cs as [|c cs IH]; intros skip i -> Hno; [reflexivity |].
    simpl. rewrite bool_decide_eq_false_2 by set_solver.
    assert (Hla : look_ahead c (S i) cs ∅ = (c, ∅)).
    { destruct cs as [|n cs]; [reflexivity |]. simpl.
      destruct (_is_wrapped_row c n) eqn:Hw; [| reflexivity].
      apply _is_wrapped_row_spec in Hw. by apply (Hno 0%nat c n) in Hw. }
    rewrite Hla, merge_loop_app. simpl. f_equal.
    apply IH; [reflexivity |]. intros j a b Ha Hb. apply (Hno (S j)); assumption. }
  intros H. apply Hgen; [reflexivity | exact H].
Qed.

Lemma merge_wrapped_rows_unchanged_witness :
  merge_wrapped_rows [ex_c1; ex_c4] = [ex_c1; ex_c4].
Proof.
  apply (merge_wrapped_rows_unchanged [ex_c1; ex_c4]).
  intros i a b Ha Hb [Hamount _].
  destruct i as [|[|i]]; simpl in Ha, Hb; try discriminate.
  injection Hb as <-. simpl in Hamount. discriminate.
Defined.

Lemma conf_merge_two a w :
  conf (_merge_two_candidates a w) = conf_step (conf a) (conf w).
Proof.
  unfold _merge_two_candidates, conf_step.
  destruct (desc w), (desc a), (bbox a), (bbox w);
    destruct (Qltb 0 (conf a) && Qltb 0 (conf w)); reflexivity.
Qed.

Lemma conf_merge_chain ws : forall p,
  conf (fold_left _merge_two_candidates ws p) = fold_left conf_step (conf <$> ws) (conf p).
Proof.
  induction ws as [|w ws IH]; intros p; [reflexivity |].
  simpl. rewrite IH, conf_merge_two. reflexivity.
Qed.

(** A list that collapses into one candidate is a parent followed by the
    rows it absorbed, merged from left to right. *)
Lemma merge_wrapped_rows_chain p ws m :
  merge_wrapped_rows (p :: ws) = [m] -> m = fold_left _merge_two_candidates ws p.
Proof.
  unfold merge_wrapped_rows. simpl.
  rewrite bool_decide_eq_false_2 by set_solver.
  destruct (look_ahead_spec ws p 1%nat ∅) as (k & Hk & Hm & Hs & Hn).
  destruct (look_ahead p 1 ws ∅) as [m' skip'] eqn:Hla. simpl in Hm, Hs, Hn.
  rewrite (merge_loop_skip k) by (intros x Hx; apply Hs; right; lia).
  rewrite merge_loop_app.
  destruct (drop k ws) as [|n rest] eqn:Hd.
  - simpl. intros [= <-].
    assert (length ws <= k)%nat.
    { destruct (decide (length ws <= k)%nat) as [|Hlt]; [done |].
      assert (length (drop k ws) = 0%nat) as Hz by (by rewrite Hd).
      rewrite length_drop in Hz. lia. }
    rewrite Hm, take_ge by lia. reflexivity.
  - intros Heq. exfalso.
    assert (Hlen : (1 <= length (merge_loop (1 + k) (n :: rest) skip' []))%nat).
    { apply merge_loop_length. intros Hin. apply Hs in Hin as [Hin | Hin]; [set_solver | lia]. }
    apply (f_equal length) in Heq. rewrite length_app in Heq.
    change (length [m']) with 1%nat in Heq. change (length [m]) with 1%nat in Heq. lia.
Qed.

Lemma Qltb_lt a b : Qltb a b = true <-> (a < b)%Q.
Proof.
  unfold Qltb. rewrite negb_true_iff. split.
  - intros H. apply Qnot_le_lt. intros Hle. apply Qle_bool_iff in Hle. congruence.
  - intros H. destruct (Qle_bool b a) eqn:E; [| reflexivity].
    apply Qle_bool_iff in E. exfalso. exact (Qlt_not_le _ _ H E).
Qed.

(** C8, as amended.  A parent that absorbs [n] rows ends with the
    confidence obtained by averaging pairwise, in order: each absorbed row
    replaces the running value [v] by [(v + c) / 2] when both are
    positive.  For one absorbed row and positive confidences this is the
    arithmetic mean of the two. *)
Theorem merge_chain_confidence p ws m :
  merge_wrapped_rows (p :: ws) = [m] ->
  conf m = fold_left conf_step (conf <$> ws) (conf p)
  /\ (forall w, ws = [w] -> (0 < conf p)%Q -> (0 < conf w)%Q ->
        (conf m == Qmean [conf p; conf w])%Q).
Proof.
  intros H. apply merge_wrapped_rows_chain in H. subst m.
  rewrite conf_merge_chain. split; [reflexivity |].
  intros w -> Hp Hw. simpl. unfold conf_step.
  apply Qltb_lt in Hp, Hw. rewrite Hp, Hw. simpl.
  unfold avg2, Qmean, Q_of_nat. simpl. field.
Qed.

Lemma merge_chain_confidence_witness :
  merge_wrapped_rows [ex_c1; ex_c2] = [ex_c12]
  /\ conf ex_c12 = fold_left conf_step (conf <$> [ex_c2]) (conf ex_c1)
  /\ (forall w, [ex_c2] = [w] -> (0 < conf ex_c1)%Q -> (0 < conf w)%Q ->
        (conf ex_c12 == Qmean [conf ex_c1; conf w])%Q).
Proof.
  split; [reflexivity |].
  apply (merge_chain_confidence ex_c1 [ex_c2] ex_c12). reflexivity.
Defined.

(** C8, as the specification states it, fails for a parent that absorbs
    two rows: confidences 92, 88 and 40 end at 65, and their mean is
    220/3. *)
Lemma chain_mean_rule_fails : ~ chain_mean_rule ex_c1 [ex_c2; ex_c3].
Proof.
  intros H. specialize (H _ eq_refl). vm_compute in H. discriminate.
Qed.

(* ===================================================================== *)
(** * Properties: candidate ids *)
(* ===================================================================== *)

Lemma increasing_snoc l x :
  increasing l -> Forall (fun y => y < x) l -> increasing (l ++ [x]).
Proof.
  induction 1 as [|y l Hy Hl IH]; intros Hx; simpl.
  - constructor; constructor.
  - apply Forall_cons in Hx as [Hyx Hx]. constructor; [| by apply IH].
    apply Forall_app. split; [exact Hy | by constructor].
Qed.

Lemma increasing_NoDup l : increasing l -> NoDup l.
Proof.
  induction 1 as [|x l Hx Hl IH]; constructor; [| exact IH].
  intros Hin. rewrite Forall_forall in Hx. specialize (Hx _ Hin). lia.
Qed.

Section IdFacts.
Context {db : UnicodeDB}.

(** Table mode: the rows of one call take their ids from the global
    counter, so they are increasing and lie above its value at entry. *)
Lemma rows_loop_ids shape ocr page_no rows : forall cols counter cands,
  increasing (id <$> cands) ->
  Forall (fun c => id c <= counter) cands ->
  let r := rows_loop shape ocr page_no rows cols counter cands in
  counter <= r.2
  /\ increasing (id <$> r.1)
  /\ Forall (fun c => id c <= r.2) r.1
  /\ exists new, r.1 = cands ++ new /\ Forall (fun c => counter < id c) new.
Proof.
  induction rows as [|[row_start row_end] rows IH]; intros cols counter cands Hinc Hle; simpl.
  - split; [lia |]. split; [exact Hinc |]. split; [exact Hle |].
    exists []. by rewrite app_nil_r.
  - destruct ((row_start <? 0) || (row_end >? shape.1)); [by apply IH |].
    destruct (row_end - row_start <? 5); [by apply IH |].
    set (cols' := match cols with [] => [(0, shape.2)] | _ => cols end).
    destruct (cells_loop shape ocr (row_start, row_end) 0 cols' [] [] [])
      as [[cell_texts cell_confidences] numeric_cells].
    assert (Hle' : Forall (fun c => id c <= counter + 1) cands).
    { eapply Forall_impl; [exact Hle |]. simpl. intros; lia. }
    match goal with |- context [if ?b then _ else _] => destruct b end.
    + match goal with |- context [cands ++ [?c]] => set (cand := c) end.
      destruct (IH cols' (counter + 1) (cands ++ [cand])) as (H1 & H2 & H3 & new & H4 & H5).
      * rewrite fmap_app. apply increasing_snoc; [exact Hinc |].
        apply Forall_fmap. eapply Forall_impl; [exact Hle |]. simpl. intros; lia.
      * apply Forall_app. split; [exact Hle' |]. constructor; [simpl; lia | constructor].
      * split; [lia |]. split; [exact H2 |]. split; [exact H3 |].
        exists (cand :: new). split; [by rewrite H4, <- app_assoc |].
        constructor; [simpl; lia |].
        eapply Forall_impl; [exact H5 |]. simpl. intros; lia.
    + destruct (IH cols' (counter + 1) cands Hinc Hle') as (H1 & H2 & H3 & new & H4 & H5).
      split; [lia |]. split; [exact H2 |]. split; [exact H3 |].
      exists new. split; [exact H4 |].
      eapply Forall_impl; [exact H5 |]. simpl. intros; lia.
Qed.

(** Two table-mode calls of one run, the second starting from the counter
    the first one left: all ids are positive, increasing and distinct. *)
Lemma table_mode_ids_unique shape1 ocr1 shape2 ocr2 rows1 cols1 page1 rows2 cols2 page2
    counter cands1 counter1 cands2 counter2 :
  0 <= counter ->
  assemble_candidates_from_table shape1 ocr1 rows1 cols1 page1 counter = (Ok cands1, counter1) ->
  assemble_candidates_from_table shape2 ocr2 rows2 cols2 page2 counter1 = (Ok cands2, counter2) ->
  increasing (id <$> cands1 ++ cands2)
  /\ NoDup (id <$> cands1 ++ cands2)
  /\ Forall (fun c => 0 < id c) (cands1 ++ cands2).
Proof.
  intros H0 Ha1 Ha2.
  assert (Hgen : forall shape ocr rows cols page c0 cands c1,
            assemble_candidates_from_table shape ocr rows cols page c0 = (Ok cands, c1) ->
            c0 <= c1 /\ increasing (id <$> cands)
            /\ Forall (fun c => c0 < id c <= c1) cands).
  { intros shape ocr rows cols page c0 cands c1. unfold assemble_candidates_from_table.
    destruct (shape.1 * shape.2 * 3 =? 0); [discriminate |].
    destruct rows as [|r rows]; [intros [= <- <-]; repeat split; (lia || constructor) |].
    pose proof (rows_loop_ids shape ocr page (r :: rows) cols c0 []) as H.
    destruct (rows_loop shape ocr page (r :: rows) cols c0 []) as [cs c'].
    intros [= <- <-]. destruct H as (H1 & H2 & H3 & new & H4 & H5); [constructor | constructor |].
    simpl in *. subst cs. repeat split; [exact H1 | exact H2 |].
    rewrite Forall_forall in H3, H5. apply Forall_forall. intros c Hc.
    split; [by apply H5 | by apply H3]. }
  destruct (Hgen _ _ _ _ _ _ _ _ Ha1) as (Hc1 & Hi1 & Hb1).
  destruct (Hgen _ _ _ _ _ _ _ _ Ha2) as (Hc2 & Hi2 & Hb2).
  assert (Hinc : increasing (id <$> cands1 ++ cands2)).
  { rewrite fmap_app. clear Ha1 Ha2 Hgen.
    induction cands1 as [|c cs IH]; [exact Hi2 |].
    simpl. inversion Hi1 as [|? ? Hx Hl]; subst. apply Forall_cons in Hb1 as [Hc Hb1].
    constructor; [| by apply IH].
    apply Forall_app. split; [exact Hx |].
    apply Forall_fmap. eapply Forall_impl; [exact Hb2 |]. simpl. intros; lia. }
  split; [exact Hinc |]. split; [by apply increasing_NoDup |].
  apply Forall_app. split.
  - eapply Forall_impl; [exact Hb1 |]. simpl. intros; lia.
  - eapply Forall_impl; [exact Hb2 |]. simpl. intros; lia.
Qed.

(** Text mode: the candidates of one page are numbered 1, 2, ... *)
Lemma candidates_of_rows_ids page_no rows : forall candidate_id cands,
  exists n, id <$> candidates_of_rows page_no rows candidate_id cands
            = (id <$> cands) ++ ((fun k => candidate_id + Z.of_nat k) <$> seq 0 n).
Proof.
  induction rows as [|row rows IH]; intros cid cands; cbn [candidates_of_rows].
  - exists 0%nat. simpl. by rewrite app_nil_r.
  - destruct (extract_line_item_from_row row) as [item|]; [| apply IH].
    destruct (length (li_desc item) <? 3)%nat; [apply IH |].
    destruct (negb (Qeq_bool (li_amount item) 0) && Qltb 999999999 (Qabs (li_amount item)));
      [apply IH |].
    match goal with |- context [existsb ?f total_keywords] =>
      destruct (existsb f total_keywords) end; [apply IH |].
    destruct (IH (cid + 1) (cands ++ [mkCandidate cid page_no (Some (li_bbox item))
                 (li_raw_cells item) (li_desc item) (Some (li_amount item)) (li_conf item) None]))
      as [n Hn].
    exists (S n). rewrite Hn, fmap_app, <- app_assoc. f_equal. simpl. f_equal; [f_equal; lia |].
    rewrite <- fmap_S_seq, <- list_fmap_compose. apply list_fmap_ext.
    intros _ k _. simpl. lia.
Qed.

(** C4.  In text mode, the mode [extract_bill_data] runs, every page
    numbers its candidates from 1 again: two pages with one line item
    each give two candidates, on pages 1 and 2, that both carry id 1. *)
Theorem text_mode_ids_restart :
  id <$> all_candidates_of_run [ex_page; ex_page] = [1; 1]
  /\ page <$> all_candidates_of_run [ex_page; ex_page] = [1; 2]
  /\ ~ NoDup (id <$> all_candidates_of_run [ex_page; ex_page]).
Proof.
  assert (H : id <$> all_candidates_of_run [ex_page; ex_page] = [1; 1])
    by (eval_any_db db).
  split; [exact H |]. split; [eval_any_db db |].
  rewrite H. intros Hnd. apply NoDup_cons in Hnd as [Hnd _]. apply Hnd. by left.
Qed.

End IdFacts.

(* ===================================================================== *)
(** * Properties: duplicate groups *)
(* ===================================================================== *)



Section GroupFacts.
Context {db : UnicodeDB}.






Lemma get_None_keys k d : get k d = None -> k ∉ d.*1.
Proof.
  induction d as [|[k' ids'] d IH]; simpl; intros H Hin; [inversion Hin |].
  destruct (decide (k' = k)) as [-> | Hne]; [discriminate |].
  apply elem_of_cons in Hin as [-> | Hin]; [done | by apply IH].
Qed.








End GroupFacts.



(* ===================================================================== *)
(** * Properties: de-duplication *)
(* ===================================================================== *)

Section DedupeFacts.
Context {db : UnicodeDB}.
Variable token_set_ratio : text -> text -> Q.

#[local] Abbreviation joins_group := (joins_group token_set_ratio).
#[local] Abbreviation scan_others := (scan_others token_set_ratio).
#[local] Abbreviation group_loop := (group_loop token_set_ratio).
#[local] Abbreviation build_groups := (build_groups token_set_ratio).
#[local] Abbreviation similar := (similar token_set_ratio).





(** C10.  Two candidates at the head of the list whose descriptions meet
    the threshold and whose amounts are both 0: the relative difference
    divides by their maximum, 0, and [deduplicate_candidates] raises
    [ZeroDivisionError]. *)
Theorem dedupe_zero_amounts_raise c1 c2 rest thr x y :
  similar thr c1 c2 ->
  amount c1 = Some x -> amount c2 = Some y ->
  (x == 0)%Q -> (y == 0)%Q ->
  deduplicate_candidates token_set_ratio (c1 :: c2 :: rest) thr = Raise ZeroDivisionError.
Proof.
  intros Hsim Hx Hy Hx0 Hy0.
  unfold deduplicate_candidates, build_groups. simpl.
  assert (Hj : joins_group thr c1 c2 = Raise ZeroDivisionError).
  { unfold joins_group. apply Qle_bool_iff in Hsim. rewrite Hsim, Hx, Hy.
    assert (Hmax : Qeq_bool (py_max x y) 0 = true).
    { apply Qeq_bool_iff. unfold py_max. destruct (Qltb x y); assumption. }
    by rewrite Hmax. }
  rewrite bool_decide_eq_false_2 by apply not_elem_of_empty.
  rewrite bool_decide_eq_false_2.
  - rewrite Hj. reflexivity.
  - rewrite elem_of_union, elem_of_singleton.
    intros [H | H]; [discriminate | by apply not_elem_of_empty in H].
Qed.

End DedupeFacts.


Lemma dedupe_zero_amounts_raise_witness :
  @deduplicate_candidates caseless_db exact_ratio [ex_z1; ex_z2] 88 = Raise ZeroDivisionError.
Proof.
  apply (@dedupe_zero_amounts_raise caseless_db exact_ratio ex_z1 ex_z2 [] 88 0%Q 0%Q).
  - vm_compute. discriminate.
  - reflexivity.
  - reflexivity.
  - reflexivity.
  - reflexivity.
Defined.


(* ===================================================================== *)
(** * Properties: reconciliation *)
(* ===================================================================== *)

Lemma holdsb_holds v c : holdsb v c = true -> holds v c.
Proof.
  unfold holdsb, holds. destruct (con_sense c); intros H.
  - by apply Qle_bool_iff.
  - by apply Qeq_bool_iff.
Qed.

Lemma best_point_elem p pts pt : best_point p pts = Some pt -> pt ∈ pts.
Proof.
  destruct pts as [|p0 pts]; [discriminate |]. simpl. intros [= <-].
  revert p0. induction pts as [|x pts IH]; intros p0; simpl; [by left |].
  destruct (Qltb _ _).
  - specialize (IH x). apply elem_of_cons in IH as [-> | IH]; [right; by left | by do 2 right].
  - specialize (IH p0). apply elem_of_cons in IH as [-> | IH]; [by left | by do 2 right].
Qed.

(** The reference solver honours the contract assumed of the solver. *)
Lemma exhaustive_solve_sound : solver_sound exhaustive_solve.
Proof.
  intros p v. unfold exhaustive_solve.
  destruct (best_point p (feasible_points p)) as [pt|] eqn:Hb; [| discriminate].
  intros [= <-]. apply best_point_elem in Hb.
  unfold feasible_points in Hb. apply list_elem_of_In, in_flat_map in Hb as (chosen & _ & Hin).
  apply list_elem_of_In, list_elem_of_omap in Hin as ([zp zm] & _ & Hpt). simpl in Hpt.
  destruct (Qle_bool 0 zp && Qle_bool 0 zm && forallb _ (constraints p)) eqn:E; [| discriminate].
  injection Hpt as <-. apply andb_true_iff in E as [E E3]. apply andb_true_iff in E as [E1 E2].
  apply Qle_bool_iff in E1, E2. unfold point_valuation. simpl. split.
  - intros [i| |]; unfold in_bounds, value_of; simpl; [| exact E1 | exact E2].
    destruct (bool_decide (i ∈ chosen)); [right | left]; reflexivity.
  - apply Forall_forall. intros c Hc. apply holdsb_holds.
    rewrite forallb_forall in E3. apply E3. by apply list_elem_of_In.
Qed.

Section ReconcileFacts.
Variable solve : LpProblem -> LpStatus * Valuation.

(** C2.  The outcome is a value in every case: an empty list gives [ok]
    with nothing selected, total 0 and deviation 0; a non-empty list
    without any amount gives [no_valid_amounts] with the absolute target
    (0 without a target) as deviation; and when the solver's answer for
    the program of the candidates with an amount is not ['Optimal'], the
    result is [infeasible] with nothing selected, total 0 and the absolute
    target (0 without a target) as deviation. *)
Theorem ilp_reconcile_outcomes candidates reported_total duplicate_groups tolerance :
  (candidates = [] ->
     ilp_reconcile solve candidates reported_total duplicate_groups tolerance
     = mkResult [] 0%Q 0%Q ok)
  /\ (candidates <> [] -> Forall (fun c => amount c = None) candidates ->
        ilp_reconcile solve candidates reported_total duplicate_groups tolerance
        = mkResult [] 0%Q (abs_target reported_total) no_valid_amounts)
  /\ (Exists (fun c => is_Some (amount c)) candidates ->
      (solve (reconcile_problem
                (List.filter (fun c => bool_decide (is_Some (amount c))) candidates)
                reported_total duplicate_groups tolerance)).1 <> Optimal ->
        ilp_reconcile solve candidates reported_total duplicate_groups tolerance
        = mkResult [] 0%Q (abs_target reported_total) infeasible).
Proof.
  split; [by intros -> |]. split.
  - intros Hne Hall. unfold ilp_reconcile.
    destruct candidates as [|c cs]; [done |].
    assert (Hf : List.filter (fun c => bool_decide (is_Some (amount c))) (c :: cs) = []).
    { clear Hne. induction Hall as [|x l Hx _ IH]; [reflexivity |].
      simpl. rewrite Hx. rewrite bool_decide_eq_false_2 by (by intros [? ?]). exact IH. }
    by rewrite Hf.
  - intros Hex Hst. unfold ilp_reconcile.
    destruct candidates as [|c cs]; [by apply Exists_nil in Hex |].
    destruct (List.filter _ (c :: cs)) as [|c' cs'] eqn:Hf.
    { exfalso. apply Exists_exists in Hex as (x & Hx & Hsome).
      assert (Hin : In x (List.filter (fun c => bool_decide (is_Some (amount c))) (c :: cs))).
      { apply List.filter_In. split; [by apply list_elem_of_In | by apply bool_decide_eq_true]. }
      rewrite Hf in Hin. inversion Hin. }
    destruct (solve _) as [st v]. simpl in Hst. by destruct st.
Qed.

Lemma make_x_vars_lookup candidates : forall (m : gmap Z LpVar) i,
  fold_left (fun x_vars candidate => <[ id candidate := x_var (id candidate) ]> x_vars)
            candidates m !! i
  = if bool_decide (i ∈ id <$> candidates) then Some (x_var i) else m !! i.
Proof.
  induction candidates as [|c cs IH]; intros m i; cbn [fold_left].
  - rewrite bool_decide_eq_false_2; [reflexivity | apply not_elem_of_nil].
  - rewrite IH, fmap_cons. destruct (bool_decide (i ∈ id <$> cs)) eqn:E.
    + apply bool_decide_eq_true in E. rewrite bool_decide_eq_true_2; [reflexivity | by right].
    + apply bool_decide_eq_false in E. destruct (decide (i = id c)) as [-> | Hne].
      * rewrite lookup_insert_eq. rewrite bool_decide_eq_true_2; [reflexivity | by left].
      * rewrite lookup_insert_ne by congruence.
        rewrite bool_decide_eq_false_2; [reflexivity |].
        intros H. apply elem_of_cons in H as [H | H]; done.
Qed.

Lemma x_at_id candidates i : x_at (make_x_vars candidates) i = x_var i.
Proof.
  unfold x_at, make_x_vars. rewrite make_x_vars_lookup.
  destruct (bool_decide _); [reflexivity |]. by rewrite lookup_empty.
Qed.

(** A selected id belongs to a candidate whose variable is above 1/2. *)
Lemma collect_selected_elem x_vars v candidates : forall sel tot a,
  a ∈ (collect_selected x_vars v candidates sel tot).1 ->
  a ∈ sel
  \/ (a ∈ id <$> candidates
      /\ exists val, v (x_at x_vars a) = Some val /\ (1 # 2 < val)%Q).
Proof.
  induction candidates as [|c cs IH]; intros sel tot a; simpl; [by left |].
  destruct (v (x_at x_vars (id c))) as [val|] eqn:Hv.
  - destruct (negb (Qeq_bool val 0) && Qltb (1 # 2) val) eqn:E.
    + intros H. apply IH in H as [H | (H1 & H2)].
      * apply elem_of_app in H as [H | H]; [by left |].
        apply list_elem_of_singleton in H. subst a. right. split; [by left |].
        exists val. split; [exact Hv |]. apply andb_true_iff in E as [_ E]. by apply Qltb_lt.
      * right. split; [by right | exact H2].
    + intros H. apply IH in H as [H | (H1 & H2)]; [by left |].
      right. split; [by right | exact H2].
  - intros H. apply IH in H as [H | (H1 & H2)]; [by left |].
    right. split; [by right | exact H2].
Qed.

Lemma sum_Q_cons q l : sum_Q (q :: l) = (q + sum_Q l)%Q.
Proof. reflexivity. Qed.

Lemma sum_Q_nonneg (l : list Q) : Forall (fun q => (0 <= q)%Q) l -> (0 <= sum_Q l)%Q.
Proof.
  induction 1 as [|q l Hq _ IH]; [apply Qle_refl |]. rewrite sum_Q_cons. lra.
Qed.

Lemma sum_Q_one (f : LpVar -> Q) xs x :
  (forall z, (0 <= f z)%Q) -> x ∈ xs -> (f x <= sum_Q (f <$> xs))%Q.
Proof.
  intros Hf. induction xs as [|z xs IH]; intros Hx; [inversion Hx |].
  rewrite fmap_cons, sum_Q_cons. apply elem_of_cons in Hx as [-> | Hx].
  - assert (0 <= sum_Q (f <$> xs))%Q by (apply sum_Q_nonneg, Forall_fmap, Forall_forall; intros; apply Hf).
    lra.
  - specialize (IH Hx). specialize (Hf z). lra.
Qed.

(** Two distinct variables of a list weigh no more than the whole list. *)
Lemma sum_Q_two (f : LpVar -> Q) xs x y :
  (forall z, (0 <= f z)%Q) -> x ∈ xs -> y ∈ xs -> x <> y ->
  (f x + f y <= sum_Q (f <$> xs))%Q.
Proof.
  intros Hf. induction xs as [|z xs IH]; intros Hx Hy Hne; [inversion Hx |].
  rewrite fmap_cons, sum_Q_cons. apply elem_of_cons in Hx as [-> | Hx], Hy as [-> | Hy].
  - done.
  - pose proof (sum_Q_one f xs y Hf Hy). lra.
  - pose proof (sum_Q_one f xs x Hf Hx). lra.
  - specialize (IH Hx Hy Hne). specialize (Hf z). lra.
Qed.

Lemma eval_lin_vars v xs : (eval v (lin_var <$> xs, 0%Q) == sum_Q (value_of v <$> xs))%Q.
Proof.
  unfold eval. cbn [fst snd]. induction xs as [|x xs IH]; [reflexivity |].
  rewrite !fmap_cons, !sum_Q_cons. unfold lin_var at 1 2. cbn [fst snd]. lra.
Qed.

Lemma in_bounds_nonneg v : (forall x, in_bounds v x) -> forall x, (0 <= value_of v x)%Q.
Proof.
  intros H x. specialize (H x). destruct x; simpl in H; [| exact H | exact H].
  destruct H as [H | H]; rewrite H; discriminate.
Qed.

Lemma group_constraint_elem (x_vars : gmap Z LpVar) groups g :
  g ∈ groups -> omap (fun cand_id => x_vars !! cand_id) g <> [] ->
  mkConstraint (lin_var <$> omap (fun cand_id => x_vars !! cand_id) g, 0%Q) LpLE ([], 1%Q)
  ∈ group_constraints x_vars groups.
Proof.
  intros Hg Hne. unfold group_constraints. apply list_elem_of_In, in_flat_map.
  exists g. split; [by apply list_elem_of_In |].
  destruct (omap _ g); [done | by left].
Qed.

Lemma reconcile_problem_groups candidates reported_total g0 gs tolerance c :
  c ∈ group_constraints (make_x_vars candidates) (g0 :: gs) ->
  c ∈ constraints (reconcile_problem candidates reported_total (Some (g0 :: gs)) tolerance).
Proof.
  intros H. unfold reconcile_problem.
  destruct reported_total; cbn [constraints]; apply elem_of_app; by right.
Qed.

(** C1.  Whatever the candidates, the target, the duplicate groups and
    the tolerance, a solver that honours its contract makes
    [ilp_reconcile] return a selection that holds at most one id of each
    duplicate group: two selected ids of one group are the same id. *)
Theorem ilp_reconcile_exclusive candidates reported_total groups tolerance g a b :
  solver_sound solve ->
  g ∈ groups -> a ∈ g -> b ∈ g ->
  a ∈ selected_ids (ilp_reconcile solve candidates reported_total (Some groups) tolerance) ->
  b ∈ selected_ids (ilp_reconcile solve candidates reported_total (Some groups) tolerance) ->
  a = b.
Proof.
  intros Hsound Hg Ha Hb. unfold ilp_reconcile.
  destruct candidates as [|c0 cs0]; [intros H; inversion H |].
  destruct (List.filter _ (c0 :: cs0)) as [|c cs] eqn:Hf; [intros H; inversion H |].
  clear Hf. set (valid := c :: cs).
  destruct (solve _) as [st v] eqn:Hsolve.
  destruct st;
    [intros H; inversion H | | intros H; inversion H | intros H; inversion H
     | intros H; inversion H].
  apply Hsound in Hsolve as [Hbounds Hcons].
  destruct (collect_selected (make_x_vars valid) v valid [] 0%Q) as [sel tot] eqn:Hcol.
  simpl. intros Hsa Hsb.
  assert (Hsel : forall z, z ∈ sel ->
            z ∈ id <$> valid /\ (1 # 2 < value_of v (x_var z))%Q).
  { intros z Hz.
    destruct (collect_selected_elem (make_x_vars valid) v valid [] 0%Q z) as [H | (H1 & val & H2 & H3)].
    - by rewrite Hcol.
    - inversion H.
    - split; [exact H1 |]. rewrite x_at_id in H2. unfold value_of. by rewrite H2. }
  destruct (Hsel a Hsa) as [Hai Hav]. destruct (Hsel b Hsb) as [Hbi Hbv].
  destruct (decide (a = b)) as [| Hne]; [assumption | exfalso].
  set (gv := omap (fun cand_id => make_x_vars valid !! cand_id) g).
  assert (Hin : forall z, z ∈ g -> z ∈ id <$> valid -> x_var z ∈ gv).
  { intros z Hz Hzi. apply list_elem_of_omap. exists z. split; [exact Hz |].
    unfold make_x_vars. rewrite make_x_vars_lookup. by rewrite bool_decide_eq_true_2. }
  assert (Hc : holds v (mkConstraint (lin_var <$> gv, 0%Q) LpLE ([], 1%Q))).
  { rewrite Forall_forall in Hcons. apply Hcons.
    destruct groups as [|g0 gs]; [inversion Hg |].
    apply reconcile_problem_groups, group_constraint_elem; [exact Hg |].
    fold gv. intros Hnil. specialize (Hin a Ha Hai). rewrite Hnil in Hin. inversion Hin. }
  unfold holds in Hc. simpl in Hc. rewrite eval_lin_vars in Hc. unfold eval in Hc. simpl in Hc.
  pose proof (sum_Q_two (value_of v) gv (x_var a) (x_var b)
                (in_bounds_nonneg v Hbounds) (Hin a Ha Hai) (Hin b Hb Hbi)) as Hsum.
  assert (x_var a <> x_var b) by congruence.
  specialize (Hsum H). lra.
Qed.

End ReconcileFacts.

Lemma ilp_reconcile_outcomes_witness :
  ilp_reconcile exhaustive_solve [ex_g5] (Some (-1000)%Q) (Some [[2; 3]]) 1%Q
  = mkResult [] 0%Q 1000%Q no_valid_amounts
  /\ ilp_reconcile exhaustive_solve [ex_r1; ex_r2] (Some 1000%Q) None 1%Q
     = mkResult [] 0%Q 1000%Q infeasible.
Proof.
  destruct (ilp_reconcile_outcomes exhaustive_solve [ex_g5] (Some (-1000)%Q) (Some [[2; 3]]) 1%Q)
    as (_ & H2 & _).
  destruct (ilp_reconcile_outcomes exhaustive_solve [ex_r1; ex_r2] (Some 1000%Q) None 1%Q)
    as (_ & _ & H3).
  split.
  - apply H2; [discriminate | repeat constructor].
  - apply H3; [left; by eexists | vm_compute; discriminate].
Defined.

Lemma ilp_reconcile_exclusive_witness :
  selected_ids (ilp_reconcile exhaustive_solve [ex_r1; ex_r2; ex_r3; ex_r4]
                              (Some 350%Q) (Some [[2; 3]]) 1%Q) = [1; 3; 4]
  /\ (3 : Z) = 3.
Proof.
  split; [vm_compute; reflexivity |].
  apply (ilp_reconcile_exclusive exhaustive_solve [ex_r1; ex_r2; ex_r3; ex_r4]
           (Some 350%Q) [[2; 3]] 1%Q [2; 3] 3 3 exhaustive_solve_sound).
  - by left.
  - right. by left.
  - right. by left.
  - vm_compute. right. left.
  - vm_compute. right. left.
Defined.

(* ===================================================================== *)
(** * Further properties: tokens and rows *)
(* ===================================================================== *)

(** ** Comparisons of rationals *)

Lemma Qeq_bool_false a b : Qeq_bool a b = false <-> ~ (a == b)%Q.
Proof.
  rewrite <- not_true_iff_false. by rewrite Qeq_bool_iff.
Qed.

Lemma Qltb_ge a b : Qltb a b = false <-> (b <= a)%Q.
Proof.
  rewrite <- not_true_iff_false, Qltb_lt. split; [apply Qnot_lt_le | apply Qle_not_lt].
Qed.


(** ** Sorting *)

Section SortFacts.
Context {A K : Type} (key : A -> K) (leb : K -> K -> bool).

Lemma insert_sorted_perm x l : insert_sorted key leb x l ≡ₚ x :: l.
Proof.
  induction l as [|y l IH]; simpl; [reflexivity |].
  destruct (leb (key x) (key y)); [reflexivity |].
  rewrite IH. apply Permutation_swap.
Qed.

Lemma sorted_by_perm l : sorted_by key leb l ≡ₚ l.
Proof.
  induction l as [|x l IH]; simpl; [reflexivity |].
  rewrite insert_sorted_perm. by rewrite IH.
Qed.

Hypothesis leb_total : forall a b, leb a b = true \/ leb b a = true.
Hypothesis leb_trans : forall a b c, leb a b = true -> leb b c = true -> leb a c = true.

Lemma insert_sorted_ordered x l :
  ordered (fun a b => leb (key a) (key b) = true) l ->
  ordered (fun a b => leb (key a) (key b) = true) (insert_sorted key leb x l).
Proof.
  induction 1 as [|y l Hy Hl IH]; simpl; [repeat constructor |].
  destruct (leb (key x) (key y)) eqn:E.
  - constructor; [| by constructor]. constructor; [exact E |].
    eapply Forall_impl; [exact Hy |]. simpl. intros z Hz. by eapply leb_trans.
  - constructor; [| exact IH].
    rewrite insert_sorted_perm. constructor; [| exact Hy].
    destruct (leb_total (key x) (key y)); [congruence | assumption].
Qed.

Lemma sorted_by_ordered l :
  ordered (fun a b => leb (key a) (key b) = true) (sorted_by key leb l).
Proof.
  induction l as [|x l IH]; simpl; [constructor | by apply insert_sorted_ordered].
Qed.

End SortFacts.

Lemma Zleb_total a b : (a <=? b) = true \/ (b <=? a) = true.
Proof. rewrite !Z.leb_le. lia. Qed.

Lemma Zleb_trans a b c : (a <=? b) = true -> (b <=? c) = true -> (a <=? c) = true.
Proof. rewrite !Z.leb_le. lia. Qed.

(** ** Rows *)

(** The clustering loop: what it adds to the rows it has. *)
Lemma cluster_loop_spec thr toks : forall current_row current_y rows,
  0 <= thr ->
  current_row <> [] ->
  ordered (fun a b => t_top a <= t_top b) toks ->
  Forall (fun t => current_y <= t_top t <= current_y + thr) current_row ->
  Forall (fun t => current_y <= t_top t) toks ->
  exists new,
    cluster_loop thr toks current_row current_y rows = rows ++ new
    /\ concat new ≡ₚ current_row ++ toks
    /\ Forall (fun row => row <> []) new
    /\ Forall (ordered (fun a b => t_left a <= t_left b)) new
    /\ Forall (fun row => forall a b, a ∈ row -> b ∈ row ->
                                      Z.abs (t_top a - t_top b) <= thr) new.
Proof.
  intros current_row current_y rows Hthr.
  revert current_row current_y rows.
  assert (Hrow : forall row y,
             row <> [] ->
             Forall (fun t => y <= t_top t <= y + thr) row ->
             sorted_by t_left Z.leb row <> []
             /\ ordered (fun a b => t_left a <= t_left b) (sorted_by t_left Z.leb row)
             /\ (forall a b, a ∈ sorted_by t_left Z.leb row -> b ∈ sorted_by t_left Z.leb row ->
                    Z.abs (t_top a - t_top b) <= thr)).
  { intros row y Hne Hin. split; [| split].
    - intros Hnil. apply Hne. apply Permutation_nil_r.
      rewrite <- Hnil. symmetry. apply sorted_by_perm.
    - pose proof (sorted_by_ordered t_left Z.leb Zleb_total Zleb_trans row) as Ho.
      induction Ho as [|x l Hx _ IH]; constructor; [| exact IH].
      eapply Forall_impl; [exact Hx |]. simpl. intros z. by rewrite Z.leb_le.
    - intros a b Ha Hb. rewrite sorted_by_perm in Ha, Hb.
      rewrite Forall_forall in Hin. pose proof (Hin a Ha). pose proof (Hin b Hb). lia. }
  induction toks as [|token toks IH]; intros current_row current_y rows Hne Hord Hcur Htoks.
  - simpl. destruct current_row as [|t0 r]; [done |].
    destruct (Hrow (t0 :: r) current_y Hne Hcur) as (H1 & H2 & H3).
    exists [sorted_by t_left Z.leb (t0 :: r)]. split; [reflexivity |].
    split; [cbn [concat]; rewrite !app_nil_r; apply sorted_by_perm |].
    repeat split; by repeat constructor.
  - cbn [cluster_loop].
    inversion Hord as [|? ? Hhd Htl]; subst.
    apply Forall_cons in Htoks as [Ht Htoks].
    destruct (Z.abs (t_top token - current_y) <=? thr) eqn:E.
    + apply Z.leb_le in E.
      destruct (IH (current_row ++ [token]) current_y rows) as (new & N1 & N2 & N3 & N4 & N5).
      * by destruct current_row.
      * exact Htl.
      * apply Forall_app. split; [exact Hcur |]. constructor; [lia | constructor].
      * exact Htoks.
      * exists new. split; [exact N1 |]. split; [| done].
        rewrite N2, <- app_assoc. reflexivity.
    + apply Z.leb_gt in E.
      destruct (IH [token] (t_top token) (rows ++ [sorted_by t_left Z.leb current_row]))
        as (new & N1 & N2 & N3 & N4 & N5).
      * done.
      * exact Htl.
      * constructor; [lia | constructor].
      * exact Hhd.
      * destruct (Hrow current_row current_y Hne Hcur) as (H1 & H2 & H3).
        exists (sorted_by t_left Z.leb current_row :: new).
        split; [by rewrite N1, <- app_assoc |].
        split; [cbn [concat]; by rewrite N2, sorted_by_perm |].
        repeat split; by constructor.
Qed.

Lemma cluster_rows_facts tokens y_threshold :
  0 <= y_threshold ->
  concat (cluster_tokens_into_rows tokens y_threshold) ≡ₚ tokens
  /\ Forall (fun row => row <> []) (cluster_tokens_into_rows tokens y_threshold)
  /\ Forall (ordered (fun a b => t_left a <= t_left b))
            (cluster_tokens_into_rows tokens y_threshold)
  /\ Forall (fun row => forall a b, a ∈ row -> b ∈ row ->
                                    Z.abs (t_top a - t_top b) <= y_threshold)
            (cluster_tokens_into_rows tokens y_threshold).
Proof.
  intros Hthr. unfold cluster_tokens_into_rows.
  pose proof (sorted_by_perm t_top Z.leb tokens) as Hperm.
  pose proof (sorted_by_ordered t_top Z.leb Zleb_total Zleb_trans tokens) as Hord.
  destruct (sorted_by t_top Z.leb tokens) as [|t0 rest].
  - apply Permutation_nil_l in Hperm. subst. repeat split; constructor.
  - inversion Hord as [|? ? Hhd Htl]; subst.
    destruct (cluster_loop_spec y_threshold rest [t0] (t_top t0) []) as (new & N1 & N2 & N3).
    + exact Hthr.
    + done.
    + clear -Htl. induction Htl as [|x l Hx _ IH]; constructor; [| exact IH].
      eapply Forall_impl; [exact Hx |]. simpl. intros z. by rewrite Z.leb_le.
    + constructor; [lia | constructor].
    + eapply Forall_impl; [exact Hhd |]. simpl. intros z. by rewrite Z.leb_le.
    + rewrite N1, app_nil_l. split; [by rewrite N2 | exact N3].
Qed.

(** X1.  [cluster_tokens_into_rows] loses and repeats no token, makes no
    empty row, orders every row from left to right, and puts two tokens in
    one row only if their tops are at most [y_threshold] apart. *)
Theorem cluster_rows_partition tokens y_threshold :
  0 <= y_threshold ->
  concat (cluster_tokens_into_rows tokens y_threshold) ≡ₚ tokens
  /\ Forall (fun row => row <> []) (cluster_tokens_into_rows tokens y_threshold)
  /\ Forall (ordered (fun a b => t_left a <= t_left b))
            (cluster_tokens_into_rows tokens y_threshold)
  /\ Forall (fun row => forall a b, a ∈ row -> b ∈ row ->
                                    Z.abs (t_top a - t_top b) <= y_threshold)
            (cluster_tokens_into_rows tokens y_threshold).
Proof. apply cluster_rows_facts. Qed.

Lemma cluster_rows_partition_witness :
  concat (cluster_tokens_into_rows ex_row_plain 20) ≡ₚ ex_row_plain
  /\ Forall (fun row => row <> []) (cluster_tokens_into_rows ex_row_plain 20)
  /\ Forall (ordered (fun a b => t_left a <= t_left b))
            (cluster_tokens_into_rows ex_row_plain 20)
  /\ Forall (fun row => forall a b, a ∈ row -> b ∈ row ->
                                    Z.abs (t_top a - t_top b) <= 20)
            (cluster_tokens_into_rows ex_row_plain 20).
Proof. apply (cluster_rows_partition ex_row_plain 20). lia. Defined.

Lemma elem_of_concat {A : Type} (x : A) (ls : list (list A)) :
  x ∈ concat ls <-> exists l, l ∈ ls /\ x ∈ l.
Proof.
  rewrite list_elem_of_In, in_concat. split; intros (l & H1 & H2); exists l;
    by rewrite ?list_elem_of_In in *.
Qed.

Lemma mean_Z_lower lo (l : list Z) :
  l <> [] -> Forall (fun z => lo <= z) l ->
  (inject_Z lo <= inject_Z (sum_Z l) / Q_of_nat (length l))%Q.
Proof.
  intros Hne Hall.
  assert (Hsum : lo * Z.of_nat (length l) <= sum_Z l).
  { clear Hne. induction Hall as [|z l Hz _ IH]; [simpl; lia |].
    cbn [length sum_Z foldr]. fold (sum_Z l). lia. }
  apply Qle_shift_div_l.
  - unfold Q_of_nat. rewrite <- (Zlt_Qlt 0). destruct l; [done | simpl; lia].
  - unfold Q_of_nat. rewrite <- inject_Z_mult, <- Zle_Qle. exact Hsum.
Qed.

Section TextCandidates.
Context {db : UnicodeDB}.

Lemma extract_line_item_conf row item lo :
  Forall (fun t => lo <= t_conf t) row ->
  extract_line_item_from_row row = Some item ->
  (inject_Z lo <= li_conf item)%Q.
Proof.
  intros Hall. unfold extract_line_item_from_row.
  destruct row as [|t0 ts]; [discriminate |].
  destruct (classify_tokens (t0 :: ts) [] []) as [ds acs].
  destruct acs as [|ac acs]; [discriminate |].
  destruct (choose_amount (ac :: acs)); [| discriminate].
  intros [= <-].
  change (inject_Z lo <= inject_Z (sum_Z (t_conf <$> t0 :: ts))
                         / Q_of_nat (length (t0 :: ts)))%Q.
  rewrite <- (length_fmap t_conf (t0 :: ts)).
  apply mean_Z_lower; [done |]. by apply Forall_fmap.
Qed.

(** The candidates that the row loop appends. *)
Lemma candidates_of_rows_text page_no rows : forall candidate_id cands,
  Forall (Forall (fun t => 30 <= t_conf t)) rows ->
  Forall (text_candidate page_no) cands ->
  Forall (text_candidate page_no) (candidates_of_rows page_no rows candidate_id cands).
Proof.
  induction rows as [|row rows IH]; intros cid cands Hrows Hc; cbn [candidates_of_rows];
    [exact Hc |].
  apply Forall_cons in Hrows as [Hrow Hrows].
  destruct (extract_line_item_from_row row) as [item|] eqn:Hitem; [| by apply IH].
  destruct (length (li_desc item) <? 3)%nat eqn:Hlen; [by apply IH |].
  destruct (negb (Qeq_bool (li_amount item) 0) && Qltb 999999999 (Qabs (li_amount item)));
    [by apply IH |].
  match goal with |- context [existsb ?f total_keywords] =>
    destruct (existsb f total_keywords) end; [by apply IH |].
  apply IH; [exact Hrows |].
  apply Forall_app. split; [exact Hc |]. constructor; [| constructor].
  apply Nat.ltb_ge in Hlen.
  repeat split; simpl; try done.
  change 30%Q with (inject_Z 30). by eapply extract_line_item_conf.
Qed.

Lemma extract_candidates_text page_no tokens :
  Forall (text_candidate page_no) (extract_candidates_text_based tokens page_no).
Proof.
  unfold extract_candidates_text_based. destruct tokens as [|t0 ts]; [constructor |].
  apply candidates_of_rows_text; [| constructor].
  set (kept := List.filter (fun t => 30 <=? t_conf t) (t0 :: ts)).
  destruct (cluster_rows_facts kept 20) as (Hperm & _); [lia |].
  apply Forall_forall. intros row Hrow. apply Forall_forall. intros t Ht.
  assert (Hin : t ∈ kept).
  { rewrite <- Hperm. apply elem_of_concat. by exists row. }
  apply list_elem_of_In, List.filter_In in Hin as [_ Hin]. by apply Z.leb_le.
Qed.

Lemma extract_pages_text pages : forall page_no cands,
  Forall (fun c => is_Some (amount c)) cands ->
  Forall (fun c => is_Some (amount c)) (extract_pages page_no pages cands).
Proof.
  induction pages as [|tokens pages IH]; intros page_no cands Hc; simpl; [exact Hc |].
  apply IH. apply Forall_app. split; [exact Hc |].
  eapply Forall_impl; [apply extract_candidates_text |].
  intros c H. apply H.
Qed.

End TextCandidates.

Lemma mean_Z_upper hi (l : list Z) :
  l <> [] -> Forall (fun z => z <= hi) l ->
  (inject_Z (sum_Z l) / Q_of_nat (length l) <= inject_Z hi)%Q.
Proof.
  intros Hne Hall.
  assert (Hsum : sum_Z l <= hi * Z.of_nat (length l)).
  { clear Hne. induction Hall as [|z l Hz _ IH]; [simpl; lia |].
    cbn [length sum_Z foldr]. fold (sum_Z l). lia. }
  apply Qle_shift_div_r.
  - unfold Q_of_nat. rewrite <- (Zlt_Qlt 0). destruct l; [done | simpl; lia].
  - unfold Q_of_nat. rewrite <- inject_Z_mult, <- Zle_Qle. exact Hsum.
Qed.

Section TokenFacts.
Context {db : UnicodeDB}.

Lemma tokens_loop_spec ocr_data : forall tokens confidences,
  confidences = t_conf <$> tokens ->
  Forall (fun t => t_text t <> [] /\ 0 <= t_conf t) tokens ->
  let r := tokens_loop ocr_data tokens confidences in
  r.2 = t_conf <$> r.1
  /\ Forall (fun t => t_text t <> [] /\ 0 <= t_conf t) r.1
  /\ forall hi, Forall (fun t => t_conf t <= hi) tokens ->
                Forall (fun t => t_conf t <= hi) ocr_data ->
                Forall (fun t => t_conf t <= hi) r.1.
Proof.
  induction ocr_data as [|box rest IH]; intros tokens confidences Hc Ht; simpl.
  - repeat split; [exact Hc | exact Ht | by intros].
  - destruct (bool_decide (strip (t_text box) = [])) eqn:E1; simpl.
    + destruct (IH tokens confidences Hc Ht) as (H1 & H2 & H3).
      repeat split; [exact H1 | exact H2 |].
      intros hi Hhi Hd. apply Forall_cons in Hd as [_ Hd]. by apply H3.
    + apply bool_decide_eq_false in E1.
      destruct (t_conf box <? 0) eqn:E2.
      * destruct (IH tokens confidences Hc Ht) as (H1 & H2 & H3).
        repeat split; [exact H1 | exact H2 |].
        intros hi Hhi Hd. apply Forall_cons in Hd as [_ Hd]. by apply H3.
      * apply Z.ltb_ge in E2.
        match goal with |- context [tokens ++ [?t]] => set (tok := t) end.
        destruct (IH (tokens ++ [tok]) (confidences ++ [t_conf box])) as (H1 & H2 & H3).
        { rewrite fmap_app, Hc. reflexivity. }
        { apply Forall_app. split; [exact Ht |]. constructor; [by split | constructor]. }
        repeat split; [exact H1 | exact H2 |].
        intros hi Hhi Hd. apply Forall_cons in Hd as [Hb Hd]. apply H3; [| exact Hd].
        apply Forall_app. split; [exact Hhi |]. by constructor.
Qed.

(** X2.  The tokens that [ocr_image_to_tokens] returns have a non-empty
    text and a confidence that is not negative, and the average confidence
    it reports lies between 0 and the greatest confidence of the engine's
    boxes (0 when no token is kept). *)
Theorem ocr_tokens_valid full_text ocr_data hi :
  0 <= hi ->
  Forall (fun box => t_conf box <= hi) ocr_data ->
  Forall (fun t => t_text t <> [] /\ 0 <= t_conf t <= hi)
         (ocr_tokens (ocr_result_of full_text ocr_data))
  /\ (0 <= ocr_avg_conf (ocr_result_of full_text ocr_data) <= inject_Z hi)%Q.
Proof.
  intros Hhi Hd. unfold ocr_result_of.
  destruct (tokens_loop_spec ocr_data [] [] eq_refl) as (H1 & H2 & H3); [constructor |].
  specialize (H3 hi (Forall_nil_2 _) Hd).
  destruct (tokens_loop ocr_data [] []) as [tokens confidences].
  cbn [fst snd] in H1, H2, H3. subst confidences.
  cbn [ocr_tokens ocr_avg_conf]. split.
  - rewrite Forall_forall in H2, H3. apply Forall_forall. intros t Hin.
    destruct (H2 t Hin). specialize (H3 t Hin). repeat split; assumption.
  - destruct tokens as [|t ts].
    + split; [apply Qle_refl |]. rewrite <- (Zle_Qle 0). exact Hhi.
    + split.
      * apply (mean_Z_lower 0 (t_conf <$> t :: ts)); [done |].
        apply Forall_fmap. eapply Forall_impl; [exact H2 |]. by intros ? [? ?].
      * apply (mean_Z_upper hi (t_conf <$> t :: ts)); [done |]. by apply Forall_fmap.
Qed.

Lemma best_numeric_loop_last tokens : forall acc,
  best_numeric_loop tokens acc
  = match last (parsed_amounts tokens) with
    | Some a => Some a
    | None => acc
    end.
Proof.
  induction tokens as [|t ts IH]; intros acc; [reflexivity |].
  cbn [best_numeric_loop]. unfold parsed_amounts. cbn [omap list_omap].
  fold (parsed_amounts ts).
  destruct (extract_amount_from_cell_text (t_text t)) as [a|]; rewrite IH.
  - rewrite last_cons. destruct (last (parsed_amounts ts)); reflexivity.
  - reflexivity.
Qed.

(** X3.  [extract_best_numeric_in_row] returns the amount of the last
    token that parses as an amount, and [None] exactly when no token
    does. *)
Theorem best_numeric_is_last tokens :
  extract_best_numeric_in_row tokens = last (parsed_amounts tokens)
  /\ (extract_best_numeric_in_row tokens = None <-> parsed_amounts tokens = []).
Proof.
  assert (H : extract_best_numeric_in_row tokens = last (parsed_amounts tokens)).
  { destruct tokens as [|t ts]; [reflexivity |].
    unfold extract_best_numeric_in_row. rewrite best_numeric_loop_last.
    destruct (last (parsed_amounts (t :: ts))); reflexivity. }
  split; [exact H |]. rewrite H. apply last_None.
Qed.

Lemma nearby_amount_spec n : forall tokens a,
  nearby_amount n tokens = Some a ->
  (0 < a)%Q /\ a ∈ parsed_amounts tokens.
Proof.
  induction n as [|n IH]; intros tokens a; [discriminate |].
  destruct tokens as [|t ts]; [discriminate |].
  cbn [nearby_amount]. unfold parsed_amounts. cbn [omap list_omap]. fold (parsed_amounts ts).
  destruct (extract_amount_from_cell_text (t_text t)) as [x|].
  - destruct (Qltb 0 x) eqn:E.
    + intros [= <-]. split; [by apply Qltb_lt | by left].
    + intros H. apply IH in H as [H1 H2]. split; [exact H1 | by right].
  - apply IH.
Qed.

(** X4.  What [extract_reported_total_text_based] returns is the positive
    amount of one of the tokens, and it returns an amount only if some
    token carries a total keyword. *)
Theorem reported_total_positive tokens a :
  extract_reported_total_text_based tokens = Some a ->
  (0 < a)%Q
  /\ a ∈ parsed_amounts tokens
  /\ Exists (fun t => has_total_keyword t = true) tokens.
Proof.
  unfold extract_reported_total_text_based.
  assert (H : reported_total_loop tokens = Some a ->
              (0 < a)%Q /\ a ∈ parsed_amounts tokens
              /\ Exists (fun t => has_total_keyword t = true) tokens).
  { induction tokens as [|t ts IH]; [discriminate |].
    cbn [reported_total_loop].
    assert (Hsub : forall x, x ∈ parsed_amounts ts -> x ∈ parsed_amounts (t :: ts)).
    { intros x Hx. unfold parsed_amounts. cbn [omap list_omap]. fold (parsed_amounts ts).
      destruct (extract_amount_from_cell_text (t_text t)); [by right | exact Hx]. }
    destruct (has_total_keyword t) eqn:Hk.
    - destruct (nearby_amount 5 (t :: ts)) as [x|] eqn:Hn.
      + intros [= <-]. apply nearby_amount_spec in Hn as [H1 H2].
        repeat split; [exact H1 | exact H2 | by left].
      + intros H. apply IH in H as (H1 & H2 & H3).
        repeat split; [exact H1 | by apply Hsub | by right].
    - intros H. apply IH in H as (H1 & H2 & H3).
      repeat split; [exact H1 | by apply Hsub | by right]. }
  destruct tokens; [discriminate | exact H].
Qed.

(** X5.  Every candidate that [extract_candidates_text_based] returns is
    on the page asked for and has an amount, a box, a description of at
    least 3 characters and a confidence of at least 30; the candidates are
    numbered 1, 2, ... in the order of the list. *)
Theorem text_page_candidates tokens page_no :
  Forall (text_candidate page_no) (extract_candidates_text_based tokens page_no)
  /\ id <$> extract_candidates_text_based tokens page_no
     = (fun k => 1 + Z.of_nat k)
       <$> seq 0 (length (extract_candidates_text_based tokens page_no)).
Proof.
  split; [apply extract_candidates_text |].
  unfold extract_candidates_text_based. destruct tokens as [|t0 ts]; [reflexivity |].
  match goal with |- context [candidates_of_rows page_no ?rows 1 []] =>
    destruct (candidates_of_rows_ids page_no rows 1 []) as [n Hn];
    set (out := candidates_of_rows page_no rows 1 []) in * end.
  simpl in Hn. rewrite Hn. do 2 f_equal.
  apply (f_equal length) in Hn. rewrite !length_fmap, length_seq in Hn. done.
Qed.

(** X6.  The sign of an extracted amount: a text without a digit gives
    no amount, and a text with the debit mark, or with a parenthesised
    number once the currency marks are removed, never gives an amount
    above 0. *)
Theorem extract_amount_sign txt :
  (Forall (fun c => is_digit c = false) txt -> extract_amount_from_cell_text txt = None)
  /\ (forall a, extract_amount_from_cell_text txt = Some a ->
        is_Some (re_search debit_re txt)
        \/ is_Some (re_search paren_re (re_sub_class currency_class txt)) ->
        (a <= 0)%Q).
Proof.
  split; [apply extract_amount_no_digit |].
  intros a. unfold extract_amount_from_cell_text.
  destruct txt as [|c0 txt0]; [discriminate |].
  set (txt := c0 :: txt0).
  destruct (re_search paren_re (re_sub_class currency_class txt)) as [m|].
  - destruct (last _) as [amount_str|]; [| discriminate].
    destruct (py_float _) as [x|]; [| discriminate].
    intros [= <-] _.
    assert (Hneg : (- Qabs x <= 0)%Q) by (pose proof (Qabs_nonneg x); lra).
    destruct (bool_decide _ && Qltb 0 (- Qabs x)) eqn:E; [| exact Hneg].
    apply andb_true_iff in E as [_ E]. apply Qltb_lt in E. lra.
  - destruct (last _) as [amount_str|]; [| discriminate].
    destruct (py_float _) as [x|]; [| discriminate].
    intros [= <-] [Hd | [? Hp]]; [| discriminate].
    rewrite bool_decide_eq_true_2 by exact Hd. cbn [andb].
    destruct (Qltb 0 x) eqn:E.
    + apply Qltb_lt in E. lra.
    + by apply Qltb_ge.
Qed.

End TokenFacts.

(* ===================================================================== *)
(** * Further properties: wrapped rows *)
(* ===================================================================== *)

Lemma _is_wrapped_row_amount m c : is_Some (amount c) -> _is_wrapped_row m c = false.
Proof. intros [a Ha]. unfold _is_wrapped_row. by rewrite Ha. Qed.

Lemma merge_loop_all_amounts cs : forall i,
  Forall (fun c => is_Some (amount c)) cs -> merge_loop i cs ∅ [] = cs.
Proof.
  induction cs as [|c cs IH]; intros i H; [reflexivity |].
  apply Forall_cons in H as [_ H]. cbn [merge_loop].
  rewrite bool_decide_eq_false_2 by apply not_elem_of_empty.
  assert (Hla : look_ahead c (S i) cs ∅ = (c, ∅)).
  { destruct cs as [|n cs]; [reflexivity |]. cbn [look_ahead].
    apply Forall_cons in H as [Hn _]. by rewrite _is_wrapped_row_amount. }
  rewrite Hla, merge_loop_app. cbn [app]. f_equal. by apply IH.
Qed.

(** X7.  In the pipeline that [extract_bill_data] runs, step 4 changes
    nothing: every candidate of the text mode has an amount, so
    [merge_wrapped_rows] finds no wrapped row to absorb. *)
Theorem merge_after_text_mode_is_identity {db : UnicodeDB} pages :
  merge_wrapped_rows (all_candidates_of_run pages) = all_candidates_of_run pages.
Proof.
  apply merge_loop_all_amounts. apply extract_pages_text. constructor.
Qed.

Lemma ocr_tokens_valid_witness :
  Forall (fun t => t_text t <> [] /\ 0 <= t_conf t <= 100)
         (ocr_tokens (@ocr_result_of caseless_db (cp "Widget 250.00") ex_boxes))
  /\ (0 <= ocr_avg_conf (@ocr_result_of caseless_db (cp "Widget 250.00") ex_boxes)
      <= inject_Z 100)%Q.
Proof.
  apply (@ocr_tokens_valid caseless_db (cp "Widget 250.00") ex_boxes 100).
  - lia.
  - repeat constructor; simpl; lia.
Defined.

Lemma reported_total_positive_witness :
  (0 < 350)%Q
  /\ 350%Q ∈ @parsed_amounts caseless_db ex_total_tokens
  /\ Exists (fun t => @has_total_keyword caseless_db t = true) ex_total_tokens.
Proof.
  apply (@reported_total_positive caseless_db ex_total_tokens 350%Q).
  vm_compute. reflexivity.
Defined.

Lemma extract_amount_sign_witness :
  @extract_amount_from_cell_text caseless_db (cp "Total due") = None
  /\ (- (469 # 2) <= 0)%Q.
Proof.
  destruct (@extract_amount_sign caseless_db (cp "Total due")) as [H1 _].
  destruct (@extract_amount_sign caseless_db (cp "(234.50) Dr")) as [_ H2].
  split.
  - apply H1. repeat constructor.
  - apply (H2 (- (469 # 2))%Q).
    + vm_compute. reflexivity.
    + left. vm_compute. by eexists.
Defined.

(** The look-ahead, with what it absorbs. *)
Lemma look_ahead_run rest : forall m j skip,
  exists k, (k <= length rest)%nat
    /\ (look_ahead m j rest skip).1 = fold_left _merge_two_candidates (take k rest) m
    /\ (forall x, x ∈ (look_ahead m j rest skip).2 <-> x ∈ skip \/ (j <= x < j + k)%nat)
    /\ Forall (fun w => amount w = None) (take k rest).
Proof.
  induction rest as [|n rest IH]; intros m j skip; cbn [look_ahead].
  - exists 0%nat. split; [simpl; lia |]. split; [reflexivity |]. split; [| constructor].
    intros x. split; [by left | intros [? | ?]; [done | lia]].
  - destruct (_is_wrapped_row m n) eqn:Hw.
    + destruct (IH (_merge_two_candidates m n) (S j) ({[ j ]} ∪ skip))
        as (k & Hk & Hm & Hs & Hn).
      exists (S k). split; [simpl; lia |]. split; [exact Hm |]. split.
      * intros x. rewrite Hs, elem_of_union, elem_of_singleton. split.
        -- intros [[-> | Hx] | Hx]; [right; lia | by left | right; lia].
        -- intros [Hx | Hx]; [left; by right |].
           destruct (decide (x = j)) as [-> | Hne]; [left; by left | right; lia].
      * cbn [take]. constructor; [| exact Hn].
        unfold _is_wrapped_row in Hw. by destruct (amount n).
    + exists 0%nat. split; [lia |]. split; [reflexivity |]. split; [| constructor].
      intros x. split; [by left | intros [? | ?]; [done | lia]].
Qed.

Lemma merge_loop_merged_from n : forall cs i skip,
  (length cs <= n)%nat ->
  (forall x, x ∈ skip -> (x < i)%nat) ->
  merged_from cs (merge_loop i cs skip []).
Proof.
  induction n as [|n IH]; intros cs i skip Hlen Hskip.
  - destruct cs; [constructor | simpl in Hlen; lia].
  - destruct cs as [|c rest]; [constructor |]. cbn [merge_loop].
    rewrite bool_decide_eq_false_2 by (intros H; apply Hskip in H; lia).
    destruct (look_ahead_run rest c (S i) skip) as (k & Hk & Hm & Hs & Hn).
    destruct (look_ahead c (S i) rest skip) as [m skip']. cbn [fst snd] in Hm, Hs.
    rewrite merge_loop_app. cbn [app].
    rewrite (merge_loop_skip k) by (intros x Hx; apply Hs; right; lia).
    rewrite <- (take_drop k rest) at 1. rewrite Hm.
    constructor; [exact Hn |].
    apply IH.
    + rewrite length_drop. simpl in Hlen. lia.
    + intros x Hx. apply Hs in Hx as [Hx | Hx]; [apply Hskip in Hx; lia | lia].
Qed.

(** [merge_wrapped_rows] folds each run of absorbed rows into the
    candidate before it. *)
Lemma merge_wrapped_rows_merged_from cs : merged_from cs (merge_wrapped_rows cs).
Proof.
  apply (merge_loop_merged_from (length cs)); [lia |].
  intros x Hx. by apply not_elem_of_empty in Hx.
Qed.

Lemma merge_chain_fields ws : forall c,
  id (fold_left _merge_two_candidates ws c) = id c
  /\ page (fold_left _merge_two_candidates ws c) = page c
  /\ amount (fold_left _merge_two_candidates ws c) = amount c
  /\ merged_ids (fold_left _merge_two_candidates ws c) = merged_ids c.
Proof.
  induction ws as [|w ws IH]; intros c; [done |].
  cbn [fold_left]. destruct (IH (_merge_two_candidates c w)) as (H1 & H2 & H3 & H4).
  rewrite H1, H2, H3, H4. unfold _merge_two_candidates.
  destruct (desc w), (desc c), (bbox c), (bbox w);
    destruct (Qltb 0 (conf c) && Qltb 0 (conf w)); done.
Qed.

Lemma filter_no_amount ws :
  Forall (fun w => amount w = None) ws -> List.filter has_amount ws = [].
Proof.
  induction 1 as [|w ws Hw _ IH]; [reflexivity |]. simpl.
  unfold has_amount at 1. rewrite Hw.
  rewrite bool_decide_eq_false_2 by (by intros [? ?]). exact IH.
Qed.

(** X8.  [merge_wrapped_rows] never drops or changes an item that has an
    amount: the candidates with an amount come out in the same order with
    the same id, page and amount.  The output is no longer than the input
    and its ids are ids of the input, in order. *)
Theorem merge_keeps_amounts cs :
  (fun c => (id c, page c, amount c)) <$> List.filter has_amount (merge_wrapped_rows cs)
  = (fun c => (id c, page c, amount c)) <$> List.filter has_amount cs
  /\ (length (merge_wrapped_rows cs) <= length cs)%nat
  /\ id <$> merge_wrapped_rows cs `sublist_of` id <$> cs.
Proof.
  pose proof (merge_wrapped_rows_merged_from cs) as H.
  induction H as [|c ws rest out Hws _ (IH1 & IH2 & IH3)]; [done |].
  destruct (merge_chain_fields ws c) as (F1 & F2 & F3 & _).
  split; [| split].
  - cbn [List.filter]. rewrite List.filter_app, (filter_no_amount ws Hws).
    cbn [app].
    assert (Hh : has_amount (fold_left _merge_two_candidates ws c) = has_amount c)
      by (unfold has_amount; by rewrite F3).
    rewrite Hh. destruct (has_amount c); [| exact IH1].
    rewrite !fmap_cons, IH1, F1, F2, F3. reflexivity.
  - cbn [length]. rewrite length_app. lia.
  - rewrite !fmap_cons, fmap_app, F1. apply sublist_skip.
    by apply sublist_inserts_l.
Qed.

Lemma conf_step_within lo hi a w :
  (lo <= a <= hi)%Q -> (lo <= w <= hi)%Q -> (lo <= conf_step a w <= hi)%Q.
Proof.
  intros Ha Hw. unfold conf_step. destruct (Qltb 0 a && Qltb 0 w); [| exact Ha].
  unfold avg2. split.
  - apply Qle_shift_div_l; [reflexivity | lra].
  - apply Qle_shift_div_r; [reflexivity | lra].
Qed.

(** X9.  [merge_wrapped_rows] keeps confidences within the range of its
    input: if every candidate's confidence lies between [lo] and [hi], so
    does every confidence of the result. *)
Theorem merge_keeps_conf_range cs lo hi :
  Forall (conf_within lo hi) cs -> Forall (conf_within lo hi) (merge_wrapped_rows cs).
Proof.
  pose proof (merge_wrapped_rows_merged_from cs) as H.
  induction H as [|c ws rest out Hws _ IH]; intros Hall; [constructor |].
  apply Forall_cons in Hall as [Hc Hall]. apply Forall_app in Hall as [Hw Hr].
  constructor; [| by apply IH].
  unfold conf_within. rewrite conf_merge_chain.
  clear -Hc Hw. revert c Hc. unfold conf_within.
  induction Hw as [|w ws Hw0 _ IHw]; intros c Hc; [exact Hc |].
  cbn [fmap list_fmap fold_left].
  assert (Hstep := conf_step_within lo hi (conf c) (conf w) Hc Hw0).
  set (c' := set_conf (conf_step (conf c) (conf w)) c).
  exact (IHw c' Hstep).
Qed.

Lemma merge_keeps_conf_range_witness :
  Forall (conf_within 0 100) (merge_wrapped_rows [ex_c1; ex_c2; ex_c3]).
Proof.
  apply (merge_keeps_conf_range [ex_c1; ex_c2; ex_c3] 0 100).
  repeat constructor; discriminate.
Defined.

(* ===================================================================== *)
(** * Further properties: table mode *)
(* ===================================================================== *)

Section TableFacts.
Context {db : UnicodeDB}.

Lemma rows_loop_candidates shape ocr page_no all_rows rows : forall cols counter cands,
  (forall row, row ∈ rows -> row ∈ all_rows) ->
  Forall (table_candidate shape all_rows page_no) cands ->
  let r := rows_loop shape ocr page_no rows cols counter cands in
  Forall (table_candidate shape all_rows page_no) r.1
  /\ (length r.1 <= length cands + length rows)%nat.
Proof.
  induction rows as [|[row_start row_end] rows IH]; intros cols counter cands Hsub Hc;
    cbn [rows_loop].
  - split; [exact Hc | simpl; lia].
  - assert (Hsub' : forall row, row ∈ rows -> row ∈ all_rows)
      by (intros row H; apply Hsub; by right).
    destruct ((row_start <? 0) || (row_end >? shape.1)) eqn:E1.
    { destruct (IH cols counter cands Hsub' Hc) as [H1 H2].
      split; [exact H1 | cbn [length]; lia]. }
    destruct (row_end - row_start <? 5) eqn:E2.
    { destruct (IH cols counter cands Hsub' Hc) as [H1 H2].
      split; [exact H1 | cbn [length]; lia]. }
    apply orb_false_iff in E1 as [E1a E1b].
    apply Z.ltb_ge in E1a, E2. rewrite Z.gtb_ltb in E1b. apply Z.ltb_ge in E1b.
    set (cols' := match cols with [] => [(0, shape.2)] | _ => cols end).
    destruct (cells_loop shape ocr (row_start, row_end) 0 cols' [] [] [])
      as [[cell_texts cell_confidences] numeric_cells].
    match goal with |- context [if ?b then _ else _] => destruct b eqn:E3 end.
    + match goal with |- context [cands ++ [?c]] => set (cand := c) end.
      destruct (IH cols' (counter + 1) (cands ++ [cand]) Hsub') as [H1 H2].
      * apply Forall_app. split; [exact Hc |]. constructor; [| constructor].
        split; [reflexivity |]. split; [reflexivity |]. split.
        -- apply orb_true_iff in E3 as [E3 | E3].
           ++ left. apply negb_true_iff, bool_decide_eq_false in E3. exact E3.
           ++ right. by apply bool_decide_eq_true in E3.
        -- eexists (row_start, row_end), _, _.
           split; [apply Hsub; by left |]. cbn [fst snd]. repeat split; try lia.
      * split; [exact H1 |]. rewrite length_app in H2. cbn [length] in *. lia.
    + destruct (IH cols' (counter + 1) cands Hsub' Hc) as [H1 H2].
      split; [exact H1 | cbn [length]; lia].
Qed.

(** X10.  [assemble_candidates_from_table] raises [ValueError] on an empty
    image, and leaves the id counter alone then.  Otherwise every
    candidate it returns is on the page asked for, has a description or an
    amount, and is boxed by one of the rows given, one that fits the image
    and is at least 5 pixels high; there is at most one candidate per
    row. *)
Theorem table_candidates_valid shape ocr rows cols page_no counter :
  (shape.1 * shape.2 = 0 ->
     assemble_candidates_from_table shape ocr rows cols page_no counter
     = (Raise ValueError, counter))
  /\ (forall cands counter',
        assemble_candidates_from_table shape ocr rows cols page_no counter
        = (Ok cands, counter') ->
        Forall (table_candidate shape rows page_no) cands
        /\ (length cands <= length rows)%nat).
Proof.
  unfold assemble_candidates_from_table. split.
  - intros H. replace (shape.1 * shape.2 * 3) with 0 by lia. reflexivity.
  - intros cands counter'.
    destruct (shape.1 * shape.2 * 3 =? 0); [discriminate |].
    destruct rows as [|r rows]; [intros [= <- <-]; split; [constructor | simpl; lia] |].
    pose proof (rows_loop_candidates shape ocr page_no (r :: rows) (r :: rows) cols counter [])
      as H.
    destruct (rows_loop shape ocr page_no (r :: rows) cols counter []) as [cs c'].
    intros [= <- <-]. apply H; [done | constructor].
Qed.

End TableFacts.

Lemma table_candidates_valid_witness :
  Forall (table_candidate ex_shape ex_rows 1) ex_table1.1
  /\ (length ex_table1.1 <= length ex_rows)%nat.
Proof.
  destruct (@table_candidates_valid caseless_db ex_shape ex_ocr ex_rows ex_cols 1 0)
    as [_ H].
  apply (H ex_table1.1 ex_table1.2). reflexivity.
Defined.

(** X11.  Table mode draws its ids from the module's counter: over two
    calls of one run, the second starting from the counter that the first
    one left, all ids are positive, increase in the order of creation and
    are pairwise distinct. *)
Theorem table_mode_ids {db : UnicodeDB} shape1 ocr1 shape2 ocr2 rows1 cols1 page1
    rows2 cols2 page2 counter cands1 counter1 cands2 counter2 :
  0 <= counter ->
  assemble_candidates_from_table shape1 ocr1 rows1 cols1 page1 counter = (Ok cands1, counter1) ->
  assemble_candidates_from_table shape2 ocr2 rows2 cols2 page2 counter1 = (Ok cands2, counter2) ->
  increasing (id <$> cands1 ++ cands2)
  /\ NoDup (id <$> cands1 ++ cands2)
  /\ Forall (fun c => 0 < id c) (cands1 ++ cands2).
Proof. apply table_mode_ids_unique. Qed.

Lemma table_mode_ids_witness :
  increasing (id <$> ex_table1.1 ++ ex_table2.1)
  /\ NoDup (id <$> ex_table1.1 ++ ex_table2.1)
  /\ Forall (fun c => 0 < id c) (ex_table1.1 ++ ex_table2.1).
Proof.
  apply (@table_mode_ids caseless_db ex_shape ex_ocr ex_shape ex_ocr ex_rows ex_cols 1
           ex_rows ex_cols 2 0 ex_table1.1 ex_table1.2 ex_table2.1 ex_table2.2).
  - lia.
  - reflexivity.
  - reflexivity.
Defined.

(* ===================================================================== *)
(** * Further properties: headers, footers and groups *)
(* ===================================================================== *)

(** X12.  [_bbox_intersects_region] does not depend on the order of its
    two boxes, and for well-formed boxes it holds exactly when the two
    rectangles, borders included, have a point in common. *)
Theorem bbox_intersects_common_point a b :
  _bbox_intersects_region a b = _bbox_intersects_region b a
  /\ (well_formed a -> well_formed b ->
      (_bbox_intersects_region a b = true <-> exists x y, common_point a b x y)).
Proof.
  destruct a as [[[x1 y1] x2] y2], b as [[[rx1 ry1] rx2] ry2].
  unfold _bbox_intersects_region, well_formed, common_point. cbn [bx1 by1 bx2 by2].
  rewrite !Z.gtb_ltb. split.
  - destruct (x2 <? rx1) eqn:E1, (rx2 <? x1) eqn:E2, (y2 <? ry1) eqn:E3, (ry2 <? y1) eqn:E4;
      reflexivity.
  - intros [Ha1 Ha2] [Hb1 Hb2].
    rewrite negb_true_iff, !orb_false_iff, !Z.ltb_ge. split.
    + intros [[[H1 H2] H3] H4]. exists (Z.max x1 rx1), (Z.max y1 ry1). lia.
    + intros (x & y & H). lia.
Qed.

Lemma bbox_intersects_common_point_witness :
  _bbox_intersects_region (10, 10, 390, 30) (0, 0, 400, 15) = true
  <-> exists x y, common_point (10, 10, 390, 30) (0, 0, 400, 15) x y.
Proof.
  destruct (bbox_intersects_common_point (10, 10, 390, 30) (0, 0, 400, 15)) as [_ H].
  apply H; unfold well_formed; simpl; lia.
Defined.

Lemma intersects_repeated_spec page_no box regions :
  intersects_repeated page_no box regions = true
  <-> exists region, region ∈ regions /\ r_page region = page_no
                     /\ _bbox_intersects_region box (r_bbox region) = true.
Proof.
  induction regions as [|r rs IH]; cbn [intersects_repeated].
  - split; [discriminate | intros (? & H & _); inversion H].
  - destruct ((r_page r =? page_no) && _bbox_intersects_region box (r_bbox r)) eqn:E.
    + split; [intros _ | reflexivity].
      apply andb_true_iff in E as [E1 E2]. apply Z.eqb_eq in E1.
      exists r. split; [by left | by split].
    + rewrite IH. split.
      * intros (x & H1 & H2). exists x. split; [by right | exact H2].
      * intros (x & H1 & H2 & H3). apply elem_of_cons in H1 as [-> | H1].
        -- apply Z.eqb_eq in H2. rewrite H2, H3 in E. discriminate.
        -- exists x. by split.
Qed.

Lemma hits_spec regions c : hits regions c = true <-> on_repeated_region regions c.
Proof.
  unfold hits, on_repeated_region. destruct (bbox c) as [box|].
  - rewrite intersects_repeated_spec. split.
    + intros (r & H1 & H2 & H3). by exists box, r.
    + intros (box' & r & [= <-] & H1 & H2 & H3). by exists r.
  - split; [discriminate | intros (? & ? & H & _); discriminate].
Qed.

Lemma filter_loop_spec regions cs : forall remaining filtered,
  filter_loop regions cs remaining filtered
  = (remaining ++ List.filter (fun c => negb (hits regions c)) cs,
     filtered ++ List.filter (hits regions) cs).
Proof.
  induction cs as [|c cs IH]; intros remaining filtered; cbn [filter_loop List.filter].
  - by rewrite !app_nil_r.
  - destruct (hits regions c) eqn:E; cbn [negb]; unfold hits in E;
      destruct (bbox c) as [box|]; try discriminate;
      rewrite ?E, IH, <- ?app_assoc; reflexivity.
Qed.

Lemma filter_split_perm {A : Type} (p : A -> bool) (l : list A) :
  List.filter (fun x => negb (p x)) l ++ List.filter p l ≡ₚ l.
Proof.
  induction l as [|x l IH]; [reflexivity |]. cbn [List.filter].
  destruct (p x); cbn [negb app].
  - rewrite <- Permutation_middle. by constructor.
  - by constructor.
Qed.

Lemma list_filter_sublist {A : Type} (p : A -> bool) (l : list A) :
  List.filter p l `sublist_of` l.
Proof.
  induction l as [|x l IH]; [constructor |]. cbn [List.filter].
  destruct (p x); [by apply sublist_skip | by apply sublist_cons].
Qed.

(** X13.  [repeated_header_footer_filter] splits the candidates without
    losing, repeating or reordering any: what it filters out are the
    candidates with a box that overlaps a repeated region of their own
    page, and, given two pages or more, what remains are the others; with
    fewer than two pages nothing is filtered. *)
Theorem header_footer_filter_partition (Image : Type)
    (detect : list Image -> Q -> Q -> list Region) candidates pages_images :
  let regions := detect pages_images (15 # 100)%Q (15 # 100)%Q in
  let r := repeated_header_footer_filter Image detect candidates pages_images in
  r.1 ++ r.2 ≡ₚ candidates
  /\ r.1 `sublist_of` candidates
  /\ r.2 `sublist_of` candidates
  /\ Forall (on_repeated_region regions) r.2
  /\ ((2 <= length pages_images)%nat ->
      Forall (fun c => ~ on_repeated_region regions c) r.1)
  /\ ((length pages_images < 2)%nat -> r = (candidates, [])).
Proof.
  intros regions r.
  assert (Hr : r = repeated_header_footer_filter Image detect candidates pages_images)
    by reflexivity.
  assert (Hregions : detect pages_images (15 # 100)%Q (15 # 100)%Q = regions)
    by reflexivity.
  clearbody r regions.
  assert (Hid : r = (candidates, []) ->
                r.1 ++ r.2 ≡ₚ candidates /\ r.1 `sublist_of` candidates
                /\ r.2 `sublist_of` candidates /\ Forall (on_repeated_region regions) r.2).
  { intros ->. cbn [fst snd]. rewrite app_nil_r.
    repeat split; [done | done | apply sublist_nil_l | constructor]. }
  assert (Hrun : r = filter_loop regions candidates [] [] ->
                r.1 ++ r.2 ≡ₚ candidates /\ r.1 `sublist_of` candidates
                /\ r.2 `sublist_of` candidates /\ Forall (on_repeated_region regions) r.2
                /\ Forall (fun c => ~ on_repeated_region regions c) r.1).
  { intros ->. rewrite filter_loop_spec. cbn [fst snd app].
    split; [apply filter_split_perm |].
    split; [apply list_filter_sublist |]. split; [apply list_filter_sublist |]. split.
    - apply Forall_forall. intros c Hc.
      apply list_elem_of_In, List.filter_In in Hc as [_ Hc]. by apply hits_spec.
    - apply Forall_forall. intros c Hc.
      apply list_elem_of_In, List.filter_In in Hc as [_ Hc].
      apply negb_true_iff in Hc. rewrite <- hits_spec. congruence. }
  unfold repeated_header_footer_filter in Hr.
  destruct candidates as [|c cs].
  { destruct (Hid Hr) as (H1 & H2 & H3 & H4). repeat split; try done.
    intros _. rewrite Hr. constructor. }
  destruct pages_images as [|p0 [|p1 ps]].
  - destruct (Hid Hr) as (H1 & H2 & H3 & H4).
    repeat split; try done. simpl. lia.
  - destruct (Hid Hr) as (H1 & H2 & H3 & H4).
    repeat split; try done. simpl. lia.
  - rewrite Hregions in Hr. destruct regions as [|r0 rs].
    + destruct (Hid Hr) as (H1 & H2 & H3 & H4).
      split; [exact H1 |]. split; [exact H2 |]. split; [exact H3 |].
      split; [exact H4 |]. split.
      * intros _. apply Forall_forall. intros x _ Hx.
        destruct Hx as (box & reg & _ & Hr0 & _). by apply elem_of_nil in Hr0.
      * simpl. lia.
    + destruct (Hrun Hr) as (H1 & H2 & H3 & H4 & H5).
      split; [exact H1 |]. split; [exact H2 |]. split; [exact H3 |].
      split; [exact H4 |]. split; [intros _; exact H5 | simpl; lia].
Qed.

Lemma header_footer_filter_partition_witness :
  Forall (fun c => ~ on_repeated_region ex_regions c)
         (repeated_header_footer_filter unit (fun _ _ _ => ex_regions)
            [ex_d3; ex_g3] [tt; tt]).1.
Proof.
  pose proof (header_footer_filter_partition unit (fun _ _ _ => ex_regions)
                [ex_d3; ex_g3] [tt; tt]) as H.
  cbv zeta in H. destruct H as (_ & _ & _ & _ & H & _).
  apply H. simpl. lia.
Defined.
(* ===================================================================== *)
(** * Further properties: deduplication *)
(* ===================================================================== *)

Lemma ordered_snoc {A : Type} (R : A -> A -> Prop) l x :
  ordered R l -> Forall (fun y => R y x) l -> ordered R (l ++ [x]).
Proof.
  induction 1 as [|y l Hy Hl IH]; intros Hall; simpl.
  - repeat constructor.
  - apply Forall_cons in Hall as [Hyx Hall].
    constructor; [| by apply IH].
    apply Forall_app. split; [exact Hy | by constructor].
Qed.

Lemma rmapM_Forall2 {A B : Type} (f : A -> result B) l : forall ys,
  rmapM f l = Ok ys -> Forall2 (fun x y => f x = Ok y) l ys.
Proof.
  induction l as [|x l IH]; intros ys; simpl.
  - intros [= <-]. constructor.
  - destruct (f x) as [y|e] eqn:Hx; [| discriminate].
    unfold mbind, result_bind, rbind.
    destruct (rmapM f l) as [ys'|e] eqn:Hl; [| discriminate].
    intros [= <-]. constructor; [exact Hx | by apply IH].
Qed.

Lemma rmapM_total {A B : Type} (f : A -> result B) l :
  Forall (fun x => exists y, f x = Ok y) l -> exists ys, rmapM f l = Ok ys.
Proof.
  induction 1 as [|x l [y Hy] _ [ys Hys]]; simpl.
  - by exists [].
  - rewrite Hy. unfold mbind, result_bind, rbind. rewrite Hys. by eexists.
Qed.

Lemma max_conf_elem cs : forall c0, max_conf c0 cs ∈ c0 :: cs.
Proof.
  unfold max_conf. induction cs as [|c cs IH]; intros c0; simpl.
  - by left.
  - destruct (Qltb (conf c0) (conf c)).
    + right. apply IH.
    + specialize (IH c0). apply elem_of_cons in IH as [-> | IH].
      * by left.
      * right. by right.
Qed.

Lemma lex_leb_total a b : lex_leb a b = true \/ lex_leb b a = true.
Proof.
  unfold lex_leb.
  rewrite !orb_true_iff, !andb_true_iff, !Z.ltb_lt, !Z.eqb_eq, !Z.leb_le. lia.
Qed.

Lemma lex_leb_trans a b c : lex_leb a b = true -> lex_leb b c = true -> lex_leb a c = true.
Proof.
  unfold lex_leb.
  rewrite !orb_true_iff, !andb_true_iff, !Z.ltb_lt, !Z.eqb_eq, !Z.leb_le. lia.
Qed.

Lemma concat_length_le {A : Type} (ls : list (list A)) :
  Forall (fun l => l <> []) ls -> (length ls <= length (concat ls))%nat.
Proof.
  induction 1 as [|l ls Hl _ IH]; simpl; [lia |].
  rewrite length_app. destruct l; [done |]. simpl. lia.
Qed.

Section DedupeMore.
Context {db : UnicodeDB}.
Variable token_set_ratio : text -> text -> Q.

(** What the inner loop adds to a group: indices of the range it scans,
    in increasing order, none of them processed before. *)
Lemma scan_others_added thr c others : forall j group processed group' processed',
  scan_others token_set_ratio thr c j others group processed = Ok (group', processed') ->
  exists added,
    group' = group ++ added
    /\ (forall x, x ∈ processed' <-> x ∈ processed \/ x ∈ added)
    /\ ordered lt added
    /\ (forall x, x ∈ added -> (j <= x < j + length others)%nat /\ x ∉ processed).
Proof.
  induction others as [|o others IH]; intros j group processed group' processed'; simpl.
  - intros [= <- <-]. exists []. rewrite app_nil_r.
    split; [reflexivity |].
    split; [intros x; split; [by left | intros [H | H]; [done | inversion H]] |].
    split; [constructor |].
    intros x H. inversion H.
  - destruct (bool_decide (j ∈ processed)) eqn:Ej.
    + intros H. destruct (IH _ _ _ _ _ H) as (added & H1 & H2 & H3 & H4).
      exists added. split; [exact H1 |]. split; [exact H2 |]. split; [exact H3 |].
      intros x Hx. destruct (H4 x Hx). split; [lia | done].
    + apply bool_decide_eq_false in Ej.
      destruct (joins_group token_set_ratio thr c o) as [r|e] eqn:Hj; [| discriminate].
      unfold mbind, result_bind, rbind.
      destruct r.
      * intros H. destruct (IH _ _ _ _ _ H) as (added & H1 & H2 & H3 & H4).
        exists (j :: added). split; [by rewrite H1, <- app_assoc |]. split.
        { intros x. rewrite H2, elem_of_union, elem_of_singleton, elem_of_cons. tauto. }
        split.
        { constructor; [| exact H3]. apply Forall_forall. intros x Hx.
          destruct (H4 x Hx). lia. }
        intros x Hx. apply elem_of_cons in Hx as [-> | Hx]; [split; [lia | done] |].
        destruct (H4 x Hx) as [Hr Hn]. split; [lia |].
        intros Hp. apply Hn. rewrite elem_of_union. by right.
      * intros H. destruct (IH _ _ _ _ _ H) as (added & H1 & H2 & H3 & H4).
        exists added. split; [exact H1 |]. split; [exact H2 |]. split; [exact H3 |].
        intros x Hx. destruct (H4 x Hx). split; [lia | done].
Qed.

(** The outer loop keeps the groups a partition of the processed
    indices. *)
Lemma group_loop_partition thr suffix : forall i processed groups result,
  (forall x, x ∈ processed <-> x ∈ concat groups) ->
  NoDup (concat groups) ->
  (forall x, x ∈ processed -> (x < i + length suffix)%nat) ->
  (forall x, (x < i)%nat -> x ∈ processed) ->
  Forall (fun g => g <> [] /\ ordered lt g) groups ->
  group_loop token_set_ratio thr i suffix processed groups = Ok result ->
  NoDup (concat result)
  /\ (forall x, x ∈ concat result <-> (x < i + length suffix)%nat)
  /\ Forall (fun g => g <> [] /\ ordered lt g) result.
Proof.
  induction suffix as [|c suffix IH]; intros i processed groups result Hp Hnd Hhi Hlo Hg; simpl.
  - intros [= <-]. split; [exact Hnd |]. split; [| exact Hg].
    intros x. rewrite <- Hp. split; [apply Hhi |].
    intros Hx. apply Hlo. simpl in Hx. lia.
  - destruct (bool_decide (i ∈ processed)) eqn:Ei.
    + apply bool_decide_eq_true in Ei. intros H.
      destruct (IH (S i) processed groups result) as (R1 & R2 & R3); try done.
      * intros x Hx. apply Hhi in Hx. simpl in Hx. lia.
      * intros x Hx. destruct (decide (x = i)) as [-> | Hne]; [exact Ei | apply Hlo; lia].
      * split; [exact R1 |]. split; [| exact R3].
        intros x. rewrite R2. simpl. lia.
    + apply bool_decide_eq_false in Ei.
      destruct (scan_others token_set_ratio thr c (S i) suffix [i] ({[i]} ∪ processed))
        as [[group processed']|e] eqn:Hs; [| discriminate].
      unfold mbind, result_bind, rbind.
      destruct (scan_others_added _ _ _ _ _ _ _ _ Hs) as (added & A1 & A2 & A3 & A4).
      intros H.
      assert (Hgroup : forall x, x ∈ group <-> x = i \/ x ∈ added).
      { intros x. rewrite A1. simpl. by rewrite elem_of_cons. }
      destruct (IH (S i) processed' (groups ++ [group]) result) as (R1 & R2 & R3); try done.
      * intros x. rewrite A2, concat_app, elem_of_app, elem_of_union, elem_of_singleton.
        simpl. rewrite app_nil_r, Hgroup, Hp. tauto.
      * rewrite concat_app. simpl. rewrite app_nil_r.
        apply NoDup_app. split; [exact Hnd |]. split.
        -- intros x Hx Hx'. apply Hp in Hx. apply Hgroup in Hx' as [-> | Hx']; [done |].
           destruct (A4 x Hx') as [_ Hn]. apply Hn. rewrite elem_of_union. by right.
        -- rewrite A1. simpl. apply NoDup_cons. split.
           ++ intros Hi. destruct (A4 i Hi). lia.
           ++ clear -A3. induction A3 as [|x l Hx _ IHl]; [constructor |].
              apply NoDup_cons. split; [| exact IHl].
              intros Hin. rewrite Forall_forall in Hx. specialize (Hx x Hin). lia.
      * intros x. rewrite A2, elem_of_union, elem_of_singleton.
        intros [[-> | Hx] | Hx].
        -- lia.
        -- apply Hhi in Hx. simpl in Hx. lia.
        -- destruct (A4 x Hx). lia.
      * intros x Hx. rewrite A2, elem_of_union, elem_of_singleton.
        destruct (decide (x = i)) as [-> | Hne]; [left; by left |].
        left. right. apply Hlo. lia.
      * apply Forall_app. split; [exact Hg |]. constructor; [| constructor].
        rewrite A1. split; [done |]. simpl. constructor; [| exact A3].
        apply Forall_forall. intros x Hx. destruct (A4 x Hx). lia.
      * split; [exact R1 |]. split; [| exact R3].
        intros x. rewrite R2. simpl. lia.
Qed.

Lemma build_groups_facts candidates thr groups :
  build_groups token_set_ratio candidates thr = Ok groups ->
  NoDup (concat groups)
  /\ (forall x, x ∈ concat groups <-> (x < length candidates)%nat)
  /\ Forall (fun g => g <> [] /\ ordered lt g) groups.
Proof.
  intros H. unfold build_groups in H.
  apply group_loop_partition in H; [exact H | | | | |].
  - intros x. simpl. split; intros Hx; [by apply not_elem_of_empty in Hx | inversion Hx].
  - constructor.
  - intros x Hx. by apply not_elem_of_empty in Hx.
  - intros x Hx. lia.
  - constructor.
Qed.

(** X14.  The groups that [deduplicate_candidates] builds partition the
    indices of its input: every index of the list is in exactly one
    group, no group is empty, and each group lists its indices in
    increasing order. *)
Theorem build_groups_partition candidates thr groups :
  build_groups token_set_ratio candidates thr = Ok groups ->
  concat groups ≡ₚ seq 0 (length candidates)
  /\ Forall (fun g => g <> [] /\ ordered lt g) groups.
Proof.
  intros H. destruct (build_groups_facts _ _ _ H) as (H1 & H2 & H3).
  split; [| exact H3].
  apply NoDup_Permutation; [exact H1 | apply NoDup_seq |].
  intros x. rewrite H2, elem_of_seq. lia.
Qed.

Lemma at_index_Ok cs idx c : at_index cs idx = Ok c <-> cs !! idx = Some c.
Proof.
  unfold at_index. destruct (cs !! idx); split; intros H; by inversion H.
Qed.

(** One resolved group: the record stands for every member, and carries
    the fields of one of them. *)
Lemma resolve_group_spec cs g o :
  g <> [] -> resolve_group cs g = Ok o ->
  (forall idx, idx ∈ g -> exists c, cs !! idx = Some c /\ accounts_for o c)
  /\ exists idx c, idx ∈ g /\ cs !! idx = Some c /\ same_item_fields o c.
Proof.
  intros Hne. destruct g as [|i [|i' g']]; [done | |].
  - simpl. intros H. apply at_index_Ok in H. split.
    + intros idx Hidx. apply list_elem_of_singleton in Hidx. subst idx.
      exists o. split; [exact H | by left].
    + exists i, o. split; [by left |]. split; [exact H | done].
  - remember (i :: i' :: g') as g eqn:Hg.
    assert (Hres : resolve_group cs g =
                   (group_candidates ← rmapM (at_index cs) g;
                    match group_candidates with
                    | [] => Raise ValueError
                    | c0 :: cs' =>
                        let representative := max_conf c0 cs' in
                        let merged :=
                          set_merged_ids (Some (id <$> group_candidates)) representative in
                        let confs := conf <$> group_candidates in
                        Ok (set_conf (sum_Q confs / Q_of_nat (length confs))%Q merged)
                    end)) by (subst g; reflexivity).
    rewrite Hres. clear Hres.
    destruct (rmapM (at_index cs) g) as [gc|e] eqn:Hm; [| discriminate].
    unfold mbind, result_bind, rbind.
    apply rmapM_Forall2 in Hm.
    destruct gc as [|c0 cs']; [discriminate |].
    intros [= <-]. split.
    + intros idx Hidx. apply list_elem_of_lookup in Hidx as [k Hk].
      destruct (Forall2_lookup_l _ _ _ _ _ Hm Hk) as (c & Hc & Hat).
      apply at_index_Ok in Hat. exists c. split; [exact Hat |].
      right. exists (id <$> c0 :: cs'). split; [reflexivity |].
      apply list_elem_of_fmap. exists c. split; [reflexivity |].
      by eapply list_elem_of_lookup_2.
    + pose proof (max_conf_elem cs' c0) as Hrep.
      apply list_elem_of_lookup in Hrep as [k Hk].
      destruct (Forall2_lookup_r _ _ _ _ _ Hm Hk) as (idx & Hidx & Hat).
      apply at_index_Ok in Hat. exists idx, (max_conf c0 cs').
      split; [by eapply list_elem_of_lookup_2 |]. split; [exact Hat | done].
Qed.

Lemma resolve_group_total cs g :
  g <> [] -> (forall idx, idx ∈ g -> (idx < length cs)%nat) ->
  exists o, resolve_group cs g = Ok o.
Proof.
  intros Hne Hidx.
  assert (Hat : forall idx, idx ∈ g -> exists c, at_index cs idx = Ok c).
  { intros idx H. apply Hidx, lookup_lt_is_Some in H as [c Hc].
    exists c. by apply at_index_Ok. }
  destruct g as [|i [|i' g']]; [done | |].
  - simpl. apply Hat. by left.
  - remember (i :: i' :: g') as g eqn:Hg.
    destruct (rmapM_total (at_index cs) g) as [gc Hgc].
    { apply Forall_forall. exact Hat. }
    assert (Hlen : length g = length gc) by (eapply Forall2_length, rmapM_Forall2, Hgc).
    subst g. simpl. simpl in Hgc. rewrite Hgc. unfold mbind, result_bind, rbind.
    destruct gc as [|c0 cs']; [discriminate Hlen |]. by eexists.
Qed.

(** X15.  What [deduplicate_candidates] returns: every candidate of the
    input is in the output as it was or listed in the [merged_ids] of a
    record of the output; every record of the output carries the id,
    page, box, description and amount of a candidate of the input; every
    record has a box; the records are in the order of their pages and,
    within a page, of their tops; and there are at most as many as in
    the input. *)
Theorem deduplicate_candidates_output candidates thr out :
  deduplicate_candidates token_set_ratio candidates thr = Ok out ->
  (forall c, c ∈ candidates -> exists o, o ∈ out /\ accounts_for o c)
  /\ (forall o, o ∈ out -> exists c, c ∈ candidates /\ same_item_fields o c)
  /\ Forall (fun o => is_Some (bbox o)) out
  /\ ordered (fun a b => lex_leb (page_top a) (page_top b) = true) out
  /\ (length out <= length candidates)%nat.
Proof.
  unfold deduplicate_candidates. destruct candidates as [|c0 cs0].
  { intros [= <-]. split; [intros c H; inversion H |].
    split; [intros o H; inversion H |]. split; [constructor |].
    split; [constructor | simpl; lia]. }
  remember (c0 :: cs0) as candidates eqn:Hcs. clear Hcs c0 cs0.
  destruct (build_groups token_set_ratio candidates thr) as [groups|e] eqn:Hb; [| discriminate].
  unfold mbind, result_bind, rbind.
  destruct (rmapM (resolve_group candidates) groups) as [deduped|e] eqn:Hm; [| discriminate].
  destruct (existsb (fun c => bool_decide (bbox c = None)) deduped) eqn:Hbox; [discriminate |].
  intros [= <-].
  apply rmapM_Forall2 in Hm.
  destruct (build_groups_facts _ _ _ Hb) as (G1 & G2 & G3).
  pose proof (sorted_by_perm (fun c => (page c, from_option by1 0 (bbox c))) lex_leb deduped)
    as Hperm.
  assert (Hin : forall o, o ∈ deduped ->
                  exists g, g ∈ groups /\ g <> [] /\ resolve_group candidates g = Ok o).
  { intros o Ho. apply list_elem_of_lookup in Ho as [k Hk].
    destruct (Forall2_lookup_r _ _ _ _ _ Hm Hk) as (g & Hg & Hr).
    apply list_elem_of_lookup_2 in Hg. exists g. split; [exact Hg |]. split; [| exact Hr].
    rewrite Forall_forall in G3. by destruct (G3 g Hg). }
  split; [| split; [| split; [| split]]].
  - intros c Hc. apply list_elem_of_lookup in Hc as [i Hi].
    assert (Hlt : (i < length candidates)%nat) by (by eapply lookup_lt_Some).
    apply G2, elem_of_concat in Hlt as (g & Hg & Hig).
    apply list_elem_of_lookup in Hg as [k Hk].
    destruct (Forall2_lookup_l _ _ _ _ _ Hm Hk) as (o & Ho & Hr).
    assert (Hne : g <> []) by (intros ->; inversion Hig).
    destruct (resolve_group_spec _ _ _ Hne Hr) as [Hall _].
    destruct (Hall i Hig) as (c' & Hc' & Hacc).
    assert (c' = c) by congruence. subst c'.
    exists o. split; [| exact Hacc].
    rewrite Hperm. by eapply list_elem_of_lookup_2.
  - intros o Ho. rewrite Hperm in Ho.
    destruct (Hin o Ho) as (g & Hg & Hne & Hr).
    destruct (resolve_group_spec _ _ _ Hne Hr) as [_ (idx & c & _ & Hc & Hsame)].
    exists c. split; [by eapply list_elem_of_lookup_2 | exact Hsame].
  - apply Forall_forall. intros o Ho. rewrite Hperm in Ho.
    destruct (bbox o) as [b|] eqn:Eb; [by eexists |].
    assert (existsb (fun c => bool_decide (bbox c = None)) deduped = true); [| congruence].
    apply existsb_exists. exists o. split; [by apply list_elem_of_In |].
    by apply bool_decide_eq_true.
  - apply (sorted_by_ordered (fun c => (page c, from_option by1 0 (bbox c))) lex_leb
             lex_leb_total lex_leb_trans).
  - rewrite Hperm, <- (Forall2_length _ _ _ Hm).
    assert (Hlen : length (concat groups) = length candidates).
    { assert (Hp : concat groups ≡ₚ seq 0 (length candidates)).
      { apply NoDup_Permutation; [exact G1 | apply NoDup_seq |].
        intros x. rewrite G2, elem_of_seq. lia. }
      by rewrite Hp, length_seq. }
    rewrite <- Hlen. apply concat_length_le.
    eapply Forall_impl; [exact G3 |]. by intros g [? _].
Qed.

(** A candidate on which the comparisons of the grouping cannot fail. *)
Lemma joins_group_total thr a b :
  is_Some (bbox a) -> is_Some (bbox b) ->
  (forall x, amount a = Some x -> (0 < x)%Q) ->
  exists r, joins_group token_set_ratio thr a b = Ok r.
Proof.
  intros [ba Ha] [bb Hb] Hpos. unfold joins_group.
  destruct (Qle_bool thr _); [| by eexists].
  destruct (amount a) as [x|] eqn:Ex, (amount b) as [y|] eqn:Ey; try by eexists.
  assert (Hmax : Qeq_bool (py_max x y) 0 = false).
  { apply not_true_iff_false. intros H. apply Qeq_bool_iff in H.
    specialize (Hpos x eq_refl). unfold py_max in H.
    destruct (Qltb x y) eqn:E; [| lra].
    apply Qltb_lt in E. lra. }
  rewrite Hmax.
  destruct (Qltb 5 _); [by eexists |].
  destruct (Qltb _ (1 # 100)); [| by eexists].
  destruct (page a =? page b); [| by eexists].
  unfold y_of. rewrite Ha, Hb. simpl. by eexists.
Qed.

Lemma scan_others_total thr c others : forall j group processed,
  is_Some (bbox c) -> (forall x, amount c = Some x -> (0 < x)%Q) ->
  Forall (fun o => is_Some (bbox o)) others ->
  exists r, scan_others token_set_ratio thr c j others group processed = Ok r.
Proof.
  intros j group processed Hc Hpos Hall. revert j group processed.
  induction Hall as [|o others Ho _ IH]; intros j group processed; simpl; [by eexists |].
  destruct (bool_decide (j ∈ processed)); [apply IH |].
  destruct (joins_group_total thr c o Hc Ho Hpos) as [r ->].
  unfold mbind, result_bind, rbind. destruct r; apply IH.
Qed.

Lemma group_loop_total thr suffix : forall i processed groups,
  Forall (fun c => is_Some (bbox c) /\ forall x, amount c = Some x -> (0 < x)%Q) suffix ->
  exists r, group_loop token_set_ratio thr i suffix processed groups = Ok r.
Proof.
  intros i processed groups Hall. revert i processed groups.
  induction Hall as [|c suffix [Hc Hpos] Hall IH]; intros i processed groups; simpl;
    [by eexists |].
  destruct (bool_decide (i ∈ processed)); [apply IH |].
  destruct (scan_others_total thr c suffix (S i) [i] ({[i]} ∪ processed) Hc Hpos)
    as [[group processed'] ->].
  { eapply Forall_impl; [exact Hall |]. by intros o [? _]. }
  unfold mbind, result_bind, rbind. apply IH.
Qed.

(** X16.  When every candidate has a box and every amount that is present
    is positive, [deduplicate_candidates] raises nothing: it returns a
    list. *)
Theorem deduplicate_candidates_succeeds candidates thr :
  Forall (fun c => is_Some (bbox c) /\ forall x, amount c = Some x -> (0 < x)%Q) candidates ->
  exists out, deduplicate_candidates token_set_ratio candidates thr = Ok out.
Proof.
  intros Hall. unfold deduplicate_candidates.
  destruct candidates as [|c0 cs0]; [by eexists |].
  remember (c0 :: cs0) as candidates eqn:Hcs. clear Hcs c0 cs0.
  destruct (group_loop_total thr candidates 0 ∅ [] Hall) as [groups Hg].
  change (build_groups token_set_ratio candidates thr = Ok groups) in Hg.
  rewrite Hg. unfold mbind, result_bind, rbind.
  destruct (build_groups_facts _ _ _ Hg) as (G1 & G2 & G3).
  destruct (rmapM_total (resolve_group candidates) groups) as [deduped Hd].
  { apply Forall_forall. intros g Hgin. apply resolve_group_total.
    - rewrite Forall_forall in G3. by destruct (G3 g Hgin).
    - intros idx Hidx. apply G2, elem_of_concat. by exists g. }
  rewrite Hd.
  destruct (existsb (fun c => bool_decide (bbox c = None)) deduped) eqn:Hbox; [| by eexists].
  exfalso. apply existsb_exists in Hbox as (o & Ho & Hnone).
  apply bool_decide_eq_true in Hnone. apply list_elem_of_In in Ho.
  apply rmapM_Forall2 in Hd.
  apply list_elem_of_lookup in Ho as [k Hk].
  destruct (Forall2_lookup_r _ _ _ _ _ Hd Hk) as (g & Hgk & Hr).
  apply list_elem_of_lookup_2 in Hgk.
  assert (Hne : g <> []) by (rewrite Forall_forall in G3; by destruct (G3 g Hgk)).
  destruct (resolve_group_spec _ _ _ Hne Hr) as [_ (idx & c & _ & Hc & Hsame)].
  apply list_elem_of_lookup_2 in Hc. rewrite Forall_forall in Hall.
  destruct (Hall c Hc) as [[b Hb] _].
  destruct Hsame as (_ & _ & Hbb & _). congruence.
Qed.

End DedupeMore.

Lemma build_groups_partition_witness :
  concat [[0%nat; 1%nat]] ≡ₚ seq 0 (length [ex_d3; ex_d4])
  /\ Forall (fun g => g <> [] /\ ordered lt g) [[0%nat; 1%nat]].
Proof.
  apply (@build_groups_partition caseless_db exact_ratio [ex_d3; ex_d4] 88).
  vm_compute. reflexivity.
Defined.

Lemma deduplicate_candidates_output_witness :
  (forall c, c ∈ [ex_d3; ex_d4] -> exists o, o ∈ ex_deduped /\ accounts_for o c)
  /\ (forall o, o ∈ ex_deduped -> exists c, c ∈ [ex_d3; ex_d4] /\ same_item_fields o c)
  /\ Forall (fun o => is_Some (bbox o)) ex_deduped
  /\ ordered (fun a b => lex_leb (page_top a) (page_top b) = true) ex_deduped
  /\ (length ex_deduped <= length [ex_d3; ex_d4])%nat.
Proof.
  apply (@deduplicate_candidates_output caseless_db exact_ratio [ex_d3; ex_d4] 88 ex_deduped).
  vm_compute. reflexivity.
Defined.

Lemma deduplicate_candidates_succeeds_witness :
  exists out, @deduplicate_candidates caseless_db exact_ratio [ex_d3; ex_d4] 88 = Ok out.
Proof.
  apply (@deduplicate_candidates_succeeds caseless_db exact_ratio [ex_d3; ex_d4] 88).
  repeat constructor; try (by eexists); intros x [= <-]; reflexivity.
Defined.
(* ===================================================================== *)
(** * Further properties: reconciliation *)
(* ===================================================================== *)

Lemma fmap_ext_all {A B : Type} (f g : A -> B) (l : list A) :
  (forall x, f x = g x) -> f <$> l = g <$> l.
Proof.
  intros H. induction l as [|x l IH]; [reflexivity |].
  by rewrite !fmap_cons, H, IH.
Qed.


Lemma sum_Q_filter_le {A : Type} (f : A -> Q) (p : A -> bool) (l : list A) :
  Forall (fun x => (0 <= f x)%Q) l ->
  (0 <= sum_Q (f <$> List.filter p l) <= sum_Q (f <$> l))%Q.
Proof.
  induction 1 as [|x l Hx _ IH]; cbn [List.filter].
  - change (0 <= 0 <= 0)%Q. lra.
  - destruct (p x); rewrite ?fmap_cons, ?sum_Q_cons; lra.
Qed.


(** Within its bounds a binary variable is worth 1 when the collecting
    loop takes it, and 0 when it does not. *)
Lemma chosen_value v i :
  in_bounds v (x_var i) ->
  (value_of v (x_var i) == if chosen v (x_var i) then 1 else 0)%Q.
Proof.
  unfold in_bounds, value_of, chosen.
  destruct (v (x_var i)) as [val|].
  - change (default 0%Q (Some val)) with val. intros [H | H].
    + assert (E : Qeq_bool val 0 = true) by (by apply Qeq_bool_iff).
      rewrite E. exact H.
    + assert (E : Qeq_bool val 0 = false).
      { apply not_true_iff_false. intros E. apply Qeq_bool_iff in E. rewrite H in E.
        discriminate E. }
      assert (E2 : Qltb (1 # 2) val = true) by (apply Qltb_lt; rewrite H; reflexivity).
      rewrite E, E2. exact H.
  - intros _. reflexivity.
Qed.


(** The collecting loop: the ids and the amounts of the candidates whose
    variable passes the test, in the order of the list. *)
Lemma collect_selected_filter candidates v : forall cs sel tot,
  (collect_selected (make_x_vars candidates) v cs sel tot).1
  = sel ++ (id <$> List.filter (fun c => chosen v (x_var (id c))) cs)
  /\ ((collect_selected (make_x_vars candidates) v cs sel tot).2
      == tot + sum_Q (amount_or_zero <$> List.filter (fun c => chosen v (x_var (id c))) cs))%Q.
Proof.
  induction cs as [|c cs IH]; intros sel tot.
  - cbn [collect_selected List.filter fst snd]. rewrite app_nil_r.
    split; [reflexivity |]. change (tot == tot + 0)%Q. lra.
  - change (collect_selected (make_x_vars candidates) v (c :: cs) sel tot)
      with (if chosen v (x_at (make_x_vars candidates) (id c))
            then collect_selected (make_x_vars candidates) v cs (sel ++ [id c])
                   (tot + default 0%Q (amount c))%Q
            else collect_selected (make_x_vars candidates) v cs sel tot).
    rewrite x_at_id. cbn [List.filter].
    destruct (chosen v (x_var (id c))).
    + destruct (IH (sel ++ [id c]) (tot + default 0 (amount c))%Q) as [H1 H2].
      rewrite H1, H2, !fmap_cons, sum_Q_cons, <- app_assoc.
      split; [reflexivity |]. unfold amount_or_zero at 2. lra.
    + apply IH.
Qed.

(** The amount of a selection, from a test that agrees with the ids on
    the candidates that have an amount. *)
Lemma selection_amount_chosen (ch : Candidate -> bool) ids candidates :
  (forall c, c ∈ candidates -> is_Some (amount c) -> (id c ∈ ids <-> ch c = true)) ->
  (selection_amount candidates ids
   == sum_Q (amount_or_zero
             <$> List.filter ch
                   (List.filter (fun c => bool_decide (is_Some (amount c))) candidates)))%Q.
Proof.
  unfold selection_amount. induction candidates as [|c cs IH]; intros H; [reflexivity |].
  assert (IH' := IH (fun c' Hc' => H c' (list_elem_of_further _ _ _ Hc'))).
  cbn [List.filter]. destruct (amount c) as [a|] eqn:Ea.
  - rewrite (bool_decide_eq_true_2 (is_Some (Some a))) by (by eexists).
    cbn [List.filter].
    assert (Hc := H c (list_elem_of_here _ _)). rewrite Ea in Hc.
    specialize (Hc (ex_intro _ a eq_refl)).
    destruct (ch c) eqn:Ec.
    + rewrite bool_decide_eq_true_2 by (by apply Hc).
      rewrite !fmap_cons, !sum_Q_cons, IH'. reflexivity.
    + rewrite bool_decide_eq_false_2; [exact IH' |].
      intros Hin. apply Hc in Hin. discriminate.
  - rewrite (bool_decide_eq_false_2 (is_Some None)) by (intros [? ?]; discriminate).
    destruct (bool_decide (id c ∈ ids)); [| exact IH'].
    rewrite fmap_cons, sum_Q_cons, IH'. unfold amount_or_zero at 1. rewrite Ea. simpl. lra.
Qed.

Section ReconcileMore.
Variable solve : LpProblem -> LpStatus * Valuation.

(** The four ways in which [ilp_reconcile] returns. *)
Lemma ilp_reconcile_shape candidates target groups tol :
  let valid := List.filter (fun c => bool_decide (is_Some (amount c))) candidates in
  let r := ilp_reconcile solve candidates target groups tol in
  (candidates = [] /\ r = mkResult [] 0%Q 0%Q ok)
  \/ (candidates <> [] /\ valid = []
      /\ r = mkResult [] 0%Q (abs_target target) no_valid_amounts)
  \/ (valid <> [] /\ r = mkResult [] 0%Q (abs_target target) infeasible)
  \/ (exists v tot,
        valid <> []
        /\ solve (reconcile_problem valid target groups tol) = (Optimal, v)
        /\ (tot == sum_Q (amount_or_zero
                          <$> List.filter (fun c => chosen v (x_var (id c))) valid))%Q
        /\ r = mkResult (id <$> List.filter (fun c => chosen v (x_var (id c))) valid)
                 (py_round2 tot)
                 (py_round2 match target with
                            | None => 0%Q
                            | Some t => Qabs (tot - t)
                            end)
                 ok).
Proof.
  intros valid r. subst r. unfold ilp_reconcile.
  destruct candidates as [|c0 cs0]; [by left |].
  fold valid. destruct valid as [|c cs] eqn:Hf; [right; left; done |].
  right. right.
  destruct (solve _) as [st v] eqn:Hsolve.
  destruct st; [by left | | by left | by left | by left].
  right.
  destruct (collect_selected_filter (c :: cs) v (c :: cs) [] 0%Q) as [H1 H2].
  destruct (collect_selected (make_x_vars (c :: cs)) v (c :: cs) [] 0%Q) as [sel tot].
  cbn [fst snd] in H1, H2. simpl app in H1. subst sel.
  exists v, tot. split; [done |]. split; [reflexivity |]. split; [| reflexivity].
  rewrite H2. lra.
Qed.

(** Under the bounds of the program the selected total of the program
    is the sum of the amounts that the collecting loop takes. *)
Lemma sum_chosen candidates v cs :
  (forall x, in_bounds v x) ->
  (sum_Q ((fun t : Q * LpVar => t.1 * value_of v t.2)
          <$> ((fun c => (default 0%Q (amount c), x_at (make_x_vars candidates) (id c)))
               <$> cs))
   == sum_Q (amount_or_zero <$> List.filter (fun c => chosen v (x_var (id c))) cs))%Q.
Proof.
  intros Hb. induction cs as [|c cs IH]; [reflexivity |].
  rewrite !fmap_cons, sum_Q_cons, IH. cbn [fst snd List.filter].
  rewrite x_at_id, (chosen_value v (id c) (Hb _)).
  destruct (chosen v (x_var (id c))); rewrite ?fmap_cons, ?sum_Q_cons;
    unfold amount_or_zero; lra.
Qed.

(** A valuation that satisfies the program with a target keeps the
    amount of what the collecting loop takes within the tolerance. *)
Lemma feasible_target valid t groups tol v :
  lp_feasible (reconcile_problem valid (Some t) groups tol) v ->
  (Qabs (sum_Q (amount_or_zero <$> List.filter (fun c => chosen v (x_var (id c))) valid) - t)
   <= tol)%Q.
Proof.
  intros [Hb Hc]. unfold reconcile_problem in Hc. cbn [constraints app] in Hc.
  inversion Hc as [|? ? H1 Hc']. inversion Hc' as [|? ? H2 _]. clear Hc Hc'. subst.
  unfold holds, eval in H1, H2. cbn [con_sense con_lhs con_rhs fst snd] in H1, H2.
  rewrite (sum_chosen valid v valid Hb) in H1.
  rewrite !fmap_cons, !sum_Q_cons in H1, H2. cbn [fst snd] in H1, H2.
  change (sum_Q ((fun t : Q * LpVar => (t.1 * value_of v t.2)%Q) <$> [])) with 0%Q in H1, H2.
  pose proof (in_bounds_nonneg v Hb z_plus) as Hp.
  pose proof (in_bounds_nonneg v Hb z_minus) as Hm.
  apply Qabs_Qle_condition. split; lra.
Qed.


(** The answer 'ok' on a list that is not empty, with a target. *)
Lemma ilp_reconcile_ok_target candidates t groups tol :
  solver_sound solve -> candidates <> [] ->
  status (ilp_reconcile solve candidates (Some t) groups tol) = ok ->
  exists tot,
    (tot == selection_amount candidates
              (selected_ids (ilp_reconcile solve candidates (Some t) groups tol)))%Q
    /\ (Qabs (tot - t) <= tol)%Q
    /\ deviation (ilp_reconcile solve candidates (Some t) groups tol)
       = py_round2 (Qabs (tot - t)).
Proof.
  intros Hsound Hne.
  destruct (ilp_reconcile_shape candidates (Some t) groups tol)
    as [[-> _] | [(_ & _ & ->) | [[_ ->] | (v & tot & _ & Hsolve & Htot & ->)]]];
    cbn [selected_ids selected_total status deviation]; try done.
  intros _. exists tot. split; [| split; [| reflexivity]].
  - rewrite Htot. symmetry.
    apply (selection_amount_chosen (fun c => chosen v (x_var (id c)))).
    intros c Hc Ham. rewrite list_elem_of_fmap. split.
    + intros (c' & Hid & Hc'). rewrite Hid.
      by apply list_elem_of_In, List.filter_In in Hc' as [_ Hc'].
    + intros Hch. exists c. split; [reflexivity |].
      apply list_elem_of_In, List.filter_In. split; [| exact Hch].
      apply List.filter_In. split; [by apply list_elem_of_In | by apply bool_decide_eq_true].
  - rewrite Htot. eapply feasible_target. apply Hsound. exact Hsolve.
Qed.



(** A target further above the sum of amounts that are not negative than
    the tolerance is never met. *)
Lemma ilp_reconcile_not_ok candidates t groups tol :
  solver_sound solve -> candidates <> [] -> nonneg_amounts candidates ->
  (total_amount candidates + tol < t)%Q ->
  status (ilp_reconcile solve candidates (Some t) groups tol) <> ok.
Proof.
  intros Hsound Hne Hpos Hfar Hst.
  destruct (ilp_reconcile_ok_target candidates t groups tol Hsound Hne Hst)
    as (tot & Htot & Habs & _).
  apply Qabs_Qle_condition in Habs as [Hlo _].
  assert (Hle : (tot <= total_amount candidates)%Q).
  { rewrite Htot. unfold selection_amount, total_amount.
    apply (sum_Q_filter_le amount_or_zero). exact Hpos. }
  lra.
Qed.

(** X19.  With a solver that honours its contract and amounts that are
    not negative: a target that lies further above the sum of all the
    amounts than the tolerance cannot be met, and [ilp_reconcile] selects
    nothing, reports the size of the target as the deviation, and answers
    'infeasible' when some candidate has an amount, 'no_valid_amounts'
    when none has. *)
Theorem ilp_reconcile_unreachable_target candidates t groups tol :
  solver_sound solve -> candidates <> [] -> nonneg_amounts candidates ->
  (total_amount candidates + tol < t)%Q ->
  ilp_reconcile solve candidates (Some t) groups tol
  = mkResult [] 0%Q (Qabs t)
      (if existsb (fun c => bool_decide (is_Some (amount c))) candidates
       then infeasible else no_valid_amounts).
Proof.
  intros Hsound Hne Hpos Hfar.
  assert (Hex : existsb (fun c => bool_decide (is_Some (amount c))) candidates
                = negb (bool_decide
                          (List.filter (fun c => bool_decide (is_Some (amount c))) candidates
                           = []))).
  { clear. induction candidates as [|c cs IH]; [reflexivity |].
    cbn [existsb List.filter]. destruct (bool_decide (is_Some (amount c))); [reflexivity |].
    exact IH. }
  pose proof (ilp_reconcile_not_ok candidates t groups tol Hsound Hne Hpos Hfar) as Hst.
  revert Hst. rewrite Hex.
  destruct (ilp_reconcile_shape candidates (Some t) groups tol)
    as [[-> _] | [(_ & Hv & ->) | [[Hv ->] | (v & tot & _ & _ & _ & ->)]]];
    cbn [status]; try done.
  - intros _. rewrite Hv. reflexivity.
  - intros _. by rewrite bool_decide_eq_false_2.
Qed.


End ReconcileMore.


Lemma ilp_reconcile_unreachable_target_witness :
  ilp_reconcile exhaustive_solve [ex_r1; ex_r2] (Some 1000%Q) None 1%Q
  = mkResult [] 0%Q (Qabs 1000)
      (if existsb (fun c => bool_decide (is_Some (amount c))) [ex_r1; ex_r2]
       then infeasible else no_valid_amounts).
Proof.
  apply (ilp_reconcile_unreachable_target exhaustive_solve [ex_r1; ex_r2] 1000%Q None 1%Q
           exhaustive_solve_sound).
  - discriminate.
  - repeat constructor; vm_compute; discriminate.
  - vm_compute. reflexivity.
Defined.
(* ===================================================================== *)
(** * Further properties: the target and the reconciliation step *)
(* ===================================================================== *)



Lemma py_max_spec a b : (a <= py_max a b /\ b <= py_max a b)%Q
                        /\ (py_max a b = a \/ py_max a b = b).
Proof.
  unfold py_max. destruct (Qltb a b) eqn:E.
  - apply Qltb_lt in E. split; [lra | by right].
  - apply Qltb_ge in E. split; [lra | by left].
Qed.



(** X21.  Without a usable reported total (none at all, a total of 0) or
    with candidates whose amounts do not sum to more than 0, step 8 hands
    no target to the reconciler and keeps the tolerance 5; and a reported
    total below 0 is always the target, with the tolerance 5. *)
Theorem choose_target_other reported_total cs :
  (reported_total = None
   \/ (exists t, reported_total = Some t /\ (t == 0)%Q)
   \/ (candidates_sum cs <= 0)%Q ->
   choose_target reported_total cs = (None, 5%Q))
  /\ (forall t, reported_total = Some t -> (t < 0)%Q -> (0 < candidates_sum cs)%Q ->
        choose_target reported_total cs = (Some t, 5%Q)).
Proof.
  split.
  - intros [-> | [(t & -> & Ht) | Hs]]; [reflexivity | |].
    + unfold choose_target. apply Qeq_bool_iff in Ht. by rewrite Ht.
    + unfold choose_target. destruct reported_total as [t|]; [| reflexivity].
      apply Qltb_ge in Hs. rewrite Hs. by rewrite andb_false_r.
  - intros t -> Ht Hs. unfold choose_target.
    assert (E0 : Qeq_bool t 0 = false) by (apply Qeq_bool_false; lra).
    apply Qltb_lt in Hs as Es. rewrite E0, Es. cbn [negb andb].
    assert (E1 : Qle_bool (Qabs (t - candidates_sum cs) / t) (2 # 100) = true).
    { apply Qle_bool_iff.
      assert (H : (Qabs (t - candidates_sum cs) / t
                   == - (Qabs (t - candidates_sum cs) / - t))%Q) by (field; lra).
      rewrite H.
      assert (0 <= Qabs (t - candidates_sum cs) / - t)%Q; [| lra].
      apply Qle_shift_div_l; [lra |]. pose proof (Qabs_nonneg (t - candidates_sum cs)). lra. }
    by rewrite E1.
Qed.



Section PipelineFacts.
Context {db : UnicodeDB}.
Variable solve : LpProblem -> LpStatus * Valuation.




End PipelineFacts.


Lemma choose_target_other_witness :
  choose_target (Some 0%Q) [ex_r1; ex_r2] = (None, 5%Q)
  /\ choose_target (Some (-10)%Q) [ex_r1; ex_r2] = (Some (-10)%Q, 5%Q).
Proof.
  split.
  - apply (choose_target_other (Some 0%Q) [ex_r1; ex_r2]).
    right. left. exists 0%Q. split; reflexivity.
  - apply (choose_target_other (Some (-10)%Q) [ex_r1; ex_r2]); reflexivity.
Defined.


(* ===================================================================== *)
(** * Further properties: the response *)
(* ===================================================================== *)

Lemma py_round2_hundredths r : py_round2 (Qred (r # 100)) = Qred (r # 100).
Proof.
  unfold py_round2.
  assert (Hs : (Qred (r # 100) * 100 == inject_Z r)%Q).
  { rewrite Qred_correct, Qmake_Qdiv. change (inject_Z (Z.pos 100)) with 100%Q. field. }
  assert (Hf : Qfloor (Qred (r # 100) * 100) = r) by (by rewrite Hs, Qfloor_Z).
  rewrite Hf.
  assert (Hc : (Qred (r # 100) * 100 - inject_Z r ?= 1 # 2)%Q = Lt).
  { apply Qlt_alt. rewrite Hs.
    assert (H0 : (inject_Z r - inject_Z r == 0)%Q) by ring.
    rewrite H0. reflexivity. }
  by rewrite Hc.
Qed.

Lemma py_round2_idem x : py_round2 (py_round2 x) = py_round2 x.
Proof.
  assert (H : exists r, py_round2 x = Qred (r # 100)) by (unfold py_round2; by eexists).
  destruct H as [r ->]. apply py_round2_hundredths.
Qed.

Lemma items_total_perm d d' : d ≡ₚ d' -> items_total d = items_total d'.
Proof.
  unfold items_total. induction 1; simpl; lia.
Qed.

Lemma page_items_elem p items d :
  NoDup d.*1 -> (p, items) ∈ d -> page_items p d = items.
Proof.
  induction d as [|[p' items'] d IH]; [intros _ H; inversion H |].
  rewrite fmap_cons. cbn [fst]. intros Hnd Hin. apply NoDup_cons in Hnd as [Hp Hnd].
  cbn [page_items]. apply elem_of_cons in Hin as [[= -> ->] | Hin].
  - by rewrite Z.eqb_refl.
  - destruct (p' =? p) eqn:E; [| by apply IH].
    apply Z.eqb_eq in E. subst p'. exfalso. apply Hp.
    apply list_elem_of_fmap. by exists (p, items).
Qed.

Lemma append_item_spec p item d :
  NoDup d.*1 ->
  NoDup (append_item p item d).*1
  /\ (forall q, page_items q (append_item p item d)
                = if q =? p then page_items q d ++ [item] else page_items q d)
  /\ (forall q, q ∈ (append_item p item d).*1 <-> q = p \/ q ∈ d.*1)
  /\ (Forall (fun e => e.2 <> []) d -> Forall (fun e => e.2 <> []) (append_item p item d))
  /\ items_total (append_item p item d) = S (items_total d).
Proof.
  induction d as [|[p' items'] d IH]; intros Hnd.
  - cbn [append_item]. split; [repeat constructor; by intros H; inversion H |].
    split.
    { intros q. cbn [page_items]. rewrite (Z.eqb_sym p q). by destruct (q =? p). }
    split.
    { intros q. rewrite fmap_cons, elem_of_cons. cbn [fst]. done. }
    split; [intros _; by repeat constructor | reflexivity].
  - rewrite fmap_cons in Hnd. cbn [fst] in Hnd. apply NoDup_cons in Hnd as [Hp Hnd].
    destruct (IH Hnd) as (I1 & I2 & I3 & I4 & I5). cbn [append_item].
    destruct (p' =? p) eqn:E.
    + apply Z.eqb_eq in E. subst p'.
      split; [rewrite fmap_cons; cbn [fst]; by apply NoDup_cons |].
      split.
      { intros q. cbn [page_items]. rewrite (Z.eqb_sym p q). by destruct (q =? p). }
      split.
      { intros q. rewrite !fmap_cons, !elem_of_cons. cbn [fst]. tauto. }
      split.
      { intros H. apply Forall_cons in H as [_ H]. constructor; [| exact H].
        cbn [snd]. by destruct items'. }
      unfold items_total. cbn [foldr snd]. rewrite length_app. simpl. lia.
    + apply Z.eqb_neq in E.
      split.
      { rewrite fmap_cons. cbn [fst]. apply NoDup_cons. split; [| exact I1].
        rewrite I3. intros [-> | H]; done. }
      split.
      { intros q. cbn [page_items]. rewrite I2.
        destruct (p' =? q) eqn:E'; [| reflexivity].
        apply Z.eqb_eq in E'. subst q.
        destruct (p' =? p) eqn:E''; [apply Z.eqb_eq in E''; done | reflexivity]. }
      split.
      { intros q. rewrite !fmap_cons, !elem_of_cons, I3. cbn [fst]. tauto. }
      split.
      { intros H. apply Forall_cons in H as [H1 H]. constructor; [exact H1 | by apply I4]. }
      unfold items_total in *. cbn [foldr snd]. rewrite I5. lia.
Qed.

Section ResponseFacts.
Context {db : UnicodeDB}.

(** The dict of [build_response] after the candidates [seen]. *)
Lemma pagewise_items_inv rest : forall seen d,
  NoDup d.*1 ->
  (forall q, page_items q d = bill_item <$> List.filter (fun c => page c =? q) seen) ->
  (forall q, q ∈ d.*1 <-> q ∈ page <$> seen) ->
  Forall (fun e => e.2 <> []) d ->
  items_total d = length seen ->
  let d' := fold_left (fun d c => append_item (page c) (bill_item c) d) rest d in
  NoDup d'.*1
  /\ (forall q, page_items q d'
                = bill_item <$> List.filter (fun c => page c =? q) (seen ++ rest))
  /\ (forall q, q ∈ d'.*1 <-> q ∈ page <$> (seen ++ rest))
  /\ Forall (fun e => e.2 <> []) d'
  /\ items_total d' = length (seen ++ rest).
Proof.
  induction rest as [|c rest IH]; intros seen d H1 H2 H3 H4 H5.
  - cbn [fold_left]. rewrite app_nil_r. done.
  - cbn [fold_left].
    destruct (append_item_spec (page c) (bill_item c) d H1) as (A1 & A2 & A3 & A4 & A5).
    replace (seen ++ c :: rest) with ((seen ++ [c]) ++ rest) by (by rewrite <- app_assoc).
    apply IH.
    + exact A1.
    + intros q. rewrite A2, H2, List.filter_app, fmap_app. cbn [List.filter].
      rewrite (Z.eqb_sym q (page c)).
      destruct (page c =? q); [reflexivity | by rewrite app_nil_r].
    + intros q. rewrite A3, H3, fmap_app, elem_of_app, fmap_cons, list_elem_of_singleton.
      tauto.
    + by apply A4.
    + rewrite A5, H5, length_app. simpl. lia.
Qed.

(** X25.  The response: the pages are listed in strictly increasing
    order; each page listed has at least one item, and its items are
    those of the selected candidates of that page, in their order; every
    selected candidate is on a listed page; and the item count is the
    number of selected candidates, which is the number of items listed. *)
Theorem build_response_pages candidates result reported_total :
  let selected :=
    List.filter (fun c => bool_decide (id c ∈ selected_ids result)) candidates in
  let resp := build_response candidates result reported_total in
  ordered Z.lt (pagewise_line_items resp).*1
  /\ (forall p items, (p, items) ∈ pagewise_line_items resp ->
        items <> []
        /\ items = bill_item <$> List.filter (fun c => page c =? p) selected)
  /\ (forall c, c ∈ selected -> page c ∈ (pagewise_line_items resp).*1)
  /\ total_item_count resp = length selected
  /\ items_total (pagewise_line_items resp) = length selected.
Proof.
  intros selected resp. subst resp. unfold build_response. fold selected.
  cbn [pagewise_line_items total_item_count].
  set (d := fold_left (fun d c => append_item (page c) (bill_item c) d) selected []).
  destruct (pagewise_items_inv selected [] []) as (D1 & D2 & D3 & D4 & D5);
    [constructor | done | done | constructor | done |].
  fold d in D1, D2, D3, D4, D5. cbn [app] in D2, D3, D5.
  pose proof (sorted_by_perm fst Z.leb d) as Hperm.
  pose proof (sorted_by_ordered fst Z.leb Zleb_total Zleb_trans d) as Hord.
  assert (Hnd : NoDup (sorted_by fst Z.leb d).*1) by (by rewrite Hperm).
  split; [| split; [| split; [| split]]].
  - clear -Hord Hnd. induction Hord as [|e l He _ IH]; [constructor |].
    rewrite fmap_cons in *. apply NoDup_cons in Hnd as [Hin Hnd].
    constructor; [| by apply IH].
    apply Forall_fmap, Forall_forall. intros e' He'. cbn.
    rewrite Forall_forall in He. specialize (He e' He'). apply Z.leb_le in He.
    assert (e.1 <> e'.1); [| lia].
    intros Heq. apply Hin. rewrite Heq. apply list_elem_of_fmap. by exists e'.
  - intros p items Hin. rewrite Hperm in Hin. split.
    + rewrite Forall_forall in D4. exact (D4 _ Hin).
    + rewrite <- D2. symmetry. by apply page_items_elem.
  - intros c Hc. rewrite Hperm. apply D3, list_elem_of_fmap. by exists c.
  - reflexivity.
  - by rewrite (items_total_perm _ _ Hperm).
Qed.

(** X26.  The amount of the response is the total that [ilp_reconcile]
    returned: rounding it again changes nothing. *)
Theorem build_response_amount solve candidates cs target groups tol reported_total :
  reconciled_amount
    (build_response candidates (ilp_reconcile solve cs target groups tol) reported_total)
  = selected_total (ilp_reconcile solve cs target groups tol).
Proof.
  unfold build_response. cbn [reconciled_amount].
  destruct (ilp_reconcile_shape solve cs target groups tol)
    as [[_ ->] | [(_ & _ & ->) | [[_ ->] | (v & tot & _ & _ & _ & ->)]]];
    cbn [selected_total]; [reflexivity | reflexivity | reflexivity |].
  apply py_round2_idem.
Qed.

End ResponseFacts.
(* ===================================================================== *)
(** * Further properties: segments of a projection *)
(* ===================================================================== *)

Lemma above_at_range above i : above_at above i = true -> 0 <= i < Z.of_nat (length above).
Proof.
  unfold above_at. intros H. apply andb_true_iff in H as [H1 H2]. apply Z.leb_le in H1.
  destruct (above !! Z.to_nat i) as [b|] eqn:E; [| discriminate].
  apply lookup_lt_Some in E. lia.
Qed.

Lemma above_at_middle prefix a rest :
  above_at (prefix ++ a :: rest) (Z.of_nat (length prefix)) = a.
Proof.
  unfold above_at. rewrite Nat2Z.id, list_lookup_middle by reflexivity.
  assert (H : (0 <=? Z.of_nat (length prefix)) = true) by (apply Z.leb_le; lia).
  by rewrite H.
Qed.

(** Two runs that end at the same place and cannot be extended to the
    left start at the same place. *)
Lemma run_start_unique above s1 s2 e :
  s1 < e -> s2 < e ->
  (forall k, s1 <= k < e -> above_at above k = true) ->
  (forall k, s2 <= k < e -> above_at above k = true) ->
  above_at above (s1 - 1) = false -> above_at above (s2 - 1) = false ->
  s1 = s2.
Proof.
  intros H1 H2 A1 A2 B1 B2.
  destruct (Z.lt_trichotomy s1 s2) as [Hlt | [Heq | Hgt]]; [| exact Heq |].
  - rewrite (A1 (s2 - 1)) in B2 by lia. discriminate.
  - rewrite (A2 (s1 - 1)) in B1 by lia. discriminate.
Qed.

Lemma ordered_snoc_segments (segments : list (Z * Z)) (seg : Z * Z) :
  ordered (fun a b : Z * Z => a.2 < b.1) segments ->
  Forall (fun s : Z * Z => s.2 < seg.1) segments ->
  ordered (fun a b : Z * Z => a.2 < b.1) (segments ++ [seg]).
Proof. intros H1 H2. by apply ordered_snoc. Qed.

(** Closing the open run at [i]. *)
Lemma segments_inv_close above w i start segments :
  segments_inv above w i true start segments ->
  above_at above i = false -> i <= Z.of_nat (length above) ->
  segments_inv above w (i + 1) false start
    (if w <=? i - start then segments ++ [(start, i)] else segments).
Proof.
  intros [R O Op _ C] Hi Hlen. destruct (Op eq_refl) as (S1 & S2 & S3 & S4).
  assert (Hrun : maximal_run above (start, i)).
  { unfold maximal_run. cbn [fst snd]. repeat split; try lia; assumption. }
  assert (Hrec : Forall (fun seg => maximal_run above seg /\ w <= seg.2 - seg.1
                                    /\ seg.2 < i + 1) segments).
  { eapply Forall_impl; [exact R |]. intros seg (Hm & Hw & He). split; [exact Hm |]. split; [exact Hw | lia]. }
  assert (Hcomp : forall seg, maximal_run above seg -> w <= seg.2 - seg.1 -> seg.2 < i + 1 ->
                    seg ∈ segments \/ (seg = (start, i) /\ w <= i - start)).
  { intros [s e] Hm Hw He. cbn [fst snd] in *.
    destruct (decide (e = i)) as [-> | Hne]; [| left; apply C; cbn; [done | done | lia]].
    right. destruct Hm as (M1 & M2 & M3 & M4 & M5). cbn [fst snd] in *.
    assert (s = start) by (apply (run_start_unique above s start i); try done; lia).
    subst s. done. }
  destruct (w <=? i - start) eqn:E.
  - apply Z.leb_le in E. split.
    + apply Forall_app. split; [exact Hrec |]. constructor; [| constructor].
      split; [exact Hrun |]. cbn [fst snd]. lia.
    + by apply ordered_snoc_segments.
    + discriminate.
    + intros _. by replace (i + 1 - 1) with i by lia.
    + intros seg Hm Hw He. apply elem_of_app.
      destruct (Hcomp seg Hm Hw He) as [H | [-> _]]; [by left | right; by left].
  - apply Z.leb_gt in E. split.
    + exact Hrec.
    + exact O.
    + discriminate.
    + intros _. by replace (i + 1 - 1) with i by lia.
    + intros seg Hm Hw He.
      destruct (Hcomp seg Hm Hw He) as [H | [_ H]]; [exact H | lia].
Qed.

Lemma segments_loop_spec above w : forall (todo : list bool) prefix in_segment start segments r,
  above = prefix ++ todo ->
  segments_inv above w (Z.of_nat (length prefix)) in_segment start segments ->
  segments_loop todo (Z.of_nat (length prefix)) in_segment start w segments = r ->
  segments_inv above w (Z.of_nat (length above)) r.1.2 r.2 r.1.1.
Proof.
  induction todo as [|a todo IH]; intros prefix in_segment start segments r Habove Hinv.
  - cbn [segments_loop]. intros <-. cbn [fst snd].
    rewrite app_nil_r in Habove. subst prefix. exact Hinv.
  - cbn [segments_loop]. set (i := Z.of_nat (length prefix)) in *.
    assert (Hi : above_at above i = a) by (subst above; apply above_at_middle).
    assert (Hnext : i + 1 = Z.of_nat (length (prefix ++ [a])))
      by (rewrite length_app; simpl; lia).
    assert (Habove' : above = (prefix ++ [a]) ++ todo) by (by rewrite <- app_assoc).
    assert (Hlen : i < Z.of_nat (length above))
      by (subst above; rewrite length_app; simpl; lia).
    destruct a, in_segment; cbn [andb negb]; rewrite Hnext; apply IH; try exact Habove';
      rewrite <- Hnext; destruct Hinv as [R O Op Cl C].
    + (* inside a run, the run goes on *)
      destruct (Op eq_refl) as (S1 & S2 & S3 & S4). split.
      * eapply Forall_impl; [exact R |]. intros seg (Hm & Hw & He). split; [exact Hm |]. split; [exact Hw | lia].
      * exact O.
      * intros _. split; [lia |]. split; [| done].
        intros k Hk. destruct (decide (k = i)) as [-> | Hne]; [exact Hi | apply S2; lia].
      * discriminate.
      * intros seg Hm Hw He. apply C; try done.
        destruct (decide (seg.2 = i)) as [Heq | Hne]; [| lia].
        destruct Hm as (_ & _ & _ & _ & M5). rewrite Heq in M5. congruence.
    + (* a run starts *)
      specialize (Cl eq_refl). split.
      * eapply Forall_impl; [exact R |]. intros seg (Hm & Hw & He). split; [exact Hm |]. split; [exact Hw | lia].
      * exact O.
      * intros _. split; [lia |]. split; [| split; [exact Cl |]].
        -- intros k Hk. by replace k with i by lia.
        -- eapply Forall_impl; [exact R |]. intros seg (_ & _ & ?). done.
      * discriminate.
      * intros seg Hm Hw He. apply C; try done.
        destruct (decide (seg.2 = i)) as [Heq | Hne]; [| lia].
        destruct Hm as (_ & _ & _ & _ & M5). rewrite Heq in M5. congruence.
    + (* the run ends *)
      apply segments_inv_close; [by split | exact Hi | lia].
    + (* outside a run *)
      specialize (Cl eq_refl). split.
      * eapply Forall_impl; [exact R |]. intros seg (Hm & Hw & He). split; [exact Hm |]. split; [exact Hw | lia].
      * exact O.
      * discriminate.
      * intros _. by replace (i + 1 - 1) with i by lia.
      * intros seg Hm Hw He. apply C; try done.
        destruct (decide (seg.2 = i)) as [Heq | Hne]; [| lia].
        destruct Hm as (M1 & _ & M3 & _ & _).
        rewrite (M3 (i - 1)) in Cl by lia. discriminate.
Qed.

(** X27.  The segments that [_find_segments_from_projection] returns for
    a projection whose maximum is not 0 are exactly the runs of positions
    above the threshold that cannot be extended and are at least
    [min_width] long, from left to right, each ending before the next
    begins; for an empty projection or the maximum 0 there are none. *)
Theorem find_segments_runs proj min_width threshold_frac :
  let above := above_threshold_of proj threshold_frac in
  let segments := _find_segments_from_projection proj min_width threshold_frac in
  (max_list (hd 0 proj) (tl proj) = 0 -> segments = [])
  /\ (max_list (hd 0 proj) (tl proj) <> 0 ->
      forall seg, seg ∈ segments <->
                  maximal_run above seg /\ min_width <= seg.2 - seg.1)
  /\ ordered (fun a b : Z * Z => a.2 < b.1) segments
  /\ Forall (fun seg => 0 <= seg.1 < seg.2 /\ seg.2 <= Z.of_nat (length proj)
                        /\ min_width <= seg.2 - seg.1) segments.
Proof.
  intros above segments. subst segments. unfold _find_segments_from_projection.
  destruct proj as [|p0 ps].
  { split; [done |]. split; [done |]. split; constructor. }
  cbn [hd tl]. destruct (max_list p0 ps =? 0) eqn:Emax.
  { apply Z.eqb_eq in Emax. split; [done |]. split; [done |]. split; constructor. }
  apply Z.eqb_neq in Emax. fold above.
  assert (Hlen : length above = length (p0 :: ps)).
  { subst above. unfold above_threshold_of. by rewrite length_fmap. }
  assert (Hinit : segments_inv above min_width (Z.of_nat (length (@nil bool))) false 0 []).
  { split; [constructor | constructor | discriminate | intros _; reflexivity |].
    intros seg (? & _) _ Hs. cbn in Hs. lia. }
  pose proof (segments_loop_spec above min_width above [] false 0 []
                _ eq_refl Hinit eq_refl) as Hfin.
  change (Z.of_nat (length (@nil bool))) with 0 in Hfin.
  destruct (segments_loop above 0 false 0 min_width []) as [[segs in_segment] start].
  cbn [fst snd] in Hfin.
  set (n := Z.of_nat (length above)) in *.
  assert (Hend : above_at above n = false).
  { destruct (above_at above n) eqn:E; [| reflexivity]. apply above_at_range in E. lia. }
  assert (Hfinal : segments_inv above min_width (n + 1) false start
                     (if in_segment
                      then if min_width <=? n - start then segs ++ [(start, n)] else segs
                      else segs)).
  { destruct in_segment; [apply segments_inv_close; [done | done | lia] |].
    destruct Hfin as [R O Op Cl C]. specialize (Cl eq_refl). split.
    - eapply Forall_impl; [exact R |]. intros seg (Hm & Hw & He). split; [exact Hm |]. split; [exact Hw | lia].
    - exact O.
    - discriminate.
    - intros _. by replace (n + 1 - 1) with n by lia.
    - intros seg Hm Hw He. apply C; try done.
      destruct (decide (seg.2 = n)) as [Heq | Hne]; [| lia].
      destruct Hm as (M1 & _ & M3 & _ & _).
      rewrite (M3 (n - 1)) in Cl by lia. discriminate. }
  destruct Hfinal as [R O _ _ C].
  split; [done |]. split; [| split; [exact O |]].
  - intros _ seg. split.
    + intros Hin. rewrite Forall_forall in R. destruct (R seg Hin) as (? & ? & _). done.
    + intros [Hm Hw]. apply C; try done. destruct Hm as (_ & ? & _). lia.
  - eapply Forall_impl; [exact R |]. intros seg ((? & ? & _) & ? & _).
    rewrite <- Hlen. fold n. done.
Qed.

Lemma find_segments_runs_witness :
  (1, 4) ∈ _find_segments_from_projection ex_proj 2 (5 # 100)
  <-> maximal_run (above_threshold_of ex_proj (5 # 100)) (1, 4) /\ 2 <= (1, 4).2 - (1, 4).1.
Proof.
  pose proof (find_segments_runs ex_proj 2 (5 # 100)) as H.
  cbv zeta in H. destruct H as (_ & H & _).
  apply H. vm_compute. discriminate.
Defined.
